(* ===================================================================== *)
(* blazer (package b2): the upload engine.                                *)
(*                                                                        *)
(* A shallow embedding of writer.go (Writer, meteredReader, hashReader)   *)
(* and buffer.go (writeBuffer, nonBuffer, memoryBuffer, fileBuffer),      *)
(* followed by the properties of the upload engine.                       *)
(* ===================================================================== *)

From Stdlib Require Import ZArith List Bool Lia String Ascii.
From Stdlib Require Import Strings.Byte.
From stdpp Require Import gmap strings list fin_maps.

Local Open Scope Z_scope.

(* --------------------------------------------------------------------- *)
(* Bytes                                                                   *)
(* --------------------------------------------------------------------- *)

Definition b2z (b : byte) : Z := Z.of_N (Byte.to_N b).

Definition z2b (z : Z) : byte :=
  match Byte.of_N (Z.to_N (z mod 256)) with
  | Some b => b
  | None => x00
  end.

(* len(p) as a Go int *)
Definition zlen {A} (l : list A) : Z := Z.of_nat (length l).

(* p[:n] and p[n:] for 0 <= n <= len(p) *)
Definition slice_to {A} (n : Z) (p : list A) : list A := firstn (Z.to_nat n) p.
Definition slice_from {A} (n : Z) (p : list A) : list A := skipn (Z.to_nat n) p.

(* --------------------------------------------------------------------- *)
(* crypto/sha1 (FIPS 180-4), which the source reaches through hash.Hash   *)
(* --------------------------------------------------------------------- *)

Module SHA1.

Definition w32 (x : Z) : Z := x mod 2 ^ 32.

Definition rotl (n x : Z) : Z :=
  w32 (Z.lor (Z.shiftl x n) (Z.shiftr x (32 - n))).

Definition not32 (x : Z) : Z := Z.lxor x 4294967295.

(* big-endian encodings *)
Definition be32 (x : Z) : list byte :=
  [z2b (Z.shiftr x 24); z2b (Z.shiftr x 16); z2b (Z.shiftr x 8); z2b x].

Definition be64 (x : Z) : list byte :=
  be32 (Z.shiftr x 32) ++ be32 x.

Definition pad (msg : list byte) : list byte :=
  let l := zlen msg in
  msg ++ [x80] ++ repeat x00 (Z.to_nat ((55 - l) mod 64)) ++ be64 (8 * l).

Fixpoint words (bs : list byte) : list Z :=
  match bs with
  | a :: b :: c :: d :: rest =>
      (Z.shiftl (b2z a) 24 + Z.shiftl (b2z b) 16 + Z.shiftl (b2z c) 8 + b2z d)
      :: words rest
  | _ => []
  end.

Fixpoint blocks (n : nat) (ws : list Z) : list (list Z) :=
  match n with
  | O => []
  | S n' =>
      match ws with
      | [] => []
      | _ => firstn 16 ws :: blocks n' (skipn 16 ws)
      end
  end.

Definition wnth (ws : list Z) (i : nat) : Z := nth i ws 0.

(* the message schedule w[0..79] *)
Fixpoint expand (n : nat) (ws : list Z) : list Z :=
  match n with
  | O => ws
  | S n' =>
      let t := length ws in
      let x := Z.lxor (Z.lxor (wnth ws (t - 3)) (wnth ws (t - 8)))
                      (Z.lxor (wnth ws (t - 14)) (wnth ws (t - 16))) in
      expand n' (ws ++ [rotl 1 x])
  end.

Definition state : Type := Z * Z * Z * Z * Z.

Definition init : state :=
  (1732584193, 4023233417, 2562383102, 271733878, 3285377520).

Definition round (t : nat) (st : state) (wt : Z) : state :=
  let '(a, b, c, d, e) := st in
  let '(f, k) :=
    if (t <? 20)%nat then
      (Z.lor (Z.land b c) (Z.land (not32 b) d), 1518500249)
    else if (t <? 40)%nat then
      (Z.lxor (Z.lxor b c) d, 1859775393)
    else if (t <? 60)%nat then
      (Z.lor (Z.lor (Z.land b c) (Z.land b d)) (Z.land c d), 2400959708)
    else
      (Z.lxor (Z.lxor b c) d, 3395469782) in
  (w32 (rotl 5 a + f + e + k + wt), a, rotl 30 b, c, d).

Fixpoint rounds (t : nat) (st : state) (ws : list Z) : state :=
  match ws with
  | [] => st
  | wt :: rest => rounds (S t) (round t st wt) rest
  end.

Definition compress (h : state) (blk : list Z) : state :=
  let '(h0, h1, h2, h3, h4) := h in
  let '(a, b, c, d, e) := rounds 0 h (expand 64 blk) in
  (w32 (h0 + a), w32 (h1 + b), w32 (h2 + c), w32 (h3 + d), w32 (h4 + e)).

Definition digest (h : state) : list byte :=
  let '(h0, h1, h2, h3, h4) := h in
  be32 h0 ++ be32 h1 ++ be32 h2 ++ be32 h3 ++ be32 h4.

Definition sum (msg : list byte) : list byte :=
  let ws := words (pad msg) in
  digest (fold_left compress (blocks (length ws) ws) init).

End SHA1.

(* fmt.Sprintf("%x", b) for a byte slice: two lower-case digits per byte *)
Definition hex_digit (n : Z) : ascii :=
  ascii_of_nat (Z.to_nat (if n <? 10 then 48 + n else 87 + n)).

Fixpoint hex (bs : list byte) : string :=
  match bs with
  | [] => EmptyString
  | b :: rest =>
      String (hex_digit (b2z b / 16)) (String (hex_digit (b2z b mod 16)) (hex rest))
  end.

Definition sha1_hex (msg : list byte) : string := hex (SHA1.sum msg).

(* lower-case hexadecimal digits *)
Definition is_lower_hex (a : ascii) : bool :=
  let n := Z.of_nat (nat_of_ascii a) in
  ((48 <=? n) && (n <=? 57)) || ((97 <=? n) && (n <=? 102)).

Fixpoint string_forall (f : ascii -> bool) (s : string) : bool :=
  match s with
  | EmptyString => true
  | String a s' => f a && string_forall f s'
  end.

(* --------------------------------------------------------------------- *)
(* Errors (the Go `error` interface; nil is None)                         *)
(* --------------------------------------------------------------------- *)

Inductive error : Type :=
| EOF                       (* io.EOF *)
| ErrWritesNotSupported     (* errors.New("writes not supported") *)
| ErrChunksDontMatch        (* errors.New("resumable upload was requested, but chunks don't match!") *)
| ErrCanceled               (* context.Canceled *)
| ErrWhence                 (* Seek: invalid whence *)
| ErrOffset                 (* Seek: invalid offset *)
| ErrBackend (code : nat)   (* an error value produced by the backend *)
| ErrIO (code : nat).       (* an error value produced by the operating system *)

#[global] Instance error_eq_dec : EqDecision error.
Proof. solve_decision. Defined.

Definition SeekStart : Z := 0.
Definition SeekCurrent : Z := 1.
Definition SeekEnd : Z := 2.

Definition max_int64 : Z := 9223372036854775807.

(* --------------------------------------------------------------------- *)
(* io.Reader / io.Seeker                                                   *)
(*                                                                         *)
(* Read r k is r.Read(p) with len(p) = k: the bytes stored in p[:n], the   *)
(* error, and the reader afterwards.  None is a run-time panic (a nil      *)
(* pointer dereference).                                                   *)
(* --------------------------------------------------------------------- *)

Class ReadSeeker (R : Type) : Type := {
  Read : R -> nat -> option (list byte * option error * R);
  Seek : R -> Z -> Z -> option (Z * option error * R)
}.

(* copy(b, s[i:]) with len(b) = k, for 0 <= i <= len(s) *)
Definition copy_from (k : nat) (s : list byte) (i : Z) : list byte :=
  firstn k (slice_from i s).

(* strings.Reader and bytes.Reader *)
Record bytesReader : Type := mkBytesReader { br_s : list byte; br_i : Z }.

Definition bytesReader_Read (r : bytesReader) (k : nat)
  : list byte * option error * bytesReader :=
  if zlen (br_s r) <=? br_i r then ([], Some EOF, r)
  else
    let b := copy_from k (br_s r) (br_i r) in
    (b, None, mkBytesReader (br_s r) (br_i r + zlen b)).

Definition bytesReader_Seek (r : bytesReader) (offset whence : Z)
  : Z * option error * bytesReader :=
  if negb ((whence =? SeekStart) || (whence =? SeekCurrent) || (whence =? SeekEnd))
  then (0, Some ErrWhence, r)
  else
    let abs :=
      if whence =? SeekStart then offset
      else if whence =? SeekCurrent then br_i r + offset
      else zlen (br_s r) + offset in
    if abs <? 0 then (0, Some ErrOffset, r)
    else (abs, None, mkBytesReader (br_s r) abs).

#[global] Instance bytesReader_ReadSeeker : ReadSeeker bytesReader := {
  Read r k := Some (bytesReader_Read r k);
  Seek r o w := Some (bytesReader_Seek r o w)
}.

(* ReadAt on a source with fixed content (bytes.Reader.ReadAt, os.File.ReadAt) *)
Definition ReadAt (src : list byte) (k : nat) (off : Z) : list byte * option error :=
  if off <? 0 then ([], Some ErrOffset)
  else if zlen src <=? off then ([], Some EOF)
  else
    let b := copy_from k src off in
    (b, if (length b <? k)%nat then Some EOF else None).

(* io.SectionReader *)
Record SectionReader : Type := mkSectionReader {
  sr_r : list byte;       (* the io.ReaderAt *)
  sr_base : Z;
  sr_off : Z;
  sr_limit : Z
}.

Definition NewSectionReader (r : list byte) (off n : Z) : SectionReader :=
  let remaining := if off <=? max_int64 - n then n + off else max_int64 in
  mkSectionReader r off off remaining.

Definition SectionReader_Read (s : SectionReader) (k : nat)
  : list byte * option error * SectionReader :=
  if sr_limit s <=? sr_off s then ([], Some EOF, s)
  else
    let max := sr_limit s - sr_off s in
    let k' := if max <? Z.of_nat k then Z.to_nat max else k in
    let '(b, err) := ReadAt (sr_r s) k' (sr_off s) in
    (b, err, mkSectionReader (sr_r s) (sr_base s) (sr_off s + zlen b) (sr_limit s)).

Definition SectionReader_Seek (s : SectionReader) (offset whence : Z)
  : Z * option error * SectionReader :=
  if negb ((whence =? SeekStart) || (whence =? SeekCurrent) || (whence =? SeekEnd))
  then (0, Some ErrWhence, s)
  else
    let offset' :=
      if whence =? SeekStart then offset + sr_base s
      else if whence =? SeekCurrent then offset + sr_off s
      else offset + sr_limit s in
    if offset' <? sr_base s then (0, Some ErrOffset, s)
    else (offset' - sr_base s, None,
          mkSectionReader (sr_r s) (sr_base s) offset' (sr_limit s)).

#[global] Instance SectionReader_ReadSeeker : ReadSeeker SectionReader := {
  Read r k := Some (SectionReader_Read r k);
  Seek r o w := Some (SectionReader_Seek r o w)
}.

(* hash.Hash for sha1.New(): the state is the message absorbed so far *)
Definition Hash_t : Type := list byte.
Definition sha1_New : Hash_t := [].
Definition Hash_Write (h : Hash_t) (p : list byte) : Hash_t := h ++ p.
Definition Hash_Sum (h : Hash_t) : list byte := SHA1.sum h.
Definition Hash_Reset (h : Hash_t) : Hash_t := [].

(* io.TeeReader(r, h).Read(p): what is read from r is written to h *)
Definition TeeReader_Read {R} `{ReadSeeker R} (r : R) (h : Hash_t) (k : nat)
  : option (list byte * option error * R * Hash_t) :=
  match Read r k with
  | None => None
  | Some (b, err, r') =>
      if (0 <? length b)%nat then Some (b, err, r', Hash_Write h b)
      else Some (b, err, r', h)
  end.

(* --------------------------------------------------------------------- *)
(* buffer.go: nonBuffer                                                    *)
(* --------------------------------------------------------------------- *)

Record nonBuffer : Type := mkNonBuffer {
  nb_r : SectionReader;
  nb_size : Z;
  nb_hsh : Hash_t;
  nb_isEOF : bool;
  nb_buf : option bytesReader      (* *strings.Reader, nil until the first EOF *)
}.

Definition newNonBuffer (rs : list byte) (offset size : Z) : nonBuffer :=
  mkNonBuffer (NewSectionReader rs offset size) size sha1_New false None.

Definition nonBuffer_Len (nb : nonBuffer) : Z := nb_size nb + 40.
Definition nonBuffer_Hash (nb : nonBuffer) : string := "hex_digits_at_end".
Definition nonBuffer_Close (nb : nonBuffer) : option error := None.
Definition nonBuffer_Reader (nb : nonBuffer) : nonBuffer * option error := (nb, None).
Definition nonBuffer_Write (nb : nonBuffer) (p : list byte) : Z * option error :=
  (0, Some ErrWritesNotSupported).

Definition nonBuffer_Read (nb : nonBuffer) (k : nat)
  : option (list byte * option error * nonBuffer) :=
  if nb_isEOF nb then
    match nb_buf nb with
    | None => None
    | Some buf =>
        let '(b, err, buf') := bytesReader_Read buf k in
        Some (b, err, mkNonBuffer (nb_r nb) (nb_size nb) (nb_hsh nb) true (Some buf'))
    end
  else
    match TeeReader_Read (nb_r nb) (nb_hsh nb) k with
    | None => None
    | Some (b, err, r', h') =>
        if decide (err = Some EOF) then
          Some (b, None,
                mkNonBuffer r' (nb_size nb) h' true
                  (Some (mkBytesReader (list_byte_of_string (hex (Hash_Sum h'))) 0)))
        else
          Some (b, err, mkNonBuffer r' (nb_size nb) h' (nb_isEOF nb) (nb_buf nb))
    end.

Definition nonBuffer_Seek (nb : nonBuffer) (offset whence : Z)
  : option (Z * option error * nonBuffer) :=
  let '(n, err, r') := SectionReader_Seek (nb_r nb) offset whence in
  Some (n, err, mkNonBuffer r' (nb_size nb) (Hash_Reset (nb_hsh nb)) false (nb_buf nb)).

#[global] Instance nonBuffer_ReadSeeker : ReadSeeker nonBuffer := {
  Read := nonBuffer_Read;
  Seek := nonBuffer_Seek
}.

(* --------------------------------------------------------------------- *)
(* writer.go: hashReader and meteredReader                                 *)
(* --------------------------------------------------------------------- *)

Record hashReader (R : Type) : Type := mkHashReader {
  hr_h : Hash_t;
  hr_r : R;
  hr_isEOF : bool;
  hr_buf : option bytesReader
}.
Arguments mkHashReader {R}.
Arguments hr_h {R}.
Arguments hr_r {R}.
Arguments hr_isEOF {R}.
Arguments hr_buf {R}.

Definition hashReader_Read {R} `{ReadSeeker R} (h : hashReader R) (k : nat)
  : option (list byte * option error * hashReader R) :=
  if hr_isEOF h then
    match hr_buf h with
    | None => None
    | Some buf =>
        let '(b, err, buf') := bytesReader_Read buf k in
        Some (b, err, mkHashReader (hr_h h) (hr_r h) true (Some buf'))
    end
  else
    match TeeReader_Read (hr_r h) (hr_h h) k with
    | None => None
    | Some (b, err, r', h') =>
        if decide (err = Some EOF) then
          Some (b, None,
                mkHashReader h' r' true
                  (Some (mkBytesReader (list_byte_of_string (hex (Hash_Sum h'))) 0)))
        else
          Some (b, err, mkHashReader h' r' (hr_isEOF h) (hr_buf h))
    end.

Definition hashReader_Seek {R} `{ReadSeeker R} (h : hashReader R) (offset whence : Z)
  : option (Z * option error * hashReader R) :=
  match Seek (hr_r h) offset whence with
  | None => None
  | Some (n, err, r') =>
      Some (n, err, mkHashReader (Hash_Reset (hr_h h)) r' false (hr_buf h))
  end.

#[global] Instance hashReader_ReadSeeker {R} `{ReadSeeker R} : ReadSeeker (hashReader R) := {
  Read := hashReader_Read;
  Seek := hashReader_Seek
}.

Record meteredReader (R : Type) : Type := mkMeteredReader {
  mr_read : Z;
  mr_size : Z;
  mr_r : R
}.
Arguments mkMeteredReader {R}.
Arguments mr_read {R}.
Arguments mr_size {R}.
Arguments mr_r {R}.

Definition meteredReader_Read {R} `{ReadSeeker R} (mr : meteredReader R) (k : nat)
  : option (list byte * option error * meteredReader R) :=
  match Read (mr_r mr) k with
  | None => None
  | Some (b, err, r') =>
      Some (b, err, mkMeteredReader (mr_read mr + zlen b) (mr_size mr) r')
  end.

Definition meteredReader_Seek {R} `{ReadSeeker R} (mr : meteredReader R) (offset whence : Z)
  : option (Z * option error * meteredReader R) :=
  match Seek (mr_r mr) offset whence with
  | None => None
  | Some (n, err, r') => Some (n, err, mkMeteredReader offset (mr_size mr) r')
  end.

#[global] Instance meteredReader_ReadSeeker {R} `{ReadSeeker R}
  : ReadSeeker (meteredReader R) := {
  Read := meteredReader_Read;
  Seek := meteredReader_Seek
}.

(* float64 values produced by done(): the constant 1, or the quotient
   float64(read) / float64(size), kept symbolic *)
Inductive float64 : Type :=
| F_one
| F_div (read size : Z).

(* (mr *meteredReader) done(); None is the nil pointer *)
Definition meteredReader_done {R} (mr : option (meteredReader R)) : float64 :=
  match mr with
  | None => F_one
  | Some m => F_div (mr_read m) (mr_size m)
  end.

(* Reading a stream to completion with a buffer of k bytes, as io.Copy and
   ioutil.ReadAll do: Read until io.EOF or another error. *)
Inductive read_status : Type :=
| AtEOF
| Failed (e : error)
| Unfinished.

Fixpoint read_all {R} `{ReadSeeker R} (fuel : nat) (k : nat) (r : R)
  : option (list byte * read_status * R) :=
  match fuel with
  | O => Some ([], Unfinished, r)
  | S fuel' =>
      match Read r k with
      | None => None
      | Some (b, Some EOF, r') => Some (b, AtEOF, r')
      | Some (b, Some e, r') => Some (b, Failed e, r')
      | Some (b, None, r') =>
          match read_all fuel' k r' with
          | None => None
          | Some (bs, st, r'') => Some (b ++ bs, st, r'')
          end
      end
  end.

(* The pass-through buffer over the section [base, base+size) of a source:
   the bytes of the section, the section reader after j bytes, the
   hexadecimal suffix, and the states the buffer can be in. *)
Definition section_bytes (src : list byte) (base size : nat) : list byte :=
  firstn size (skipn base src).

Definition sect (src : list byte) (base size j : nat) : SectionReader :=
  mkSectionReader src (Z.of_nat base) (Z.of_nat base + Z.of_nat j)
                  (Z.of_nat base + Z.of_nat size).

Definition suffix_bytes (src : list byte) (base size : nat) : list byte :=
  list_byte_of_string (sha1_hex (section_bytes src base size)).

Definition nb_shape (src : list byte) (base size : nat) (nb : nonBuffer) : Prop :=
  exists j h e b,
    (j <= size)%nat /\ nb = mkNonBuffer (sect src base size j) (Z.of_nat size) h e b.

(* --------------------------------------------------------------------- *)
(* buffer.go: memoryBuffer and fileBuffer                                  *)
(* --------------------------------------------------------------------- *)

Inductive result (A : Type) : Type :=
| Ok (a : A)
| Err (e : error).
Arguments Ok {A}.
Arguments Err {A}.

(* mb_id and fb_id stand for the identity of the object *)
Record memoryBuffer : Type := mkMemoryBuffer {
  mb_id : nat;
  mb_buf : list byte;     (* the bytes.Buffer *)
  mb_hsh : Hash_t
}.

Record fileBuffer : Type := mkFileBuffer {
  fb_id : nat;
  fb_f : list byte;       (* what the file holds *)
  fb_hsh : Hash_t;
  fb_s : Z
}.

(* the writeBuffer values that getBuffer hands to a Writer *)
Inductive writeBuffer : Type :=
| MemBuf (mb : memoryBuffer)
| FileBuf (fb : fileBuffer).

Definition newMemoryBuffer (id : nat) : memoryBuffer :=
  mkMemoryBuffer id [] sha1_New.

Definition memoryBuffer_Len (mb : memoryBuffer) : Z := zlen (mb_buf mb).
Definition memoryBuffer_Hash (mb : memoryBuffer) : string := hex (Hash_Sum (mb_hsh mb)).
Definition memoryBuffer_Reader (mb : memoryBuffer) : bytesReader :=
  mkBytesReader (mb_buf mb) 0.

(* io.MultiWriter(mb.hsh, mb.buf).Write(p): neither writer fails *)
Definition memoryBuffer_Write (mb : memoryBuffer) (p : list byte)
  : Z * option error * memoryBuffer :=
  (zlen p, None, mkMemoryBuffer (mb_id mb) (mb_buf mb ++ p) (Hash_Write (mb_hsh mb) p)).

Definition fileBuffer_Len (fb : fileBuffer) : Z := fb_s fb.
Definition fileBuffer_Hash (fb : fileBuffer) : string := hex (Hash_Sum (fb_hsh fb)).

(* io.MultiWriter(fb.f, fb.hsh).Write(p): the file is written first, and
   the hash only absorbs p when the file took all of it.  [fail] is what
   os.File.Write reports when it fails: the bytes written and the error. *)
Definition fileBuffer_Write (fail : option (nat * error)) (fb : fileBuffer) (p : list byte)
  : Z * option error * fileBuffer :=
  match fail with
  | None =>
      (zlen p, None,
       mkFileBuffer (fb_id fb) (fb_f fb ++ p) (Hash_Write (fb_hsh fb) p) (fb_s fb + zlen p))
  | Some (n, e) =>
      let q := firstn n p in
      (zlen q, Some e,
       mkFileBuffer (fb_id fb) (fb_f fb ++ q) (fb_hsh fb) (fb_s fb + zlen q))
  end.

Definition buf_id (b : writeBuffer) : nat :=
  match b with
  | MemBuf mb => mb_id mb
  | FileBuf fb => fb_id fb
  end.

Definition buf_Len (b : writeBuffer) : Z :=
  match b with
  | MemBuf mb => memoryBuffer_Len mb
  | FileBuf fb => fileBuffer_Len fb
  end.

Definition buf_Hash (b : writeBuffer) : string :=
  match b with
  | MemBuf mb => memoryBuffer_Hash mb
  | FileBuf fb => fileBuffer_Hash fb
  end.

(* the bytes a reader of the buffer delivers *)
Definition buf_bytes (b : writeBuffer) : list byte :=
  match b with
  | MemBuf mb => mb_buf mb
  | FileBuf fb => fb_f fb
  end.

Record chunk : Type := mkChunk {
  chunk_id : Z;
  chunk_buf : writeBuffer
}.

(* the io.ReadSeeker values wrapped in a meteredReader: the reader of a
   buffer, or the hashReader over the source given to ReadFrom *)
Inductive io_reader : Type :=
| BufReader (r : bytesReader)
| SrcReader (h : hashReader bytesReader).

(* --------------------------------------------------------------------- *)
(* What is outside the engine                                              *)
(*                                                                         *)
(* The backend (beBucketInterface, beLargeFileInterface, ...), the         *)
(* operating system and the caller's io.ReadSeeker answer each call; the   *)
(* answer to the call made at tick t is given by these functions.          *)
(* --------------------------------------------------------------------- *)

Record part : Type := mkPart {
  part_number : Z;
  part_sha1 : string;
  part_size : Z
}.

Record upload_part_result : Type := mkUploadPartResult {
  up_n : Z;                   (* the count uploadPart returns *)
  up_err : option error;
  up_read : Z                 (* mr.read when uploadPart returns *)
}.

Record Backend : Type := mkBackend {
  reupload : option error -> bool;
  getUploadURL : nat -> option error;
  (* uploadFile: the error, and mr.read when the call returns *)
  uploadFile : nat -> option error * Z;
  startLargeFile : nat -> option error;
  (* Bucket.ListObjects(ctx, 1, cur): the name of objs[0], if any *)
  ListObjects : nat -> result (option string);
  (* listParts(ctx, next, 100) *)
  listParts : nat -> Z -> result (list part * Z);
  getUploadPartURL : nat -> option error;
  (* uploadPart(ctx, mr, sha1, size, id) *)
  uploadPart : nat -> Z -> Z -> upload_part_result;
  finishLargeFile : nat -> option error;
  TempFile : nat -> option error;                 (* ioutil.TempFile *)
  file_Write : nat -> nat -> option (nat * error);  (* os.File.Write, by len(p) *)
  file_Seek : nat -> option error;                (* os.File.Seek(0, 0) *)
  source_Seek : nat -> option error               (* Seek on the caller's io.ReadSeeker *)
}.

(* --------------------------------------------------------------------- *)
(* writer.go: Writer                                                       *)
(* --------------------------------------------------------------------- *)

(* A goroutine started by w.thread(), at the points where it meets the
   rest of the program. *)
Inductive tstate : Type :=
| TStart                                     (* before getUploadPartURL *)
| TIdle (fc : nat)                           (* at chunk, ok := <-w.ready *)
| TRecv (fc : nat) (c : chunk)               (* a chunk was received *)
| TRedo (fc : nat) (c : chunk) (sleep : Z)   (* at the label redo *)
| TExit.                                     (* returned; wg.Done() *)

Inductive event : Type :=
| EvAddWriter
| EvRemoveWriter
| EvBufClose (id : nat)
| EvGetUploadURL (ue : nat)
| EvUploadFile (ue : nat) (size : Z) (ctype sha1 : string)
| EvStartLargeFile (ctype : string)
| EvListObjects
| EvListParts (next : Z)
| EvCompileParts (size : Z)
| EvSend (c : chunk)
| EvGetUploadPartURL (i : nat) (fc : nat)
| EvSkip (i : nat) (id : Z)
| EvUploadPart (i : nat) (fc : nat) (id : Z) (sha1 : string) (size : Z)
| EvSleep (i : nat) (d : Z)
| EvCloseReady
| EvFinishLargeFile.

(* What the other goroutines do while the writing goroutine reaches a point
   where it synchronises with them: goroutine i takes a step, or the
   caller cancels the parent context. *)
Inductive act : Type :=
| Step (i : nat)
| CancelParent.

(* One synchronisation point: what happens before it and, at a select,
   the case preferred: Some i is the send received by goroutine i, None is
   <-w.ctx.Done(). *)
Record sync : Type := mkSync {
  acts : list act;
  pick : option nat
}.

Record Writer : Type := mkWriter {
  ConcurrentUploads : Z;
  Resume : bool;
  ChunkSize : Z;
  UseFileBuffer : bool;
  contentType : string;
  name : string;
  csize : Z;
  ready : option bool;  (* chan chunk: nil, or Some closed *)
  start : bool;  (* sync.Once *)
  once : bool;  (* sync.Once *)
  done : bool;  (* sync.Once *)
  file : option nat;  (* beLargeFileInterface: nil, or a handle *)
  seen : gmap Z string;
  everStarted : bool;
  o_f : option nat;  (* w.o.f: nil, or a file handle *)
  cidx : Z;
  w : option writeBuffer  (* writeBuffer: nil, or a buffer *)
}.

Definition set_ConcurrentUploads (v : Z) (x : Writer) : Writer :=
  mkWriter v (Resume x) (ChunkSize x) (UseFileBuffer x) (contentType x)
    (name x) (csize x) (ready x) (start x) (once x) (done x) (file x)
    (seen x) (everStarted x) (o_f x) (cidx x) (w x).

Definition set_Resume (v : bool) (x : Writer) : Writer :=
  mkWriter (ConcurrentUploads x) v (ChunkSize x) (UseFileBuffer x)
    (contentType x) (name x) (csize x) (ready x) (start x) (once x) (done x)
    (file x) (seen x) (everStarted x) (o_f x) (cidx x) (w x).

Definition set_ChunkSize (v : Z) (x : Writer) : Writer :=
  mkWriter (ConcurrentUploads x) (Resume x) v (UseFileBuffer x)
    (contentType x) (name x) (csize x) (ready x) (start x) (once x) (done x)
    (file x) (seen x) (everStarted x) (o_f x) (cidx x) (w x).

Definition set_UseFileBuffer (v : bool) (x : Writer) : Writer :=
  mkWriter (ConcurrentUploads x) (Resume x) (ChunkSize x) v
    (contentType x) (name x) (csize x) (ready x) (start x) (once x) (done x)
    (file x) (seen x) (everStarted x) (o_f x) (cidx x) (w x).

Definition set_csize (v : Z) (x : Writer) : Writer :=
  mkWriter (ConcurrentUploads x) (Resume x) (ChunkSize x) (UseFileBuffer x)
    (contentType x) (name x) v (ready x) (start x) (once x) (done x)
    (file x) (seen x) (everStarted x) (o_f x) (cidx x) (w x).

Definition set_ready (v : option bool) (x : Writer) : Writer :=
  mkWriter (ConcurrentUploads x) (Resume x) (ChunkSize x) (UseFileBuffer x)
    (contentType x) (name x) (csize x) v (start x) (once x) (done x)
    (file x) (seen x) (everStarted x) (o_f x) (cidx x) (w x).

Definition set_start (v : bool) (x : Writer) : Writer :=
  mkWriter (ConcurrentUploads x) (Resume x) (ChunkSize x) (UseFileBuffer x)
    (contentType x) (name x) (csize x) (ready x) v (once x) (done x)
    (file x) (seen x) (everStarted x) (o_f x) (cidx x) (w x).

Definition set_once (v : bool) (x : Writer) : Writer :=
  mkWriter (ConcurrentUploads x) (Resume x) (ChunkSize x) (UseFileBuffer x)
    (contentType x) (name x) (csize x) (ready x) (start x) v (done x)
    (file x) (seen x) (everStarted x) (o_f x) (cidx x) (w x).

Definition set_done (v : bool) (x : Writer) : Writer :=
  mkWriter (ConcurrentUploads x) (Resume x) (ChunkSize x) (UseFileBuffer x)
    (contentType x) (name x) (csize x) (ready x) (start x) (once x) v
    (file x) (seen x) (everStarted x) (o_f x) (cidx x) (w x).

Definition set_file (v : option nat) (x : Writer) : Writer :=
  mkWriter (ConcurrentUploads x) (Resume x) (ChunkSize x) (UseFileBuffer x)
    (contentType x) (name x) (csize x) (ready x) (start x) (once x) (done x)
    v (seen x) (everStarted x) (o_f x) (cidx x) (w x).

Definition set_seen (v : gmap Z string) (x : Writer) : Writer :=
  mkWriter (ConcurrentUploads x) (Resume x) (ChunkSize x) (UseFileBuffer x)
    (contentType x) (name x) (csize x) (ready x) (start x) (once x) (done x)
    (file x) v (everStarted x) (o_f x) (cidx x) (w x).

Definition set_everStarted (v : bool) (x : Writer) : Writer :=
  mkWriter (ConcurrentUploads x) (Resume x) (ChunkSize x) (UseFileBuffer x)
    (contentType x) (name x) (csize x) (ready x) (start x) (once x) (done x)
    (file x) (seen x) v (o_f x) (cidx x) (w x).

Definition set_o_f (v : option nat) (x : Writer) : Writer :=
  mkWriter (ConcurrentUploads x) (Resume x) (ChunkSize x) (UseFileBuffer x)
    (contentType x) (name x) (csize x) (ready x) (start x) (once x) (done x)
    (file x) (seen x) (everStarted x) v (cidx x) (w x).

Definition set_cidx (v : Z) (x : Writer) : Writer :=
  mkWriter (ConcurrentUploads x) (Resume x) (ChunkSize x) (UseFileBuffer x)
    (contentType x) (name x) (csize x) (ready x) (start x) (once x) (done x)
    (file x) (seen x) (everStarted x) (o_f x) v (w x).

Definition set_w (v : option writeBuffer) (x : Writer) : Writer :=
  mkWriter (ConcurrentUploads x) (Resume x) (ChunkSize x) (UseFileBuffer x)
    (contentType x) (name x) (csize x) (ready x) (start x) (once x) (done x)
    (file x) (seen x) (everStarted x) (o_f x) (cidx x) v.

(* The state of an upload.  The Writer struct is split by ownership: the
   fields the writing goroutine alone assigns are in [Writer]; err (under
   emux), the context and smap (under smux) are shared with the goroutines
   of w.thread(). *)
Record World : Type := mkWorld {
  wr : Writer;  (* the fields only the writing goroutine assigns *)
  err : option error;  (* w.err, under emux *)
  ctx : option error;  (* w.ctx.Err(): nil until the context is done *)
  smap : gmap Z (option (meteredReader io_reader));  (* w.smap, under smux *)
  pool : list tstate;  (* the goroutines started by w.thread() *)
  sched : list sync;  (* the interleaving still to come *)
  tick : nat;  (* calls made to the outside so far *)
  trace : list event  (* what has been done to the outside *)
}.

Definition set_wr (v : Writer) (s : World) : World :=
  mkWorld v (err s) (ctx s) (smap s) (pool s) (sched s) (tick s) (trace s).

Definition set_err (v : option error) (s : World) : World :=
  mkWorld (wr s) v (ctx s) (smap s) (pool s) (sched s) (tick s) (trace s).

Definition set_ctx (v : option error) (s : World) : World :=
  mkWorld (wr s) (err s) v (smap s) (pool s) (sched s) (tick s) (trace s).

Definition set_smap (v : gmap Z (option (meteredReader io_reader))) (s : World) : World :=
  mkWorld (wr s) (err s) (ctx s) v (pool s) (sched s) (tick s) (trace s).

Definition set_pool (v : list tstate) (s : World) : World :=
  mkWorld (wr s) (err s) (ctx s) (smap s) v (sched s) (tick s) (trace s).

Definition set_sched (v : list sync) (s : World) : World :=
  mkWorld (wr s) (err s) (ctx s) (smap s) (pool s) v (tick s) (trace s).

Definition set_tick (v : nat) (s : World) : World :=
  mkWorld (wr s) (err s) (ctx s) (smap s) (pool s) (sched s) v (trace s).

Definition set_trace (v : list event) (s : World) : World :=
  mkWorld (wr s) (err s) (ctx s) (smap s) (pool s) (sched s) (tick s) v.

(* Modelled from the spec: NewWriter is not among the sources in the form
   that goes with this Writer struct.  It returns a Writer with the object's
   name and every other field at its zero value, whose context wraps the
   caller's with a cancel function ("a per-writer cancellation signal wraps
   the caller-supplied context").  The caller may then set the public
   fields before the first Write. *)
Definition NewWriter (name : string) : Writer :=
  mkWriter 0 false 0 false "" name 0 None false false false None ∅ false None 0 None.

Definition new_world (x : Writer) (sc : list sync) : World :=
  mkWorld x None None ∅ [] sc 0 [].

(* What a call on the Writer comes to: it returns, it panics, or it never
   returns (the goroutine waits forever, or retries without end). *)
Inductive outcome (A : Type) : Type :=
| Ret (a : A) (s : World)
| Panic (s : World)
| Blocked (s : World).
Arguments Ret {A}.
Arguments Panic {A}.
Arguments Blocked {A}.

Definition M (A : Type) : Type := World -> outcome A.

Definition ret {A} (a : A) : M A := fun s => Ret a s.

Definition bind {A B} (m : M A) (f : A -> M B) : M B := fun s =>
  match m s with
  | Ret a s' => f a s'
  | Panic s' => Panic s'
  | Blocked s' => Blocked s'
  end.

Declare Scope engine_scope.
Notation "x ← y ; z" := (bind y (fun x => z))
  (at level 20, y at level 100, z at level 200, only parsing) : engine_scope.
Notation "' x ← y ; z" := (bind y (fun x => z))
  (at level 20, x pattern, y at level 100, z at level 200, only parsing) : engine_scope.
Notation "x ;; z" := (bind x (fun _ => z))
  (at level 100, z at level 200, only parsing, right associativity) : engine_scope.
Local Open Scope engine_scope.

Definition get : M World := fun s => Ret s s.
Definition modify (f : World -> World) : M unit := fun s => Ret tt (f s).
Definition panic {A} : M A := fun s => Panic s.
Definition block {A} : M A := fun s => Blocked s.

(* a call to the outside, answered at the current tick *)
Definition call {A} (f : nat -> A) : M (nat * A) :=
  fun s => Ret (tick s, f (tick s)) (set_tick (S (tick s)) s).

Definition log (e : event) (s : World) : World := set_trace (trace s ++ [e]) s.

Definition update_wr (f : Writer -> Writer) (s : World) : World := set_wr (f (wr s)) s.

(* w.cancel(), and the caller cancelling the parent context *)
Definition cancel (s : World) : World :=
  match ctx s with
  | None => set_ctx (Some ErrCanceled) s
  | Some _ => s
  end.

Definition setErr (e : option error) (s : World) : World :=
  match e with
  | None => s
  | Some _ =>
      match err s with
      | None => cancel (set_err e s)
      | Some _ => s
      end
  end.

Definition getErr (s : World) : option error := err s.

Definition registerChunk (id : Z) (r : meteredReader io_reader) (s : World) : World :=
  set_smap (<[id := Some r]> (smap s)) s.

Definition completeChunk (id : Z) (s : World) : World :=
  set_smap (<[id := None]> (smap s)) s.

(* the reads the backend makes through the meteredReader registered under
   id leave its counter at rd; the position of the reader underneath is
   the backend's business and is not followed *)
Definition set_read (id : Z) (rd : Z) (s : World) : World :=
  set_smap
    (alter (fmap (fun m => mkMeteredReader rd (mr_size m) (mr_r m))) id (smap s)) s.

Definition status (s : World) : list float64 :=
  map (fun i => meteredReader_done (default None (smap s !! Z.of_nat i)))
      (seq 1 (size (smap s))).

Definition buf_Close (b : writeBuffer) (s : World) : World :=
  log (EvBufClose (buf_id b)) s.

Definition set_thread (i : nat) (t : tstate) (s : World) : World :=
  set_pool (<[i := t]> (pool s)) s.

(* time.Millisecond * 15 and time.Second * 15, in nanoseconds.  A
   time.Duration is an int64; the doubled delay stays below 2^63, so the
   multiplication is written without wrap-around. *)
Definition sleep_first : Z := 15 * 1000000.
Definition sleep_max : Z := 15 * 1000000000.

Definition next_sleep (sleep : Z) : Z :=
  let d := sleep * 2 in
  if sleep_max <? d then sleep_max else d.

Definition ctype_of (x : Writer) : string :=
  if decide (contentType x = ""%string) then "application/octet-stream"%string
  else contentType x.

Definition wrap_int64 (z : Z) : Z := (z + 2 ^ 63) mod 2 ^ 64 - 2 ^ 63.

Definition is_idle (t : tstate) : bool :=
  match t with
  | TIdle _ => true
  | _ => false
  end.

Definition is_exit (t : tstate) : bool :=
  match t with
  | TExit => true
  | _ => false
  end.

Fixpoint first_idle (p : list tstate) : option nat :=
  match p with
  | [] => None
  | t :: p' => if is_idle t then Some O else S <$> first_idle p'
  end.

Definition idle_at (i : nat) (s : World) : bool :=
  match pool s !! i with
  | Some t => is_idle t
  | None => false
  end.

(* the goroutine a select sends to, if any *)
Definition receiver_of (p : option nat) (s : World) : option nat :=
  match p with
  | Some i => if idle_at i s then Some i else first_idle (pool s)
  | None => first_idle (pool s)
  end.

(* a select on `w.ready <- chunk` and `<-w.ctx.Done()` can proceed *)
Definition can_select (s : World) : bool :=
  match ctx s, first_idle (pool s) with
  | None, None => false
  | _, _ => true
  end.

Definition all_exited (s : World) : bool := forallb is_exit (pool s).

(* goroutine i receives the chunk *)
Definition deliver (i : nat) (c : chunk) (s : World) : World :=
  match pool s !! i with
  | Some (TIdle fc) => set_thread i (TRecv fc c) (log (EvSend c) s)
  | _ => s
  end.

(* the chunks sent on w.ready, in order *)
Fixpoint sent (tr : list event) : list chunk :=
  match tr with
  | [] => []
  | EvSend c :: tr' => c :: sent tr'
  | _ :: tr' => sent tr'
  end.

(* an io.Reader given to ReadFrom *)
Inductive source : Type :=
| PlainReader (data : list byte)         (* not an io.ReadSeeker *)
| SeekerSource (rs : bytesReader).

(* what ReadFrom comes to: the call is handed to copyContext(w.ctx, w, r),
   which is not followed here, or it returns (n, err) itself *)
Inductive read_from_result : Type :=
| ViaCopy
| Direct (n : Z) (e : option error).

Section Engine.

Variable be : Backend.

(* the number of rounds after which a loop that is still waiting or
   retrying is taken never to end *)
Variable horizon : nat.

(* buf.Reader(): bytes.NewReader for a memoryBuffer; for a fileBuffer the
   file is first rewound, which can fail *)
Definition buf_Reader (b : writeBuffer) (t : nat) : result bytesReader :=
  match b with
  | MemBuf mb => Ok (memoryBuffer_Reader mb)
  | FileBuf fb =>
      match file_Seek be t with
      | Some e => Err e
      | None => Ok (mkBytesReader (fb_f fb) 0)
      end
  end.

(* One step of goroutine i of w.thread(). *)
Definition thread_step (i : nat) (s : World) : World :=
  match pool s !! i with
  | Some TStart =>
      let t := tick s in
      let s := set_tick (S t) s in
      match getUploadPartURL be t with
      | Some e => set_thread i TExit (setErr (Some e) s)
      | None => set_thread i (TIdle t) (log (EvGetUploadPartURL i t) s)
      end
  | Some (TIdle fc) =>
      match ready (wr s) with
      | Some true => set_thread i TExit s
      | _ => s
      end
  | Some (TRecv fc c) =>
      let id := chunk_id c in
      let buf := chunk_buf c in
      match seen (wr s) !! id with
      | Some sha =>
          if decide (sha = buf_Hash buf) then
            set_thread i (TIdle fc) (log (EvSkip i id) (completeChunk id (buf_Close buf s)))
          else
            set_thread i TExit (setErr (Some ErrChunksDontMatch) s)
      | None =>
          let t := tick s in
          let s := set_tick (S t) s in
          match buf_Reader buf t with
          | Err e => set_thread i TExit (setErr (Some e) s)
          | Ok r =>
              let mr := mkMeteredReader 0 (buf_Len buf) (BufReader r) in
              set_thread i (TRedo fc c sleep_first) (registerChunk id mr s)
          end
      end
  | Some (TRedo fc c sleep) =>
      let id := chunk_id c in
      let buf := chunk_buf c in
      let t := tick s in
      let s := set_tick (S t) s in
      let res := uploadPart be t id (buf_Len buf) in
      let s := set_read id (up_read res)
                 (log (EvUploadPart i fc id (buf_Hash buf) (buf_Len buf)) s) in
      if negb (up_n res =? buf_Len buf) || bool_decide (up_err res <> None) then
        if reupload be (up_err res) then
          let s := log (EvSleep i sleep) s in
          let t' := tick s in
          let s := set_tick (S t') s in
          match getUploadPartURL be t' with
          | Some e =>
              set_thread i TExit (buf_Close buf (completeChunk id (setErr (Some e) s)))
          | None =>
              set_thread i (TRedo t' c (next_sleep sleep)) (log (EvGetUploadPartURL i t') s)
          end
        else
          set_thread i TExit (buf_Close buf (completeChunk id (setErr (up_err res) s)))
      else
        set_thread i (TIdle fc) (buf_Close buf (completeChunk id s))
  | Some TExit | None => s
  end.

Definition run_act (a : act) (s : World) : World :=
  match a with
  | Step i => thread_step i s
  | CancelParent => cancel s
  end.

(* the writing goroutine reaches a point where it synchronises with the
   others: what the schedule puts before that point happens *)
Definition sync_point : M (option nat) := fun s =>
  match sched s with
  | [] => Ret None s
  | sp :: rest =>
      Ret (pick sp) (fold_left (fun s a => run_act a s) (acts sp) (set_sched rest s))
  end.

(* every goroutine takes a step, in order *)
Definition step_all (s : World) : World :=
  fold_left (fun s i => thread_step i s) (seq 0 (length (pool s))) s.

(* the writing goroutine waits: the others run until [ok] holds *)
Fixpoint drive (fuel : nat) (ok : World -> bool) (s : World) : option World :=
  if ok s then Some s
  else
    match fuel with
    | O => None
    | S fuel' => drive fuel' ok (step_all s)
    end.

(* select { case w.ready <- c: ...; case <-w.ctx.Done(): return w.ctx.Err() } *)
Definition select_send (c : chunk) : M (option error) :=
  p ← sync_point;
  fun s =>
    match ready (wr s) with
    | None =>
        (* a send on a nil channel never proceeds *)
        match ctx s with
        | Some e => Ret (Some e) s
        | None => Blocked s
        end
    | Some true =>
        (* a send on a closed channel panics *)
        match p, ctx s with
        | None, Some e => Ret (Some e) s
        | _, _ => Panic s
        end
    | Some false =>
        match drive horizon can_select s with
        | None => Blocked s
        | Some s' =>
            match p, ctx s', receiver_of p s' with
            | None, Some e, _ => Ret (Some e) s'
            | _, _, Some i => Ret None (deliver i c s')
            | _, Some e, None => Ret (Some e) s'
            | _, None, None => Blocked s'
            end
        end
    end.

(* w.wg.Wait() *)
Definition wg_Wait : M unit :=
  _ ← sync_point;
  fun s =>
    match drive horizon all_exited s with
    | Some s' => Ret tt s'
    | None => Blocked s
    end.

(* setErr and getErr as called by the writing goroutine *)
Definition w_setErr (e : option error) : M unit :=
  _ ← sync_point; modify (setErr e).

Definition w_getErr : M (option error) :=
  _ ← sync_point; s ← get; ret (getErr s).

Definition getBuffer : M (result writeBuffer) := fun s =>
  let t := tick s in
  let s' := set_tick (S t) s in
  if negb (UseFileBuffer (wr s)) then Ret (Ok (MemBuf (newMemoryBuffer t))) s'
  else
    (* newFileBuffer(w.FileBufferDir) *)
    match TempFile be t with
    | Some e => Ret (Err e) s'
    | None => Ret (Ok (FileBuf (mkFileBuffer t [] sha1_New 0))) s'
    end.

(* w.w.Write(p) *)
Definition buf_Write (p : list byte) : M (Z * option error) := fun s =>
  match w (wr s) with
  | None => Panic s
  | Some (MemBuf mb) =>
      let '(n, e, mb') := memoryBuffer_Write mb p in
      Ret (n, e) (update_wr (set_w (Some (MemBuf mb'))) s)
  | Some (FileBuf fb) =>
      let t := tick s in
      let '(n, e, fb') := fileBuffer_Write (file_Write be t (length p)) fb p in
      Ret (n, e) (set_tick (S t) (update_wr (set_w (Some (FileBuf fb'))) s))
  end.

Definition init : M unit :=
  s ← get;
  if start (wr s) then ret tt
  else
    modify (update_wr (set_start true));;
    modify (update_wr (set_everStarted true));;
    modify (set_smap ∅);;
    modify (log EvAddWriter);;
    modify (update_wr (fun x => set_csize (ChunkSize x) x));;
    modify (update_wr (fun x => if csize x =? 0 then set_csize 100000000 x else x));;
    v ← getBuffer;
    match v with
    | Err e => w_setErr (Some e)
    | Ok b => modify (update_wr (set_w (Some b)))
    end.

(* the branch of getLargeFile taken when w.Resume is false *)
Definition startLargeFile_call : M (result nat) :=
  s ← get;
  '(t, r) ← call (startLargeFile be);
  modify (log (EvStartLargeFile (ctype_of (wr s))));;
  match r with
  | Some e => ret (Err e)
  | None => ret (Ok t)
  end.

(* the loop of getLargeFile taken when w.Resume is true *)
Fixpoint listLoop (fuel : nat) (next : Z) (sn : gmap Z string) (sz : Z)
  : M (result nat) :=
  match fuel with
  | O => block
  | S fuel' =>
      s ← get;
      '(_, objs) ← call (ListObjects be);
      modify (log EvListObjects);;
      match objs with
      | Err e => ret (Err e)
      | Ok o =>
          if match o with
             | None => true
             | Some n => negb (String.eqb n (name (wr s)))
             end
          then
            modify (update_wr (set_Resume false));;
            startLargeFile_call
          else
            '(fi, r) ← call (fun t => listParts be t next);
            modify (log (EvListParts next));;
            match r with
            | Err e => ret (Err e)
            | Ok (parts, n) =>
                let sn' :=
                  fold_left (fun m p => <[part_number p := part_sha1 p]> m) parts sn in
                let sz' :=
                  fold_left (fun z p => wrap_int64 (z + part_size p)) parts sz in
                if (length parts =? 0)%nat || (n =? 0) then
                  modify (update_wr (set_seen sn'));;
                  modify (log (EvCompileParts sz'));;
                  ret (Ok fi)
                else listLoop fuel' n sn' sz'
            end
      end
  end.

Definition getLargeFile : M (result nat) :=
  s ← get;
  if negb (Resume (wr s)) then startLargeFile_call
  else listLoop horizon 1 ∅ 0.

(* w.thread(): wg.Add(1) and a new goroutine *)
Definition thread : M unit :=
  modify (fun s => set_pool (pool s ++ [TStart]) s).

Fixpoint spawn (n : nat) : M unit :=
  match n with
  | O => ret tt
  | S n' => thread;; spawn n'
  end.

(* the function given to w.once.Do in sendChunk; its result is the err
   variable of sendChunk *)
Definition promote : M (option error) :=
  s ← get;
  if once (wr s) then ret None
  else
    modify (update_wr (set_once true));;
    lf ← getLargeFile;
    match lf with
    | Err e => ret (Some e)
    | Ok f =>
        modify (update_wr (set_file (Some f)));;
        modify (update_wr (set_ready (Some false)));;
        modify (update_wr (fun x =>
          if ConcurrentUploads x <? 1 then set_ConcurrentUploads 1 x else x));;
        s' ← get;
        spawn (Z.to_nat (ConcurrentUploads (wr s')));;
        ret None
    end.

Definition sendChunk : M (option error) :=
  e ← promote;
  match e with
  | Some e => ret (Some e)
  | None =>
      s ← get;
      match w (wr s) with
      | None => panic     (* both callers have called w.w.Len() *)
      | Some b =>
          r ← select_send (mkChunk (cidx (wr s) + 1) b);
          match r with
          | Some e => ret (Some e)
          | None =>
              modify (update_wr (fun x => set_cidx (cidx x + 1) x));;
              v ← getBuffer;
              match v with
              | Err e => ret (Some e)
              | Ok b' => modify (update_wr (set_w (Some b')));; ret None
              end
          end
      end
  end.

(* Write; [fuel] bounds the depth of the recursion on p[left:] *)
Fixpoint Write_rec (fuel : nat) (p : list byte) : M (Z * option error) :=
  match fuel with
  | O => block
  | S fuel' =>
      init;;
      e ← w_getErr;
      match e with
      | Some e => ret (0, Some e)
      | None =>
          s ← get;
          match w (wr s) with
          | None => panic
          | Some b =>
              let left := csize (wr s) - buf_Len b in
              if zlen p <? left then buf_Write p
              else if left <? 0 then panic      (* p[:left] *)
              else
                '(i, e) ← buf_Write (slice_to left p);
                match e with
                | Some e => w_setErr (Some e);; ret (i, Some e)
                | None =>
                    r ← sendChunk;
                    match r with
                    | Some e =>
                        w_setErr (Some e);;
                        e' ← w_getErr;
                        ret (i, e')
                    | None =>
                        '(k, e) ← Write_rec fuel' (slice_from left p);
                        match e with
                        | Some e' => w_setErr (Some e')
                        | None => ret tt
                        end;;
                        ret (i + k, e)
                    end
                end
          end
      end
  end.

Definition Write (p : list byte) : M (Z * option error) :=
  Write_rec (S (S (length p))) p.

(* the loop at the label redo of simpleWriteFile and of
   simpleWriteFromReader; the result is the error and mr.read *)
Fixpoint uploadFile_redo (fuel : nat) (ue : nat) (size : Z) (ctype sha1 : string)
  : M (option error * Z) :=
  match fuel with
  | O => block
  | S fuel' =>
      '(f, (e, rd)) ← call (uploadFile be);
      modify (log (EvUploadFile ue size ctype sha1));;
      modify (set_read 1 rd);;
      match e with
      | Some e =>
          if reupload be (Some e) then
            '(u, e') ← call (getUploadURL be);
            match e' with
            | Some e' => ret (Some e', rd)
            | None =>
                modify (log (EvGetUploadURL u));;
                uploadFile_redo fuel' u size ctype sha1
            end
          else ret (Some e, rd)
      | None =>
          modify (update_wr (set_o_f (Some f)));;
          ret (None, rd)
      end
  end.

Definition simpleWriteFile : M (option error) :=
  '(ue, e) ← call (getUploadURL be);
  match e with
  | Some e => ret (Some e)
  | None =>
      modify (log (EvGetUploadURL ue));;
      s ← get;
      match w (wr s) with
      | None => panic     (* w.w.Hash() *)
      | Some b =>
          let sha1 := buf_Hash b in
          let ctype := ctype_of (wr s) in
          '(_, r) ← call (buf_Reader b);
          match r with
          | Err e => ret (Some e)
          | Ok rd =>
              modify (registerChunk 1 (mkMeteredReader 0 (buf_Len b) (BufReader rd)));;
              '(e, _) ← uploadFile_redo horizon ue (buf_Len b) ctype sha1;
              modify (completeChunk 1);;
              ret e
          end
      end
  end.

Definition simpleWriteFromReader (rs : bytesReader) (size : Z) : M (Z * option error) :=
  '(ue, e) ← call (getUploadURL be);
  match e with
  | Some e => ret (0, Some e)
  | None =>
      modify (log (EvGetUploadURL ue));;
      s ← get;
      let ctype := ctype_of (wr s) in
      let hr := mkHashReader sha1_New rs false None in
      let mr := mkMeteredReader 0 (size + 40) (SrcReader hr) in
      modify (registerChunk 1 mr);;
      '(e, rd) ← uploadFile_redo horizon ue (size + 40) ctype "hex_digits_at_end";
      modify (completeChunk 1);;
      ret (rd, e)
  end.

Definition ReadFrom (r : source) : M read_from_result :=
  init;;
  match r with
  | PlainReader _ => ret ViaCopy
  | SeekerSource rs =>
      (* size, err := rs.Seek(0, io.SeekEnd) *)
      '(_, e) ← call (source_Seek be);
      match e with
      | Some e => ret (Direct 0 (Some e))
      | None =>
          let size := zlen (br_s rs) in
          s ← get;
          if size <? ChunkSize (wr s) then
            '(_, e) ← call (source_Seek be);
            match e with
            | Some e => ret (Direct 0 (Some e))
            | None =>
                '(n, e) ← simpleWriteFromReader (mkBytesReader (br_s rs) 0) size;
                ret (Direct n e)
            end
          else
            (* large file upload, with hex at end *)
            ret (Direct 0 None)
      end
  end.

(* close(w.ready) *)
Definition close_ready : M unit := fun s =>
  match ready (wr s) with
  | Some false => Ret tt (log EvCloseReady (update_wr (set_ready (Some true)) s))
  | _ => Panic s
  end.

(* the end of the large-file path: close(w.ready), w.wg.Wait() and
   finishLargeFile *)
Definition finish_large : M unit :=
  close_ready;;
  wg_Wait;;
  '(f, e) ← call (finishLargeFile be);
  modify (log EvFinishLargeFile);;
  match e with
  | Some e => w_setErr (Some e)
  | None => modify (update_wr (set_o_f (Some f)))
  end.

(* the function given to w.done.Do, up to its deferred calls *)
Definition Close_body : M unit :=
  s ← get;
  if cidx (wr s) =? 0 then
    e ← simpleWriteFile;
    w_setErr e
  else
    match w (wr s) with
    | None => panic     (* w.w.Len() *)
    | Some b =>
        r ← (if 0 <? buf_Len b then sendChunk else ret None);
        match r with
        | Some e => w_setErr (Some e)
        | None => finish_large
        end
    end.

(* the deferred calls of Close, last in first out: w.w.Close(), then
   removeWriter *)
Definition Close_deferred : M unit :=
  s ← get;
  match w (wr s) with
  | None => panic
  | Some b => modify (buf_Close b)
  end;;
  modify (log EvRemoveWriter).

(* Close.  The deferred calls run when the body returns.  (When the body
   panics they run too, and the call still panics.) *)
Definition Close : M (option error) :=
  s ← get;
  (if done (wr s) then ret tt
   else
     modify (update_wr (set_done true));;
     if negb (everStarted (wr s)) then ret tt
     else Close_body;; Close_deferred);;
  w_getErr.

(* a caller that writes the slices of ps in turn and then closes *)
Fixpoint Writes (ps : list (list byte)) : M (list (Z * option error)) :=
  match ps with
  | [] => ret []
  | p :: ps' => r ← Write p; rs ← Writes ps'; ret (r :: rs)
  end.

Definition upload (ps : list (list byte)) : M (list (Z * option error) * option error) :=
  rs ← Writes ps;
  e ← Close;
  ret (rs, e).

End Engine.

(* --------------------------------------------------------------------- *)
(* Notions used in the statements                                          *)
(* --------------------------------------------------------------------- *)

(* the public fields a caller sets before the first Write *)
Definition configure (conc : Z) (resume : bool) (chunk : Z) (usefile : bool)
    (x : Writer) : Writer :=
  set_ConcurrentUploads conc
    (set_Resume resume (set_ChunkSize chunk (set_UseFileBuffer usefile x))).

(* the threshold the engine works with: w.csize after init *)
Definition threshold (chunk : Z) : Z :=
  if chunk =? 0 then 100000000 else chunk.

(* the ids and the bytes of the chunks sent to the upload goroutines *)
Definition chunk_ids (tr : list event) : list Z := map chunk_id (sent tr).

Definition chunk_bytes (c : chunk) : list byte := buf_bytes (chunk_buf c).

Definition chunk_data (tr : list event) : list byte :=
  concat (map chunk_bytes (sent tr)).

(* 1, 2, ..., n *)
Definition ids_upto (n : nat) : list Z := map Z.of_nat (seq 1 n).

Definition ceil_div (a b : Z) : Z := (a + b - 1) / b.

(* one world comes after another: the latch and the context keep what they
   hold, the trace and the tick only grow, and the schedule is consumed *)
Definition later (s s' : World) : Prop :=
  (forall e, err s = Some e -> err s' = Some e)
  /\ (forall e, ctx s = Some e -> ctx s' = Some e)
  /\ (exists evs, trace s' = trace s ++ evs)
  /\ (tick s <= tick s')%nat.

(* events of the upload goroutines about chunk id *)
Definition is_upload_of (id : Z) (e : event) : Prop :=
  exists i fc sha size, e = EvUploadPart i fc id sha size.

Definition is_skip_of (id : Z) (e : event) : Prop :=
  exists i, e = EvSkip i id.

Definition is_sleep (e : event) : Prop :=
  exists i d, e = EvSleep i d.

(* the buffer holds what was written to it, and its length *)
Definition buf_wf (b : writeBuffer) : Prop :=
  buf_Len b = zlen (buf_bytes b).

(* the writer's fields as init leaves them, the buffer apart *)
Definition init_fields (x : Writer) : Writer :=
  let x1 := set_csize (ChunkSize x) (set_everStarted true (set_start true x)) in
  if csize x1 =? 0 then set_csize 100000000 x1 else x1.

(* a buffer as getBuffer returns it *)
Definition fresh_buf (b : writeBuffer) : Prop :=
  buf_bytes b = [] /\ buf_Len b = 0.

(* the delay slept before the k-th retry of a chunk (k = 0 for the first) *)
Definition retry_delay (k : nat) : Z := Nat.iter k next_sleep sleep_first.

(* the events of the loop at the label redo of the single-shot upload,
   started with the endpoint ue: attempts, each after the first on an
   endpoint obtained just before it *)
Inductive retry_events (size : Z) (ctype sha1 : string) : nat -> list event -> Prop :=
| retry_last ue :
    retry_events size ctype sha1 ue [EvUploadFile ue size ctype sha1]
| retry_again ue u evs :
    retry_events size ctype sha1 u evs ->
    retry_events size ctype sha1 ue
      (EvUploadFile ue size ctype sha1 :: EvGetUploadURL u :: evs).

Definition io_reader_Read (r : io_reader) (k : nat)
  : option (list byte * option error * io_reader) :=
  match r with
  | BufReader b =>
      let '(bs, e, b') := bytesReader_Read b k in Some (bs, e, BufReader b')
  | SrcReader h =>
      match hashReader_Read h k with
      | Some (bs, e, h') => Some (bs, e, SrcReader h')
      | None => None
      end
  end.

Definition io_reader_Seek (r : io_reader) (offset whence : Z)
  : option (Z * option error * io_reader) :=
  match r with
  | BufReader b =>
      let '(n, e, b') := bytesReader_Seek b offset whence in Some (n, e, BufReader b')
  | SrcReader h =>
      match hashReader_Seek h offset whence with
      | Some (n, e, h') => Some (n, e, SrcReader h')
      | None => None
      end
  end.

#[global] Instance io_reader_ReadSeeker : ReadSeeker io_reader := {
  Read := io_reader_Read;
  Seek := io_reader_Seek
}.

(* what a trace shows: the delays slept, the uploadPart calls (chunk id and
   endpoint) and the uploadFile calls (endpoint), in order *)
Fixpoint sleeps (tr : list event) : list Z :=
  match tr with
  | [] => []
  | EvSleep _ d :: tr' => d :: sleeps tr'
  | _ :: tr' => sleeps tr'
  end.

Fixpoint part_uploads (tr : list event) : list (Z * nat) :=
  match tr with
  | [] => []
  | EvUploadPart _ fc id _ _ :: tr' => (id, fc) :: part_uploads tr'
  | _ :: tr' => part_uploads tr'
  end.

Fixpoint file_uploads (tr : list event) : list nat :=
  match tr with
  | [] => []
  | EvUploadFile ue _ _ _ :: tr' => ue :: file_uploads tr'
  | _ :: tr' => file_uploads tr'
  end.

Definition finishes (tr : list event) : nat :=
  length (List.filter (fun e => match e with EvFinishLargeFile => true | _ => false end) tr).

(* events that neither send a chunk, nor come from handling one, nor are an
   uploadFile call *)
Definition neutral (e : event) : bool :=
  match e with
  | EvSend _ | EvSkip _ _ | EvUploadPart _ _ _ _ _ | EvUploadFile _ _ _ _ => false
  | _ => true
  end.

(* events other than an uploadFile call *)
Definition not_upload (e : event) : bool :=
  match e with
  | EvUploadFile _ _ _ _ => false
  | _ => true
  end.

(* a stretch of the writing goroutine's own work, without a point of
   synchronisation: the latch, the context, the goroutines and the schedule
   are as before, and the events added are neutral *)
Definition quiet (s s' : World) : Prop :=
  err s' = err s /\ ctx s' = ctx s /\ pool s' = pool s /\ sched s' = sched s
  /\ (tick s <= tick s')%nat
  /\ exists evs, trace s' = trace s ++ evs /\ forallb neutral evs = true.

(* what getLargeFile may change in the writer's fields *)
Definition promoted (x x' : Writer) : Prop :=
  x' = x \/ x' = set_Resume false x \/ exists sn, x' = set_seen sn x.

(* the fields that stay as init left them *)
Definition same_setup (x x' : Writer) : Prop :=
  ChunkSize x' = ChunkSize x /\ UseFileBuffer x' = UseFileBuffer x
  /\ csize x' = csize x /\ start x' = start x /\ everStarted x' = everStarted x
  /\ done x' = done x /\ o_f x' = o_f x.

(* events that the upload goroutines log *)
Definition by_thread (e : event) : bool :=
  match e with
  | EvGetUploadPartURL _ _ | EvSkip _ _ | EvUploadPart _ _ _ _ _ | EvSleep _ _
  | EvBufClose _ => true
  | _ => false
  end.

(* events of the large-file path *)
Definition is_large (e : event) : bool :=
  match e with
  | EvStartLargeFile _ | EvListObjects | EvListParts _ | EvCompileParts _
  | EvSend _ | EvGetUploadPartURL _ _ | EvSkip _ _ | EvUploadPart _ _ _ _ _
  | EvSleep _ _ | EvCloseReady | EvFinishLargeFile => true
  | _ => false
  end.

Definition no_large (tr : list event) : Prop :=
  forallb (fun e => negb (is_large e)) tr = true.

(* the trace grows by events of one kind *)
Definition grows_by (f : event -> bool) (s s' : World) : Prop :=
  exists evs, trace s' = trace s ++ evs /\ forallb f evs = true.

(* the chunks sent so far carry the ids 1, 2, ... in order, and each is a
   full chunk of cs bytes *)
Definition good_chunks (cs : Z) (snt : list chunk) : Prop :=
  map chunk_id snt = ids_upto (length snt)
  /\ Forall (fun c => buf_Len (chunk_buf c) = cs /\ buf_wf (chunk_buf c)) snt.

(* the bytes accepted so far: those of the chunks sent, then those in the
   active buffer *)
Definition stream (s : World) : list byte :=
  chunk_data (trace s)
  ++ match w (wr s) with
     | Some b => buf_bytes b
     | None => []
     end.

(* a writer that has not been written to *)
Definition unstarted (cs : Z) (s : World) : Prop :=
  start (wr s) = false /\ everStarted (wr s) = false /\ done (wr s) = false
  /\ w (wr s) = None /\ cidx (wr s) = 0 /\ once (wr s) = false
  /\ sent (trace s) = [] /\ pool s = []
  /\ threshold (ChunkSize (wr s)) = cs
  /\ file (wr s) = None /\ no_large (trace s).

(* a writer between two calls of Write, all of which returned a nil error:
   the active buffer is below the threshold (a threshold that is not
   positive lets no Write return), and cidx chunks of cs bytes have been
   sent *)
Definition writing (cs : Z) (s : World) : Prop :=
  start (wr s) = true /\ everStarted (wr s) = true /\ done (wr s) = false
  /\ csize (wr s) = cs /\ cs <> 0
  /\ cidx (wr s) = zlen (sent (trace s))
  /\ good_chunks cs (sent (trace s))
  /\ (exists b, w (wr s) = Some b /\ buf_wf b /\ (0 < cs -> buf_Len b < cs))
  /\ (cidx (wr s) = 0 ->
      once (wr s) = false /\ pool s = [] /\ file (wr s) = None /\ no_large (trace s)).


(* the first non-nil error of a sequence *)
Fixpoint first_error (es : list (option error)) : option error :=
  match es with
  | [] => None
  | Some e :: _ => Some e
  | None :: es' => first_error es'
  end.

(* --------------------------------------------------------------------- *)
(* Sequences of calls on the buffers                                       *)
(* --------------------------------------------------------------------- *)

(* mb.Write(p) for each p of ps in turn *)
Definition memoryBuffer_Writes (mb : memoryBuffer) (ps : list (list byte)) : memoryBuffer :=
  fold_left (fun m p => snd (memoryBuffer_Write m p)) ps mb.

(* fb.Write(p) for each (p, fail) in turn, fail being what os.File.Write
   reports when it fails *)
Definition fileBuffer_Writes (fb : fileBuffer)
    (ws : list (list byte * option (nat * error))) : fileBuffer :=
  fold_left (fun f w => snd (fileBuffer_Write (snd w) f (fst w))) ws fb.

(* the bytes of a write that reached the file, and those that reached the
   hash *)
Definition reached_file (w : list byte * option (nat * error)) : list byte :=
  match snd w with
  | None => fst w
  | Some (n, _) => firstn n (fst w)
  end.

Definition reached_hash (w : list byte * option (nat * error)) : list byte :=
  match snd w with
  | None => fst w
  | Some _ => []
  end.

(* the 40 characters appended to a stream: fmt.Sprintf("%x", h.Sum(nil)) *)
Definition hex_suffix (msg : list byte) : list byte :=
  list_byte_of_string (sha1_hex msg).

(* the reader simpleWriteFromReader hands to uploadFile for a source that
   holds data *)
Definition source_reader (data : list byte) : meteredReader io_reader :=
  mkMeteredReader 0 (zlen data + 40)
    (SrcReader (mkHashReader sha1_New (mkBytesReader data 0) false None)).

(* --------------------------------------------------------------------- *)
(* The steps an upload is made of                                          *)
(* --------------------------------------------------------------------- *)

(* events that the writing goroutine logs outside of a send *)
Definition writer_event (e : event) : bool :=
  match e with
  | EvSend _ | EvSkip _ _ | EvUploadPart _ _ _ _ _ | EvGetUploadPartURL _ _
  | EvSleep _ _ => false
  | _ => true
  end.

(* an assignment to the writer's fields that leaves alone what sendChunk
   and Close set *)
Definition plain_update (x x' : Writer) : Prop :=
  once x' = once x /\ ready x' = ready x /\ file x' = file x /\ seen x' = seen x
  /\ ConcurrentUploads x' = ConcurrentUploads x /\ Resume x' = Resume x
  /\ name x' = name x /\ contentType x' = contentType x
  /\ cidx x' = cidx x /\ done x' = done x.

(* One step of an upload: a step of an upload goroutine or of the caller's
   context, or one of the state changes the writing goroutine makes.  The
   steps that only Close makes are there when [closing] is set. *)
Inductive atom (be : Backend) (hz : nat) (closing : bool) : World -> World -> Prop :=
| at_thread i s : atom be hz closing s (thread_step be i s)
| at_cancel s : atom be hz closing s (cancel s)
| at_setErr e s : atom be hz closing s (setErr e s)
| at_sched l s : atom be hz closing s (set_sched l s)
| at_tick n s : atom be hz closing s (set_tick n s)
| at_log e s : writer_event e = true -> atom be hz closing s (log e s)
| at_register r s : atom be hz closing s (registerChunk 1 r s)
| at_complete s : atom be hz closing s (completeChunk 1 s)
| at_set_read id rd s : atom be hz closing s (set_read id rd s)
| at_smap_new s : atom be hz closing s (set_smap ∅ s)
| at_wr x s : plain_update (wr s) x -> atom be hz closing s (set_wr x s)
| at_promote e s s' :
    once (wr s) = false -> promote be hz s = Ret e s' -> atom be hz closing s s'
| at_send i fc b s :
    pool s !! i = Some (TIdle fc) -> ready (wr s) = Some false ->
    w (wr s) = Some b ->
    atom be hz closing s
      (update_wr (fun x => set_cidx (cidx x + 1) x)
         (set_thread i (TRecv fc (mkChunk (cidx (wr s) + 1) b))
            (log (EvSend (mkChunk (cidx (wr s) + 1) b)) s)))
| at_done s :
    closing = true -> atom be hz closing s (update_wr (set_done true) s)
| at_close_ready s :
    closing = true -> ready (wr s) = Some false ->
    atom be hz closing s (update_wr (set_ready (Some true)) s).

(* what holds of a state and is kept by every step holds for good *)
Definition invariant (be : Backend) (hz : nat) (closing : bool) (I : World -> Prop) : Prop :=
  forall s s', I s -> atom be hz closing s s' -> I s'.

(* --------------------------------------------------------------------- *)
(* What every upload keeps                                                 *)
(* --------------------------------------------------------------------- *)

(* events that settle a part: a skip or an uploadPart call *)
Definition part_event (e : event) : bool :=
  match e with
  | EvSkip _ _ | EvUploadPart _ _ _ _ _ => true
  | _ => false
  end.

(* the chunk a goroutine holds *)
Definition handling (t : tstate) : option chunk :=
  match t with
  | TRecv _ c | TRedo _ c _ => Some c
  | _ => None
  end.

(* how a step of a goroutine can change what it holds *)
Definition moved (s : World) (t t' : tstate) : Prop :=
  match t' with
  | TRecv _ _ => False
  | TRedo _ c _ =>
      (exists fc sl, t = TRedo fc c sl)
      \/ (exists fc, t = TRecv fc c /\ seen (wr s) !! chunk_id c = None)
  | _ => True
  end.

(* steps that touch neither the goroutines nor what sendChunk sets *)
Definition mild (s s' : World) : Prop :=
  pool s' = pool s /\ once (wr s') = once (wr s) /\ seen (wr s') = seen (wr s)
  /\ cidx (wr s') = cidx (wr s)
  /\ (exists evs, trace s' = trace s ++ evs /\ forallb writer_event evs = true)
  /\ (err s <> None -> err s' <> None).

Definition engine_inv (s : World) : Prop :=
  (once (wr s) = false ->
   pool s = [] /\ sent (trace s) = []
   /\ forall e, In e (trace s) -> part_event e = false)
  /\ cidx (wr s) = zlen (sent (trace s))
  /\ map chunk_id (sent (trace s)) = ids_upto (length (sent (trace s)))
  /\ (forall i t c, pool s !! i = Some t -> handling t = Some c ->
      In c (sent (trace s)))
  /\ (forall i fc c sl, pool s !! i = Some (TRedo fc c sl) ->
      seen (wr s) !! chunk_id c = None)
  /\ (forall i fc id sha size, In (EvUploadPart i fc id sha size) (trace s) ->
      seen (wr s) !! id = None
      /\ exists c, In c (sent (trace s)) /\ chunk_id c = id
                   /\ sha = buf_Hash (chunk_buf c) /\ size = buf_Len (chunk_buf c))
  /\ (forall i id, In (EvSkip i id) (trace s) ->
      exists c, In c (sent (trace s)) /\ chunk_id c = id
                /\ seen (wr s) !! id = Some (buf_Hash (chunk_buf c)))
  /\ (forall c sha, In c (sent (trace s)) ->
      seen (wr s) !! chunk_id c = Some sha -> sha <> buf_Hash (chunk_buf c) ->
      err s <> None \/ exists i fc, pool s !! i = Some (TRecv fc c)).

(* every id in the progress map is the id of a chunk sent, or the 1 that
   the single-shot upload registers *)
Definition registered_bound (s : World) : Prop :=
  forall k, is_Some (smap s !! k) -> 1 <= k <= Z.max 1 (cidx (wr s)).

(* chunk k has the slot Progress[k-1], and the slot holds exactly 1 *)
Definition reported_done (s : World) (k : Z) : Prop :=
  exists i : nat, k = Z.of_nat (S i) /\ status s !! i = Some F_one.

(* --------------------------------------------------------------------- *)
(* What becomes of the chunks sent                                         *)
(* --------------------------------------------------------------------- *)

(* a goroutine has skipped the chunk *)
Definition skipped (tr : list event) (c : chunk) : Prop :=
  exists i, In (EvSkip i (chunk_id c)) tr.

(* a goroutine has passed the chunk to uploadPart, with its hash and its
   length *)
Definition uploaded (tr : list event) (c : chunk) : Prop :=
  exists i fc,
    In (EvUploadPart i fc (chunk_id c) (buf_Hash (chunk_buf c)) (buf_Len (chunk_buf c))) tr.

(* every chunk sent has been skipped or passed to uploadPart, or a
   goroutine holds it, or an error is latched *)
Definition settled_inv (s : World) : Prop :=
  forall c, In c (sent (trace s)) ->
    skipped (trace s) c \/ uploaded (trace s) c
    \/ (exists i t, pool s !! i = Some t /\ handling t = Some c)
    \/ err s <> None.

(* --------------------------------------------------------------------- *)
(* Backends and inputs used in the examples                                *)
(* --------------------------------------------------------------------- *)

(* every call succeeds; uploadPart takes the whole chunk *)
Definition be_ok : Backend :=
  mkBackend (fun _ => false) (fun _ => None) (fun _ => (None, 0)) (fun _ => None)
    (fun _ => Ok None) (fun _ _ => Ok ([], 0)) (fun _ => None)
    (fun _ _ len => mkUploadPartResult len None len) (fun _ => None)
    (fun _ => None) (fun _ _ => None) (fun _ => None) (fun _ => None).

(* as be_ok, but ioutil.TempFile fails *)
Definition be_no_tempfile : Backend :=
  mkBackend (fun _ => false) (fun _ => None) (fun _ => (None, 0)) (fun _ => None)
    (fun _ => Ok None) (fun _ _ => Ok ([], 0)) (fun _ => None)
    (fun _ _ len => mkUploadPartResult len None len) (fun _ => None)
    (fun _ => Some (ErrIO 1)) (fun _ _ => None) (fun _ => None) (fun _ => None).

Definition some_bytes (n : nat) : list byte := repeat "a"%byte n.

(* uploadPart takes one byte less than the chunk and reports no error;
   no error is classified retryable *)
Definition be_short : Backend :=
  mkBackend (fun _ => false) (fun _ => None) (fun _ => (None, 0)) (fun _ => None)
    (fun _ => Ok None) (fun _ _ => Ok ([], 0)) (fun _ => None)
    (fun _ _ len => mkUploadPartResult (len - 1) None (len - 1)) (fun _ => None)
    (fun _ => None) (fun _ _ => None) (fun _ => None) (fun _ => None).

(* backend errors are retryable; uploadFile fails at tick 3, and uploadPart
   fails before tick 8 *)
Definition be_flaky : Backend :=
  mkBackend
    (fun e => match e with Some (ErrBackend _) => true | _ => false end)
    (fun _ => None)
    (fun t => (if (t =? 3)%nat then Some (ErrBackend 503) else None, 0))
    (fun _ => None)
    (fun _ => Ok None) (fun _ _ => Ok ([], 0)) (fun _ => None)
    (fun t _ len =>
       if (t <? 8)%nat then mkUploadPartResult 0 (Some (ErrBackend 503)) 0
       else mkUploadPartResult len None len)
    (fun _ => None)
    (fun _ => None) (fun _ _ => None) (fun _ => None) (fun _ => None).

(* uploadPart fails with an error that is not retryable *)
Definition be_broken_part : Backend :=
  mkBackend (fun _ => false) (fun _ => None) (fun _ => (None, 0)) (fun _ => None)
    (fun _ => Ok None) (fun _ _ => Ok ([], 0)) (fun _ => None)
    (fun _ _ _ => mkUploadPartResult 0 (Some (ErrBackend 500)) 0) (fun _ => None)
    (fun _ => None) (fun _ _ => None) (fun _ => None) (fun _ => None).

(* a write to the temporary file stops after one byte *)
Definition be_disk_full : Backend :=
  mkBackend (fun _ => false) (fun _ => None) (fun _ => (None, 0)) (fun _ => None)
    (fun _ => Ok None) (fun _ _ => Ok ([], 0)) (fun _ => None)
    (fun _ _ len => mkUploadPartResult len None len) (fun _ => None)
    (fun _ => None) (fun _ _ => Some (1%nat, ErrIO 28)) (fun _ => None) (fun _ => None).

(* an unfinished large file of the same name is on the server, with part 1
   as the three-byte chunk used in the examples *)
Definition be_resume : Backend :=
  mkBackend (fun _ => false) (fun _ => None) (fun _ => (None, 0)) (fun _ => None)
    (fun _ => Ok (Some "obj"%string))
    (fun _ _ => Ok ([mkPart 1 (sha1_hex (some_bytes 3)) 3], 0))
    (fun _ => None)
    (fun _ _ len => mkUploadPartResult len None len) (fun _ => None)
    (fun _ => None) (fun _ _ => None) (fun _ => None) (fun _ => None).

(* the same, but the hash recorded for part 1 is another one *)
Definition be_tampered : Backend :=
  mkBackend (fun _ => false) (fun _ => None) (fun _ => (None, 0)) (fun _ => None)
    (fun _ => Ok (Some "obj"%string))
    (fun _ _ => Ok ([mkPart 1 "0000000000000000000000000000000000000000" 3], 0))
    (fun _ => None)
    (fun _ _ len => mkUploadPartResult len None len) (fun _ => None)
    (fun _ => None) (fun _ _ => None) (fun _ => None) (fun _ => None).

(* two goroutines: the first receives chunk 1; the second receives chunk 2
   and uploads it before the first has taken another step *)
Definition sched_second_first : list sync :=
  [mkSync [] None; mkSync [Step 0%nat; Step 1%nat] (Some 0%nat); mkSync [] None;
   mkSync [] (Some 1%nat); mkSync [Step 1%nat; Step 1%nat] None].

(* one goroutine, which handles each chunk as soon as it has received it *)
Definition sched_in_turn : list sync :=
  [mkSync [] None; mkSync [Step 0%nat] (Some 0%nat); mkSync [] None;
   mkSync [Step 0%nat; Step 0%nat] (Some 0%nat); mkSync [Step 0%nat; Step 0%nat] None].

(* an unfinished large file whose part 1 is the three-byte chunk of the
   examples and whose part 2 has another hash *)
Definition be_tampered_second : Backend :=
  mkBackend (fun _ => false) (fun _ => None) (fun _ => (None, 0)) (fun _ => None)
    (fun _ => Ok (Some "obj"%string))
    (fun _ _ => Ok ([mkPart 1 (sha1_hex (some_bytes 3)) 3;
                     mkPart 2 "0000000000000000000000000000000000000000" 3], 0))
    (fun _ => None)
    (fun _ _ len => mkUploadPartResult len None len) (fun _ => None)
    (fun _ => None) (fun _ _ => None) (fun _ => None) (fun _ => None).

(* ===================================================================== *)
(* Properties of the pass-through buffer                                   *)
(* ===================================================================== *)

Lemma hex_length bs : String.length (hex bs) = (2 * length bs)%nat.
Proof. induction bs as [|b bs IH]; simpl; [reflexivity | rewrite IH; lia]. Qed.

Lemma sha1_sum_length msg : length (SHA1.sum msg) = 20%nat.
Proof.
unfold SHA1.sum.
destruct (fold_left _ _ _) as [[[[h0 h1] h2] h3] h4]. reflexivity.
Qed.

Lemma sha1_hex_length msg : String.length (sha1_hex msg) = 40%nat.
Proof. unfold sha1_hex. rewrite hex_length, sha1_sum_length. reflexivity. Qed.

Lemma length_list_byte_of_string s :
length (list_byte_of_string s) = String.length s.
Proof.
unfold list_byte_of_string. rewrite length_map.
induction s as [|a s IH]; simpl; [reflexivity | now rewrite IH].
Qed.

Lemma hex_digit_lower n : 0 <= n < 16 -> is_lower_hex (hex_digit n) = true.
Proof.
  intros Hn. rewrite <- (Z2Nat.id n) by lia.
  assert (Hm : (Z.to_nat n < 16)%nat) by lia.
  revert Hm. generalize (Z.to_nat n). intros m Hm.
  do 16 (destruct m as [|m]; [reflexivity |]). lia.
Qed.

Lemma b2z_range b : 0 <= b2z b < 256.
Proof. unfold b2z. pose proof (Byte.to_N_bounded b). lia. Qed.

Lemma hex_lower bs : string_forall is_lower_hex (hex bs) = true.
Proof.
induction bs as [|b bs IH]; simpl; [reflexivity |].
pose proof (b2z_range b) as Hb.
rewrite !hex_digit_lower, IH; [reflexivity | |].
- apply Z.mod_pos_bound. lia.
- split; [apply Z.div_pos; lia | apply Z.div_lt_upper_bound; lia].
Qed.

Lemma firstn_skipn_length {A} (k : nat) (l : list A) :
firstn k l ++ skipn (length (firstn k l)) l = l.
Proof.
rewrite length_firstn. destruct (Nat.le_gt_cases k (length l)).
- rewrite Nat.min_l by lia. apply firstn_skipn.
- rewrite Nat.min_r by lia. rewrite firstn_all2 by lia.
    rewrite skipn_all. apply app_nil_r.
Qed.

Section NonBuffer.

Variable src : list byte.
Variables base size : nat.
Hypothesis in_range : (base + size <= length src)%nat.

Lemma section_bytes_length : length (section_bytes src base size) = size.
Proof. unfold section_bytes. rewrite length_firstn, length_skipn. lia. Qed.

Lemma sect_read (j k : nat) :
  (j < size)%nat -> (0 < k)%nat ->
  let n := Nat.min k (size - j) in
  SectionReader_Read (sect src base size j) k
  = (firstn n (skipn j (section_bytes src base size)), None, sect src base size (j + n)).
Proof.
  intros Hj Hk n. unfold SectionReader_Read, sect; simpl.
  destruct (Z.leb_spec (Z.of_nat base + Z.of_nat size) (Z.of_nat base + Z.of_nat j)); [lia |].
  set (k' := if _ <? Z.of_nat k then _ else k).
  assert (Hk' : k' = n).
  { subst k' n. destruct (Z.ltb_spec (Z.of_nat base + Z.of_nat size
                                        - (Z.of_nat base + Z.of_nat j)) (Z.of_nat k)); lia. }
  rewrite Hk'. unfold ReadAt, zlen.
  destruct (Z.ltb_spec (Z.of_nat base + Z.of_nat j) 0); [lia |].
  destruct (Z.leb_spec (Z.of_nat (length src)) (Z.of_nat base + Z.of_nat j)); [lia |].
  unfold copy_from, slice_from.
  replace (Z.to_nat (Z.of_nat base + Z.of_nat j)) with (base + j)%nat by lia.
  assert (Hb : firstn n (skipn (base + j) src) = firstn n (skipn j (section_bytes src base size))).
  { unfold section_bytes. rewrite skipn_firstn_comm, firstn_firstn, skipn_skipn.
    f_equal; [lia | f_equal; lia]. }
  assert (Hl : length (firstn n (skipn (base + j) src)) = n).
  { rewrite length_firstn, length_skipn. lia. }
  rewrite Hl. destruct (Nat.ltb_spec n n); [lia |].
  rewrite Hb. do 2 f_equal. lia.
Qed.

Lemma sect_read_end (k : nat) :
  SectionReader_Read (sect src base size size) k = ([], Some EOF, sect src base size size).
Proof.
  unfold SectionReader_Read, sect; simpl.
  destruct (Z.leb_spec (Z.of_nat base + Z.of_nat size) (Z.of_nat base + Z.of_nat size));
    [reflexivity | lia].
Qed.

(* once the source is exhausted, the hexadecimal suffix is streamed *)
Lemma drain_suffix (k : nat) (r : SectionReader) (h : Hash_t) (s : list byte) :
  (0 < k)%nat ->
  forall m n fuel,
    (n <= length s)%nat -> (length s - n <= m)%nat -> (m < fuel)%nat ->
    fst <$> read_all fuel k
              (mkNonBuffer r (Z.of_nat size) h true (Some (mkBytesReader s (Z.of_nat n))))
    = Some (skipn n s, AtEOF).
Proof.
  intros Hk. induction m as [|m IH]; intros n fuel Hn Hm Hf.
  - destruct fuel as [|fuel]; [lia |]. simpl.
    unfold nonBuffer_Read, bytesReader_Read; simpl. unfold zlen.
    destruct (Z.leb_spec (Z.of_nat (length s)) (Z.of_nat n)); [| lia].
    simpl. rewrite skipn_all2 by lia. reflexivity.
  - destruct fuel as [|fuel]; [lia |]. simpl.
    unfold nonBuffer_Read, bytesReader_Read; simpl. unfold zlen.
    destruct (Z.leb_spec (Z.of_nat (length s)) (Z.of_nat n)).
    + simpl. rewrite skipn_all2 by lia. reflexivity.
    + unfold copy_from, slice_from. rewrite Nat2Z.id.
      set (b := firstn k (skipn n s)).
      assert (Hb : length b = Nat.min k (length s - n)).
      { subst b. rewrite length_firstn, length_skipn. reflexivity. }
      replace (Z.of_nat n + Z.of_nat (length b)) with (Z.of_nat (n + length b)) by lia.
      specialize (IH (n + length b)%nat fuel).
      destruct (read_all fuel k _) as [[[bs st] r'']|]; simpl in *.
      * assert (Some (bs, st) = Some (skipn (n + length b) s, AtEOF)) as Heq
            by (apply IH; lia).
        inversion Heq; subst bs st. do 2 f_equal.
        rewrite Nat.add_comm, <- skipn_skipn. subst b.
        apply firstn_skipn_length.
      * assert (None = Some (skipn (n + length b) s, AtEOF)) as Heq by (apply IH; lia).
        discriminate.
Qed.

Lemma suffix_bytes_length : length (suffix_bytes src base size) = 40%nat.
Proof. unfold suffix_bytes. rewrite length_list_byte_of_string. apply sha1_hex_length. Qed.

(* while the source is being streamed, the hash has absorbed what was read *)
Lemma drain_section (k : nat) (buf : option bytesReader) :
  (0 < k)%nat ->
  forall m j fuel,
    (j <= size)%nat -> (size - j <= m)%nat -> (m + 42 <= fuel)%nat ->
    fst <$> read_all fuel k
              (mkNonBuffer (sect src base size j) (Z.of_nat size) (firstn j (section_bytes src base size)) false buf)
    = Some (skipn j (section_bytes src base size) ++ (suffix_bytes src base size), AtEOF).
Proof.
  intros Hk. induction m as [|m IH]; intros j fuel Hj Hm Hf.
  - assert (j = size) by lia. subst j.
    destruct fuel as [|fuel]; [lia |]. simpl.
    unfold nonBuffer_Read, TeeReader_Read; simpl. rewrite sect_read_end. simpl.
    destruct (decide (Some EOF = Some EOF)) as [_ |]; [| congruence].
    rewrite firstn_all2 by (rewrite section_bytes_length; lia).
    change (list_byte_of_string (hex (Hash_Sum (section_bytes src base size)))) with (suffix_bytes src base size).
    pose proof (drain_suffix k (sect src base size size) (section_bytes src base size) (suffix_bytes src base size)
                  Hk 40 0 fuel) as Hs.
    rewrite suffix_bytes_length in Hs. simpl in Hs.
    destruct (read_all fuel k _) as [[[bs st] r'']|]; simpl in *.
    + assert (Some (bs, st) = Some (suffix_bytes src base size, AtEOF)) as Heq by (apply Hs; lia).
      inversion Heq; subst. rewrite skipn_all2 by (rewrite section_bytes_length; lia).
      reflexivity.
    + assert (None = Some (suffix_bytes src base size, AtEOF)) as Heq by (apply Hs; lia). discriminate.
  - destruct (Nat.eq_dec j size) as [-> | Hne].
    { apply (IH size fuel); lia. }
    destruct fuel as [|fuel]; [lia |]. simpl.
    unfold nonBuffer_Read, TeeReader_Read; simpl.
    rewrite sect_read by lia. simpl.
    set (n := Nat.min k (size - j)).
    assert (Hn : (0 < n)%nat) by (subst n; lia).
    assert (Hl : length (firstn n (skipn j (section_bytes src base size))) = n).
    { rewrite length_firstn, length_skipn, section_bytes_length. lia. }
    rewrite Hl. destruct (Nat.ltb_spec 0 n); [| lia].
    destruct (decide (None = Some EOF)) as [|_]; [congruence |].
    unfold Hash_Write.
    assert (Hh : firstn j (section_bytes src base size) ++ firstn n (skipn j (section_bytes src base size))
                 = firstn (j + n) (section_bytes src base size)).
    { rewrite <- (firstn_skipn j (section_bytes src base size)) at 3.
      rewrite firstn_app, length_firstn, section_bytes_length.
      replace (Nat.min j size) with j by lia.
      rewrite firstn_firstn. replace (Nat.min (j + n) j) with j by lia.
      do 2 f_equal. lia. }
    rewrite Hh. specialize (IH (j + n)%nat fuel).
    destruct (read_all fuel k _) as [[[bs st] r'']|]; simpl in *.
    + assert (Some (bs, st) = Some (skipn (j + n) (section_bytes src base size) ++ (suffix_bytes src base size), AtEOF))
        as Heq by (apply IH; subst n; lia).
      inversion Heq; subst bs st. do 2 f_equal. rewrite app_assoc. f_equal.
      rewrite Nat.add_comm, <- skipn_skipn. apply firstn_skipn.
    + assert (None = Some (skipn (j + n) (section_bytes src base size) ++ (suffix_bytes src base size), AtEOF))
        as Heq by (apply IH; subst n; lia).
      discriminate.
Qed.

End NonBuffer.

Section NonBufferReach.

Variable src : list byte.
Variables base size : nat.
Hypothesis in_range : (base + size <= length src)%nat.

Lemma sect_read_shape (j k : nat) :
  (j <= size)%nat ->
  exists b err j',
    SectionReader_Read (sect src base size j) k = (b, err, sect src base size j')
    /\ (j' <= size)%nat.
Proof.
  intros Hj. unfold SectionReader_Read, sect; simpl.
  destruct (Z.leb_spec (Z.of_nat base + Z.of_nat size) (Z.of_nat base + Z.of_nat j)).
  - exists [], (Some EOF), j. split; [reflexivity | lia].
  - set (k' := if _ <? Z.of_nat k then _ else k).
    assert (Hk' : (k' <= size - j)%nat).
    { subst k'. destruct (Z.ltb_spec (Z.of_nat base + Z.of_nat size
                                        - (Z.of_nat base + Z.of_nat j)) (Z.of_nat k)); lia. }
    unfold ReadAt.
    destruct (Z.ltb_spec (Z.of_nat base + Z.of_nat j) 0); [lia |].
    destruct (Z.leb_spec (zlen src) (Z.of_nat base + Z.of_nat j)).
    + exists [], (Some EOF), j. split; [| lia]. unfold zlen. simpl.
      do 2 f_equal. lia.
    + set (b := copy_from k' src _).
      assert (Hb : (length b <= k')%nat).
      { subst b. unfold copy_from. rewrite length_firstn. lia. }
      exists b, (if (length b <? k')%nat then Some EOF else None), (j + length b)%nat.
      split; [| lia]. unfold zlen. do 2 f_equal. lia.
Qed.

Lemma nonBuffer_Read_shape nb k b err nb' :
  nb_shape src base size nb -> nonBuffer_Read nb k = Some (b, err, nb') -> nb_shape src base size nb'.
Proof.
  intros (j & h & e & buf & Hj & ->). unfold nonBuffer_Read; simpl.
  destruct e.
  - destruct buf as [buf|]; [| discriminate].
    destruct (bytesReader_Read buf k) as [[b0 e0] buf']. intros [= <- <- <-].
    exists j, h, true, (Some buf'). auto.
  - unfold TeeReader_Read; simpl.
    destruct (sect_read_shape j k Hj) as (b0 & e0 & j' & -> & Hj').
    destruct (0 <? length b0)%nat; destruct (decide (e0 = Some EOF));
      intros [= <- <- <-]; do 4 eexists; eauto.
Qed.

Lemma read_all_shape fuel k : forall nb bs st nb',
  nb_shape src base size nb -> read_all fuel k nb = Some (bs, st, nb') -> nb_shape src base size nb'.
Proof.
  induction fuel as [|fuel IH]; intros nb bs st nb' Hs; simpl.
  - intros [= <- <- <-]. exact Hs.
  - destruct (nonBuffer_Read nb k) as [[[b err] nb1]|] eqn:Hr; [| discriminate].
    pose proof (nonBuffer_Read_shape _ _ _ _ _ Hs Hr) as Hs1.
    destruct err as [e|].
    + destruct e; intros [= <- <- <-]; exact Hs1.
    + destruct (read_all fuel k nb1) as [[[bs2 st2] nb2]|] eqn:Hr2; [| discriminate].
      intros [= <- <- <-]. eapply IH; eauto.
Qed.

(* Seek(0, io.SeekStart) puts any such buffer back at the start of the section *)
Lemma nonBuffer_Seek_start nb :
  nb_shape src base size nb ->
  exists b,
    nonBuffer_Seek nb 0 SeekStart
    = Some (0, None, mkNonBuffer (sect src base size 0) (Z.of_nat size) [] false b).
Proof.
  intros (j & h & e & buf & Hj & ->). exists buf.
  unfold nonBuffer_Seek, SectionReader_Seek, sect; simpl.
  match goal with
  | |- context [?a <? ?b] => destruct (Z.ltb_spec a b); [lia |]
  end.
  unfold Hash_Reset. rewrite Z.sub_diag, Z.add_0_r. reflexivity.
Qed.

End NonBufferReach.

Lemma newNonBuffer_sect (src : list byte) (offset size : Z) :
  0 <= offset -> 0 <= size -> offset + size <= max_int64 ->
  newNonBuffer src offset size
  = mkNonBuffer (sect src (Z.to_nat offset) (Z.to_nat size) 0)
                  (Z.of_nat (Z.to_nat size)) [] false None.
Proof.
  intros Ho Hs Hm. unfold newNonBuffer, NewSectionReader, sect, sha1_New.
  destruct (Z.leb_spec offset (max_int64 - size)); [| lia].
  rewrite !Z2Nat.id by lia. do 2 f_equal; lia.
Qed.

(** C9: a pass-through buffer over the [size] bytes at [offset] of a source
    rejects writes with an error, reports the hash sentinel
    "hex_digits_at_end" and the length size+40; read to completion it yields
    the source bytes followed by the 40 lower-case hexadecimal digits of
    their SHA-1; and after any amount of reading, Seek(0, io.SeekStart)
    clears the hash state and the EOF flag, so that reading to completion
    again yields the same stream. *)
Theorem nonBuffer_pass_through
      (src : list byte) (offset size : Z) (k fuel : nat) :
  0 <= offset -> 0 <= size -> offset + size <= zlen src -> zlen src <= max_int64 ->
  (0 < k)%nat -> (Z.to_nat size + 42 <= fuel)%nat ->
  let nb := newNonBuffer src offset size in
  let payload := slice_to size (slice_from offset src) in
  let stream := payload ++ list_byte_of_string (sha1_hex payload) in
  (forall p, nonBuffer_Write nb p = (0, Some ErrWritesNotSupported))
  /\ nonBuffer_Hash nb = "hex_digits_at_end"%string
  /\ nonBuffer_Len nb = size + 40
  /\ zlen payload = size
  /\ String.length (sha1_hex payload) = 40%nat
  /\ string_forall is_lower_hex (sha1_hex payload) = true
  /\ fst <$> read_all fuel k nb = Some (stream, AtEOF)
  /\ forall fuel1 k1 bs st nb1,
         read_all fuel1 k1 nb = Some (bs, st, nb1) ->
         exists nb2,
           Seek nb1 0 SeekStart = Some (0, None, nb2)
           /\ nb_hsh nb2 = sha1_New /\ nb_isEOF nb2 = false
           /\ fst <$> read_all fuel k nb2 = Some (stream, AtEOF).
Proof.
  intros Ho Hs Hlen Hmax Hk Hfuel nb payload stream.
  assert (Hr : (Z.to_nat offset + Z.to_nat size <= length src)%nat)
      by (unfold zlen in Hlen; lia).
  assert (Hnb : nb = mkNonBuffer (sect src (Z.to_nat offset) (Z.to_nat size) 0)
                         (Z.of_nat (Z.to_nat size)) [] false None)
      by (apply newNonBuffer_sect; lia).
  assert (Hp : payload = section_bytes src (Z.to_nat offset) (Z.to_nat size)) by reflexivity.
  assert (Hdrain : forall b,
               fst <$> read_all fuel k
                         (mkNonBuffer (sect src (Z.to_nat offset) (Z.to_nat size) 0)
                            (Z.of_nat (Z.to_nat size)) [] false b)
               = Some (stream, AtEOF)).
  { intros b.
      pose proof (drain_section src (Z.to_nat offset) (Z.to_nat size) Hr k b Hk
                    (Z.to_nat size) 0%nat fuel) as Hd.
      simpl in Hd. unfold stream. rewrite Hp. apply Hd; lia. }
  split; [intros p; reflexivity |].
  split; [reflexivity |].
  split; [reflexivity |].
  split; [rewrite Hp; unfold zlen; rewrite section_bytes_length by exact Hr; lia |].
  split; [apply sha1_hex_length |].
  split; [apply hex_lower |].
  split; [rewrite Hnb; apply Hdrain |].
  intros fuel1 k1 bs st nb1 Hread.
  assert (Hshape : nb_shape src (Z.to_nat offset) (Z.to_nat size) nb1).
  { eapply read_all_shape; [exact Hr | | exact Hread].
      rewrite Hnb. exists 0%nat, [], false, None. split; [lia | reflexivity]. }
  destruct (nonBuffer_Seek_start src (Z.to_nat offset) (Z.to_nat size) Hr nb1 Hshape)
      as (b & Hseek).
  eexists. split; [exact Hseek |].
  split; [reflexivity |]. split; [reflexivity |]. apply Hdrain.
Qed.

Lemma nonBuffer_pass_through_witness :
  let src := list_byte_of_string "xxabcyy" in
  let nb := newNonBuffer src 2 3 in
  let stream := list_byte_of_string "abca9993e364706816aba3e25717850c26c9cd0d89d" in
  nonBuffer_Len nb = 43
  /\ fst <$> read_all 50 4 nb = Some (stream, AtEOF).
Proof.
  pose proof (nonBuffer_pass_through (list_byte_of_string "xxabcyy") 2 3 4 50) as H.
  destruct H as (_ & _ & Hlen & _ & _ & _ & Hread & _);
      [lia | lia | vm_compute; discriminate | vm_compute; discriminate | lia
       | vm_compute; lia | ].
  split; [exact Hlen | exact Hread].
Defined.

(* ===================================================================== *)
(* The shared fields: error latch, context, progress map                   *)
(* ===================================================================== *)

#[global] Arguments setErr : simpl never.
#[global] Arguments cancel : simpl never.

Lemma cancel_wr s : wr (cancel s) = wr s.
Proof. unfold cancel. destruct (ctx s); reflexivity. Qed.

Lemma cancel_err s : err (cancel s) = err s.
Proof. unfold cancel. destruct (ctx s); reflexivity. Qed.

Lemma cancel_smap s : smap (cancel s) = smap s.
Proof. unfold cancel. destruct (ctx s); reflexivity. Qed.

Lemma cancel_pool s : pool (cancel s) = pool s.
Proof. unfold cancel. destruct (ctx s); reflexivity. Qed.

Lemma cancel_trace s : trace (cancel s) = trace s.
Proof. unfold cancel. destruct (ctx s); reflexivity. Qed.

Lemma cancel_tick s : tick (cancel s) = tick s.
Proof. unfold cancel. destruct (ctx s); reflexivity. Qed.

Lemma cancel_sched s : sched (cancel s) = sched s.
Proof. unfold cancel. destruct (ctx s); reflexivity. Qed.

Lemma cancel_ctx s : ctx (cancel s) <> None.
Proof. unfold cancel. destruct (ctx s) eqn:E; simpl; congruence. Qed.

Lemma cancel_ctx_done s e : ctx s = Some e -> ctx (cancel s) = Some e.
Proof. intros H. unfold cancel. rewrite H. exact H. Qed.

Lemma setErr_wr e s : wr (setErr e s) = wr s.
Proof. unfold setErr. destruct e, (err s); try reflexivity. now rewrite cancel_wr. Qed.

Lemma setErr_smap e s : smap (setErr e s) = smap s.
Proof. unfold setErr. destruct e, (err s); try reflexivity. now rewrite cancel_smap. Qed.

Lemma setErr_pool e s : pool (setErr e s) = pool s.
Proof. unfold setErr. destruct e, (err s); try reflexivity. now rewrite cancel_pool. Qed.

Lemma setErr_trace e s : trace (setErr e s) = trace s.
Proof. unfold setErr. destruct e, (err s); try reflexivity. now rewrite cancel_trace. Qed.

Lemma setErr_tick e s : tick (setErr e s) = tick s.
Proof. unfold setErr. destruct e, (err s); try reflexivity. now rewrite cancel_tick. Qed.

Lemma setErr_sched e s : sched (setErr e s) = sched s.
Proof. unfold setErr. destruct e, (err s); try reflexivity. now rewrite cancel_sched. Qed.

(* the latch is written once: a later setErr changes nothing *)
Lemma setErr_latched e e' s : err s = Some e -> setErr e' s = s.
Proof. intros H. unfold setErr. rewrite H. destruct e'; reflexivity. Qed.

Lemma setErr_nil s : setErr None s = s.
Proof. reflexivity. Qed.

(* the first error is kept, and the context is cancelled *)
Lemma setErr_first e s :
  err s = None -> err (setErr (Some e) s) = Some e /\ ctx (setErr (Some e) s) <> None.
Proof.
  intros H. unfold setErr. rewrite H. split.
  - now rewrite cancel_err.
  - apply cancel_ctx.
Qed.

Lemma setErr_err_some e s : err (setErr (Some e) s) <> None.
Proof.
  destruct (err s) eqn:E.
  - rewrite (setErr_latched _ _ _ E). congruence.
  - destruct (setErr_first e s E) as [-> _]. congruence.
Qed.

Lemma setErr_keeps e e' s : err s = Some e -> err (setErr e' s) = Some e.
Proof. intros H. now rewrite (setErr_latched _ _ _ H). Qed.

Create Rewrite HintDb world.

#[global] Hint Rewrite cancel_wr cancel_err cancel_smap cancel_pool cancel_trace
  cancel_tick cancel_sched setErr_wr setErr_smap setErr_pool setErr_trace
  setErr_tick setErr_sched : world.

Lemma status_length s : length (status s) = size (smap s).
Proof. unfold status. now rewrite length_map, length_seq. Qed.

Lemma status_lookup s (i : nat) :
  (i < size (smap s))%nat ->
  status s !! i = Some (meteredReader_done (default None (smap s !! Z.of_nat (S i)))).
Proof.
  intros Hi. unfold status. rewrite list_lookup_fmap.
  rewrite lookup_seq_lt by exact Hi. reflexivity.
Qed.

Lemma smap_dom_registerChunk id r s : dom (smap s) ⊆ dom (smap (registerChunk id r s)).
Proof. unfold registerChunk; simpl. rewrite dom_insert_L. set_solver. Qed.

Lemma smap_dom_completeChunk id s : dom (smap s) ⊆ dom (smap (completeChunk id s)).
Proof. unfold completeChunk; simpl. rewrite dom_insert_L. set_solver. Qed.

Lemma smap_dom_set_read id rd s : dom (smap (set_read id rd s)) = dom (smap s).
Proof. unfold set_read; simpl. apply dom_alter_L. Qed.

(* no step of a goroutine of w.thread() removes an entry of the map *)
Lemma smap_dom_thread_step be i s : dom (smap s) ⊆ dom (smap (thread_step be i s)).
Proof.
  unfold thread_step.
  destruct (pool s !! i) as [[| fc | fc c | fc c sl |]|]; try reflexivity.
  - destruct (getUploadPartURL be (tick s)); simpl; autorewrite with world; reflexivity.
  - destruct (ready (wr s)) as [[|]|]; reflexivity.
  - simpl. destruct (seen (wr s) !! chunk_id c) as [sha|].
    + destruct (decide _); simpl; autorewrite with world; simpl.
      * rewrite dom_insert_L. set_solver.
      * reflexivity.
    + destruct (buf_Reader be (chunk_buf c) (tick s)); simpl; autorewrite with world; simpl.
      * rewrite dom_insert_L. set_solver.
      * reflexivity.
  - simpl.
    destruct (negb _ || _); [destruct (reupload be _);
        [destruct (getUploadPartURL be _) |] |];
      simpl; autorewrite with world; simpl;
      rewrite ?dom_insert_L, ?dom_alter_L; set_solver.
Qed.

Example status_after_complete :
  status (completeChunk 2
            (registerChunk 2 (mkMeteredReader 3 10 (BufReader (mkBytesReader [] 0)))
               (registerChunk 1 (mkMeteredReader 5 10 (BufReader (mkBytesReader [] 0)))
                  (new_world (NewWriter "obj") []))))
  = [F_div 5 10; F_one].
Proof. vm_compute. reflexivity. Qed.

(* ===================================================================== *)
(* What the upload goroutines leave alone                                  *)
(* ===================================================================== *)

Lemma later_refl s : later s s.
Proof.
  repeat split; auto. exists []. now rewrite app_nil_r.
Qed.

Lemma later_trans s1 s2 s3 : later s1 s2 -> later s2 s3 -> later s1 s3.
Proof.
  intros (E1 & C1 & (ev1 & T1) & K1) (E2 & C2 & (ev2 & T2) & K2).
  repeat split; auto; [| lia].
  exists (ev1 ++ ev2). now rewrite T2, T1, app_assoc.
Qed.

Lemma sent_app tr1 tr2 : sent (tr1 ++ tr2) = sent tr1 ++ sent tr2.
Proof.
  induction tr1 as [|e tr1 IH]; simpl; [reflexivity |].
  destruct e; simpl; rewrite ?IH; reflexivity.
Qed.

(* unfolding thread_step into its cases *)
Ltac thread_cases be i s :=
  unfold thread_step;
  destruct (pool s !! i) as [[| ?fc | ?fc ?c | ?fc ?c ?sl |]|] eqn:?; simpl;
  repeat match goal with
  | |- context [match getUploadPartURL be ?t with _ => _ end] =>
      destruct (getUploadPartURL be t) eqn:?
  | |- context [match ready ?x with _ => _ end] => destruct (ready x) as [[|]|] eqn:?
  | |- context [match seen ?x !! ?k with _ => _ end] => destruct (seen x !! k) eqn:?
  | |- context [decide ?P] => destruct (decide P)
  | |- context [match buf_Reader be ?b ?t with _ => _ end] =>
      destruct (buf_Reader be b t) eqn:?
  | |- context [if ?b then _ else _] => destruct b eqn:?
  end; simpl; autorewrite with world; simpl.

Lemma thread_step_wr be i s : wr (thread_step be i s) = wr s.
Proof. thread_cases be i s; reflexivity. Qed.

Lemma thread_step_sched be i s : sched (thread_step be i s) = sched s.
Proof. thread_cases be i s; reflexivity. Qed.

Lemma thread_step_sent be i s : sent (trace (thread_step be i s)) = sent (trace s).
Proof.
  thread_cases be i s; rewrite ?sent_app; simpl; rewrite ?app_nil_r; reflexivity.
Qed.

Lemma thread_step_length be i s : length (pool (thread_step be i s)) = length (pool s).
Proof. thread_cases be i s; rewrite ?length_insert; reflexivity. Qed.

Lemma later_setErr e s : later s (setErr e s).
Proof.
  unfold later. autorewrite with world. repeat split; auto.
  - intros e0 H. now apply setErr_keeps.
  - intros e0 H. unfold setErr. destruct e; [| exact H].
    destruct (err s); [exact H |]. now apply cancel_ctx_done.
  - exists []. now rewrite app_nil_r.
Qed.

Lemma later_cancel s : later s (cancel s).
Proof.
  unfold later. autorewrite with world. repeat split; auto.
  - intros e H. now apply cancel_ctx_done.
  - exists []. now rewrite app_nil_r.
Qed.

(* a change that keeps the latch and the context, and adds events *)
Lemma later_step s s' evs :
  err s' = err s -> ctx s' = ctx s -> trace s' = trace s ++ evs ->
  (tick s <= tick s')%nat -> later s s'.
Proof.
  intros He Hc Ht Hk. repeat split; auto.
  - intros e. now rewrite He.
  - intros e. now rewrite Hc.
  - now exists evs.
Qed.

Lemma setErr_ctx_keeps e e' s : ctx s = Some e -> ctx (setErr e' s) = Some e.
Proof. apply later_setErr. Qed.

Ltac trace_grows :=
  first [ exists []; rewrite app_nil_r; reflexivity
        | rewrite <- ?app_assoc; eexists; reflexivity ].

Lemma thread_step_err_keeps be i s e :
  err s = Some e -> err (thread_step be i s) = Some e.
Proof.
  intros H. thread_cases be i s; try (apply setErr_keeps; simpl); exact H.
Qed.

Lemma thread_step_ctx_keeps be i s e :
  ctx s = Some e -> ctx (thread_step be i s) = Some e.
Proof.
  intros H. thread_cases be i s; try (apply setErr_ctx_keeps; simpl); exact H.
Qed.

Lemma thread_step_trace be i s : exists evs, trace (thread_step be i s) = trace s ++ evs.
Proof. thread_cases be i s; trace_grows. Qed.

Lemma thread_step_tick be i s : (tick s <= tick (thread_step be i s))%nat.
Proof. thread_cases be i s; lia. Qed.

Lemma thread_step_later be i s : later s (thread_step be i s).
Proof.
  split; [| split; [| split]].
  - intros e. apply thread_step_err_keeps.
  - intros e. apply thread_step_ctx_keeps.
  - apply thread_step_trace.
  - apply thread_step_tick.
Qed.

Lemma grows_by_refl f s : grows_by f s s.
Proof. exists []. split; [now rewrite app_nil_r | reflexivity]. Qed.

Lemma grows_by_trans f s1 s2 s3 : grows_by f s1 s2 -> grows_by f s2 s3 -> grows_by f s1 s3.
Proof.
  intros (ev1 & T1 & F1) (ev2 & T2 & F2). exists (ev1 ++ ev2).
  split; [now rewrite T2, T1, app_assoc | now rewrite forallb_app, F1, F2].
Qed.

Ltac grows_step :=
  unfold grows_by; simpl; autorewrite with world; simpl;
  first [ exists []; split; [now rewrite app_nil_r | reflexivity]
        | eexists; split; [rewrite <- ?app_assoc; reflexivity | reflexivity] ].

Lemma thread_step_grows be i s : grows_by by_thread s (thread_step be i s).
Proof. thread_cases be i s; grows_step. Qed.

(* the goroutines leave the writer's own fields and the chunks sent alone,
   none is added, and the events they add are their own *)
Definition undisturbed (s s' : World) : Prop :=
  wr s' = wr s /\ sent (trace s') = sent (trace s)
  /\ length (pool s') = length (pool s) /\ later s s'
  /\ grows_by by_thread s s'
  /\ (pool s = [] -> trace s' = trace s).

Lemma undisturbed_refl s : undisturbed s s.
Proof.
  split; [| split; [| split; [| split; [| split]]]]; auto;
    [apply later_refl | apply grows_by_refl].
Qed.

Lemma undisturbed_trans s1 s2 s3 :
  undisturbed s1 s2 -> undisturbed s2 s3 -> undisturbed s1 s3.
Proof.
  intros (W1 & S1 & P1 & L1 & G1 & N1) (W2 & S2 & P2 & L2 & G2 & N2).
  split; [| split; [| split; [| split; [| split]]]]; try congruence.
  - eapply later_trans; eauto.
  - eapply grows_by_trans; eauto.
  - intros Hp. rewrite N2, N1; auto.
    apply length_zero_iff_nil. rewrite P1, Hp. reflexivity.
Qed.

Lemma thread_step_no_thread be i s : pool s = [] -> thread_step be i s = s.
Proof. intros H. unfold thread_step. rewrite H. reflexivity. Qed.

Lemma thread_step_undisturbed be i s : undisturbed s (thread_step be i s).
Proof.
  split; [apply thread_step_wr |].
  split; [apply thread_step_sent |].
  split; [apply thread_step_length |].
  split; [apply thread_step_later |].
  split; [apply thread_step_grows |].
  intros Hp. now rewrite thread_step_no_thread.
Qed.

Lemma cancel_undisturbed s : undisturbed s (cancel s).
Proof.
  split; [apply cancel_wr |].
  split; [now rewrite cancel_trace |].
  split; [now rewrite cancel_pool |].
  split; [apply later_cancel |].
  split; [grows_step | intros _; apply cancel_trace].
Qed.

Lemma run_act_undisturbed be a s : undisturbed s (run_act be a s).
Proof. destruct a; [apply thread_step_undisturbed | apply cancel_undisturbed]. Qed.

Lemma run_acts_undisturbed be l : forall s,
  undisturbed s (fold_left (fun s a => run_act be a s) l s).
Proof.
  induction l as [|a l IH]; intros s; simpl; [apply undisturbed_refl |].
  eapply undisturbed_trans; [apply run_act_undisturbed | apply IH].
Qed.

Lemma sync_point_undisturbed be s p s' :
  sync_point be s = Ret p s' -> undisturbed s s'.
Proof.
  unfold sync_point. destruct (sched s) as [|sp rest].
  - intros [= <- <-]. apply undisturbed_refl.
  - intros [= <- <-].
    eapply undisturbed_trans; [| apply run_acts_undisturbed].
    split; [| split; [| split; [| split; [| split]]]]; simpl; auto.
    + apply later_step with (evs := []); simpl; auto. now rewrite app_nil_r.
    + grows_step.
Qed.

Lemma sync_point_returns be s : exists p s', sync_point be s = Ret p s'.
Proof. unfold sync_point. destruct (sched s); eauto. Qed.

Lemma step_threads_undisturbed be l : forall s,
  undisturbed s (fold_left (fun s i => thread_step be i s) l s).
Proof.
  induction l as [|a l IH]; intros s; simpl; [apply undisturbed_refl |].
  eapply undisturbed_trans; [apply thread_step_undisturbed | apply IH].
Qed.

Lemma step_all_undisturbed be s : undisturbed s (step_all be s).
Proof. apply step_threads_undisturbed. Qed.

Lemma drive_undisturbed be fuel ok : forall s s',
  drive be fuel ok s = Some s' -> undisturbed s s'.
Proof.
  induction fuel as [|fuel IH]; intros s s'; simpl.
  - destruct (ok s); [intros [= <-]; apply undisturbed_refl | discriminate].
  - destruct (ok s); [intros [= <-]; apply undisturbed_refl |].
    intros H. eapply undisturbed_trans; [apply step_all_undisturbed | eauto].
Qed.

Lemma drive_ok be fuel ok : forall s s',
  drive be fuel ok s = Some s' -> ok s' = true.
Proof.
  induction fuel as [|fuel IH]; intros s s'; simpl.
  - destruct (ok s) eqn:E; [intros [= <-]; exact E | discriminate].
  - destruct (ok s) eqn:E; [intros [= <-]; exact E | apply IH].
Qed.

(* ===================================================================== *)
(* Reasoning about calls that return                                       *)
(* ===================================================================== *)

Lemma bind_Ret {A B} (m : M A) (f : A -> M B) s b s' :
  bind m f s = Ret b s' -> exists a s1, m s = Ret a s1 /\ f a s1 = Ret b s'.
Proof.
  unfold bind. destruct (m s) as [a s1 | |]; [eauto | discriminate | discriminate].
Qed.

Lemma ret_Ret {A} (a b : A) s s' : ret a s = Ret b s' -> b = a /\ s' = s.
Proof. unfold ret. intros [= <- <-]. auto. Qed.

Lemma modify_Ret f s u s' : modify f s = Ret u s' -> s' = f s.
Proof. unfold modify. now intros [= <-]. Qed.

Lemma get_Ret s a s' : get s = Ret a s' -> a = s /\ s' = s.
Proof. unfold get. intros [= <- <-]. auto. Qed.

Lemma call_Ret {A} (f : nat -> A) s r s' :
  call f s = Ret r s' -> r = (tick s, f (tick s)) /\ s' = set_tick (S (tick s)) s.
Proof. unfold call. intros [= <- <-]. auto. Qed.

(* take the computation in H apart, one step at a time *)
Ltac subst_lhs H := match type of H with ?x = _ => subst x end.

Ltac mstep H :=
  lazymatch type of H with
  | bind _ _ _ = Ret _ _ =>
      let a := fresh "a" in
      let s := fresh "s" in
      let E := fresh "E" in
      apply bind_Ret in H; destruct H as (a & s & E & H)
  | ret _ _ = Ret _ _ =>
      let H2 := fresh "Hs" in
      apply ret_Ret in H; destruct H as [H H2]; subst_lhs H2;
      try (match type of H with ?x = _ => is_var x; subst x end)
  | modify _ _ = Ret _ _ => apply modify_Ret in H; subst_lhs H
  | get _ = Ret _ _ =>
      let H2 := fresh "Hs" in
      apply get_Ret in H; destruct H as [H H2]; subst_lhs H2; subst_lhs H
  | call _ _ = Ret _ _ =>
      let H2 := fresh "Hs" in
      apply call_Ret in H; destruct H as [H H2]; subst_lhs H2; subst_lhs H
  | panic _ = Ret _ _ => discriminate H
  | block _ = Ret _ _ => discriminate H
  end.

(* the same for a bind, naming the intermediate result, state and fact *)
Ltac mbind H a s E :=
  apply bind_Ret in H; destruct H as (a & s & E & H).

Lemma w_getErr_spec be s e s' :
  w_getErr be s = Ret e s' -> undisturbed s s' /\ e = err s'.
Proof.
  unfold w_getErr. intros H. mstep H. mstep H. mstep E0. mstep H.
  split; [eapply sync_point_undisturbed; eauto | reflexivity].
Qed.

Lemma setErr_undisturbed e s : undisturbed s (setErr e s).
Proof.
  split; [apply setErr_wr |].
  split; [now rewrite setErr_trace |].
  split; [now rewrite setErr_pool |].
  split; [apply later_setErr |].
  split; [grows_step | intros _; apply setErr_trace].
Qed.

Lemma w_setErr_spec be e s u s' :
  w_setErr be e s = Ret u s' ->
  undisturbed s s' /\ (forall e0, e = Some e0 -> err s' <> None).
Proof.
  unfold w_setErr. intros H. mstep H. mstep H. split.
  - eapply undisturbed_trans; [eapply sync_point_undisturbed; eauto |].
    apply setErr_undisturbed.
  - intros e0 ->. apply setErr_err_some.
Qed.

Lemma w_getErr_returns be s : exists s', w_getErr be s = Ret (err s') s' /\ undisturbed s s'.
Proof.
  destruct (sync_point_returns be s) as (p & s' & H).
  exists s'. split; [| eapply sync_point_undisturbed; eauto].
  unfold w_getErr, bind. rewrite H. reflexivity.
Qed.

(* ===================================================================== *)
(* The error latch                                                         *)
(* ===================================================================== *)

(** X2: once an error is latched, a Write on a started Writer returns
    (0, err) with the latched error: it leaves the writer's fields, the
    active buffer among them, and the chunks sent as they were, and the
    latch keeps the error. *)
Lemma Write_after_latch be hz p s e :
  start (wr s) = true -> err s = Some e ->
  exists s', Write be hz p s = Ret (0, Some e) s'
             /\ wr s' = wr s /\ err s' = Some e /\ sent (trace s') = sent (trace s).
Proof.
  intros Hstart Herr.
  destruct (w_getErr_returns be s) as (s' & Hg & (Hw & Hs & _ & Hl & _)).
  exists s'. assert (He : err s' = Some e) by (apply Hl; exact Herr).
  repeat split; auto.
  unfold Write. simpl. unfold bind at 1. unfold init, bind at 1, get.
  rewrite Hstart. unfold ret at 1. unfold bind at 1. rewrite Hg, He. reflexivity.
Qed.

(** C3: when the first Write cannot create its file buffer, the error is
    latched and every later Write returns (0, err) without touching the
    writer; but Close does not return the latched error: w.w is still nil,
    and Close panics on it. *)
Theorem Close_after_failed_init_panics :
  let x := configure 0 false 0 true (NewWriter "obj") in
  exists s1 s2 s3,
    Write be_no_tempfile 4 (some_bytes 3) (new_world x []) = Ret (0, Some (ErrIO 1)) s1
    /\ err s1 = Some (ErrIO 1)
    /\ w (wr s1) = None
    /\ Write be_no_tempfile 4 (some_bytes 3) s1 = Ret (0, Some (ErrIO 1)) s2
    /\ wr s2 = wr s1
    /\ Close be_no_tempfile 4 s2 = Panic s3.
Proof.
  intros x. do 3 eexists.
  split; [vm_compute; reflexivity |].
  split; [vm_compute; reflexivity |].
  split; [vm_compute; reflexivity |].
  split; [vm_compute; reflexivity |].
  split; [vm_compute; reflexivity |].
  vm_compute. reflexivity.
Qed.

(* ===================================================================== *)
(* init, getBuffer and ReadFrom                                            *)
(* ===================================================================== *)

Lemma getBuffer_spec be s v s' :
  getBuffer be s = Ret v s' ->
  s' = set_tick (S (tick s)) s
  /\ match v with
     | Ok b => fresh_buf b
     | Err _ => True
     end.
Proof.
  unfold getBuffer. destruct (negb _).
  - intros [= <- <-]. repeat split.
  - destruct (TempFile be (tick s)); intros [= <- <-]; repeat split.
Qed.

Lemma init_fields_csize x : csize (init_fields x) = threshold (ChunkSize x).
Proof.
  unfold init_fields, threshold. simpl.
  destruct (ChunkSize x =? 0) eqn:E; simpl; [reflexivity |].
  reflexivity.
Qed.

Lemma init_fields_other x :
  ChunkSize (init_fields x) = ChunkSize x
  /\ UseFileBuffer (init_fields x) = UseFileBuffer x
  /\ Resume (init_fields x) = Resume x
  /\ ConcurrentUploads (init_fields x) = ConcurrentUploads x
  /\ cidx (init_fields x) = cidx x
  /\ w (init_fields x) = w x
  /\ once (init_fields x) = once x
  /\ done (init_fields x) = done x
  /\ ready (init_fields x) = ready x
  /\ file (init_fields x) = file x
  /\ seen (init_fields x) = seen x
  /\ o_f (init_fields x) = o_f x
  /\ start (init_fields x) = true
  /\ everStarted (init_fields x) = true.
Proof.
  unfold init_fields. destruct (_ =? 0); simpl; repeat split; reflexivity.
Qed.

(* what the first init does: the fields are set, the writer is registered,
   and a buffer is allocated or the failure is latched *)
Lemma init_first be s u s' :
  start (wr s) = false -> init be s = Ret u s' ->
  sent (trace s') = sent (trace s)
  /\ length (pool s') = length (pool s)
  /\ (pool s = [] -> trace s' = trace s ++ [EvAddWriter])
  /\ ((exists b, fresh_buf b /\ wr s' = set_w (Some b) (init_fields (wr s)))
      \/ (wr s' = init_fields (wr s) /\ err s' <> None)).
Proof.
  intros Hs H. unfold init in H. mstep H. mstep E. rewrite Hs in H.
  do 6 (mstep H; mstep E).
  mbind H v s1 Hg. apply getBuffer_spec in Hg. destruct Hg as [-> Hb].
  destruct v as [b | e].
  - mstep H. simpl. rewrite sent_app. simpl. rewrite app_nil_r.
    repeat split. left. exists b. split; [exact Hb |]. reflexivity.
  - apply w_setErr_spec in H. destruct H as [(Hw & Hsent & Hp & Hl & _ & Ht) He].
    rewrite Hsent, Hw, Hp. simpl. rewrite sent_app. simpl. rewrite app_nil_r.
    split; [reflexivity |]. split; [reflexivity |].
    split; [intros Hn; rewrite Ht by exact Hn; reflexivity |].
    right. split; [reflexivity | eapply He; reflexivity].
Qed.

Lemma init_again be s u s' :
  start (wr s) = true -> init be s = Ret u s' -> s' = s.
Proof.
  intros Hs H. unfold init in H. mstep H. mstep E. rewrite Hs in H. mstep H.
  reflexivity.
Qed.

Lemma init_keeps be s u s' :
  init be s = Ret u s' ->
  ChunkSize (wr s') = ChunkSize (wr s) /\ o_f (wr s') = o_f (wr s).
Proof.
  intros H. destruct (start (wr s)) eqn:Hs.
  - apply init_again in H; [subst; auto | exact Hs].
  - apply init_first in H; [| exact Hs].
    destruct H as (_ & _ & _ & [(b & _ & ->) | (-> & _)]); simpl;
      destruct (init_fields_other (wr s)) as (-> & _ & _ & _ & _ & _ & _ & _ & _ & _ & _ & -> & _);
      auto.
Qed.

(* a seekable source that is not below w.ChunkSize: ReadFrom uploads
   nothing and, unless a Seek fails, returns (0, nil) *)
Lemma ReadFrom_not_below be hz rs s r s' :
  ChunkSize (wr s) <= zlen (br_s rs) ->
  ReadFrom be hz (SeekerSource rs) s = Ret r s' ->
  o_f (wr s') = o_f (wr s)
  /\ (r = Direct 0 None \/ exists e, r = Direct 0 (Some e)).
Proof.
  intros Hsize H. unfold ReadFrom in H.
  mbind H u s1 Hi. apply init_keeps in Hi. destruct Hi as [Hc Ho].
  mbind H c s2 Hk. mstep Hk. destruct (source_Seek be (tick s1)) as [e|]; simpl in H.
  - mstep H. split; [exact Ho | right; eauto].
  - mbind H s3 s4 Hg. mstep Hg. simpl in H. rewrite Hc in H.
    destruct (Z.ltb_spec (zlen (br_s rs)) (ChunkSize (wr s))); [lia |].
    mstep H. split; [exact Ho | left; reflexivity].
Qed.

(** C7: a Writer whose ChunkSize was left unset works with the threshold
    10^8 (w.csize), but ReadFrom compares the size of the source with
    w.ChunkSize, which is 0: for a seekable source of 3 bytes it does not
    take the pass-through path.  It returns (0, nil), no uploadFile call is
    made and no object is set. *)
Theorem ReadFrom_unset_ChunkSize_uploads_nothing :
  exists s',
    ReadFrom be_ok 4 (SeekerSource (mkBytesReader (some_bytes 3) 0))
      (new_world (NewWriter "obj") [])
    = Ret (Direct 0 None) s'
    /\ csize (wr s') = 100000000
    /\ trace s' = [EvAddWriter]
    /\ o_f (wr s') = None.
Proof.
  eexists. split; [vm_compute; reflexivity |].
  split; [vm_compute; reflexivity |].
  split; [vm_compute; reflexivity |].
  vm_compute. reflexivity.
Qed.

(** C8: for a seekable source whose size is not below the threshold (here 10
    bytes against ChunkSize = 10), ReadFrom neither performs an upload nor
    returns an error: it returns (0, nil), and no object is set. *)
Theorem ReadFrom_large_source_returns_zero_nil :
  exists s',
    ReadFrom be_ok 4 (SeekerSource (mkBytesReader (some_bytes 10) 0))
      (new_world (configure 0 false 10 false (NewWriter "obj")) [])
    = Ret (Direct 0 None) s'
    /\ trace s' = [EvAddWriter]
    /\ o_f (wr s') = None.
Proof.
  eexists. split; [vm_compute; reflexivity |].
  split; [vm_compute; reflexivity |].
  vm_compute. reflexivity.
Qed.

(* with ChunkSize set above the size of the source, the pass-through path
   is taken: one uploadFile of size+40 bytes under the hash sentinel *)
Example ReadFrom_small_source :
  exists s',
    ReadFrom be_ok 4 (SeekerSource (mkBytesReader (some_bytes 3) 0))
      (new_world (configure 0 false 10 false (NewWriter "obj")) [])
    = Ret (Direct 0 None) s'
    /\ trace s'
       = [EvAddWriter; EvGetUploadURL 3;
          EvUploadFile 3 43 "application/octet-stream" "hex_digits_at_end"]
    /\ o_f (wr s') = Some 4%nat.
Proof.
  eexists. split; [vm_compute; reflexivity |].
  split; [vm_compute; reflexivity |].
  vm_compute. reflexivity.
Qed.

(* ===================================================================== *)
(* Retrying a part                                                         *)
(* ===================================================================== *)

Lemma next_sleep_min d : next_sleep d = Z.min (2 * d) sleep_max.
Proof.
  unfold next_sleep. destruct (Z.ltb_spec sleep_max (d * 2)); lia.
Qed.

Lemma retry_delay_S k : retry_delay (S k) = next_sleep (retry_delay k).
Proof. reflexivity. Qed.

Lemma retry_delay_closed k : retry_delay k = Z.min (sleep_first * 2 ^ Z.of_nat k) sleep_max.
Proof.
  induction k as [|k IH].
  - reflexivity.
  - rewrite retry_delay_S, IH, next_sleep_min.
    rewrite Nat2Z.inj_succ, Z.pow_succ_r by lia.
    unfold sleep_first, sleep_max. lia.
Qed.

Lemma retry_delay_bounds k : sleep_first <= retry_delay k <= sleep_max.
Proof.
  rewrite retry_delay_closed.
  assert (0 < 2 ^ Z.of_nat k) by (apply Z.pow_pos_nonneg; lia).
  unfold sleep_first, sleep_max. split; [apply Z.min_glb |]; nia || lia.
Qed.

(* reading a buffer's reader through the meteredReader, from offset n on *)
Lemma metered_drain (k : nat) (data : list byte) (size : Z) :
  (0 < k)%nat ->
  forall m n fuel rd,
    (n <= length data)%nat -> (length data - n <= m)%nat -> (m < fuel)%nat ->
    read_all fuel k (mkMeteredReader rd size (BufReader (mkBytesReader data (Z.of_nat n))))
    = Some (skipn n data, AtEOF,
            mkMeteredReader (rd + Z.of_nat (length data - n)) size
              (BufReader (mkBytesReader data (Z.of_nat (length data))))).
Proof.
  intros Hk. induction m as [|m IH]; intros n fuel rd Hn Hm Hf.
  - destruct fuel as [|fuel]; [lia |]. simpl.
    unfold meteredReader_Read; simpl. unfold bytesReader_Read; simpl. unfold zlen.
    destruct (Z.leb_spec (Z.of_nat (length data)) (Z.of_nat n)); [| lia].
    simpl. assert (n = length data) by lia. subst n.
    rewrite skipn_all, Nat.sub_diag. simpl. rewrite !Z.add_0_r. reflexivity.
  - destruct fuel as [|fuel]; [lia |]. simpl.
    unfold meteredReader_Read; simpl. unfold bytesReader_Read; simpl. unfold zlen.
    destruct (Z.leb_spec (Z.of_nat (length data)) (Z.of_nat n)).
    + simpl. assert (n = length data) by lia. subst n.
      rewrite skipn_all, Nat.sub_diag. simpl. rewrite !Z.add_0_r. reflexivity.
    + unfold copy_from, slice_from. rewrite Nat2Z.id. simpl.
      set (b := firstn k (skipn n data)).
      assert (Hb : length b = Nat.min k (length data - n)).
      { subst b. rewrite length_firstn, length_skipn. reflexivity. }
      replace (Z.of_nat n + Z.of_nat (length b)) with (Z.of_nat (n + length b)) by lia.
      rewrite (IH (n + length b)%nat fuel) by lia.
      do 2 f_equal.
      * f_equal. rewrite Nat.add_comm, <- skipn_skipn. subst b.
        apply firstn_skipn_length.
      * f_equal. lia.
Qed.

Lemma set_thread_lookup i t s u :
  pool s !! i = Some u -> pool (set_thread i t s) !! i = Some t.
Proof.
  intros H. unfold set_thread; simpl.
  apply list_lookup_insert_eq. eapply lookup_lt_Some; eauto.
Qed.

(* a chunk is put at the label redo with the first delay *)
Lemma thread_step_first_delay be j s0 fc0 c0 fc1 c1 sl :
  pool s0 !! j = Some (TRecv fc0 c0) ->
  pool (thread_step be j s0) !! j = Some (TRedo fc1 c1 sl) ->
  sl = sleep_first /\ c1 = c0 /\ fc1 = fc0.
Proof.
  intros H. unfold thread_step. rewrite H. simpl.
  destruct (seen (wr s0) !! chunk_id c0).
  - destruct (decide _); simpl; autorewrite with world; simpl;
      rewrite list_lookup_insert_eq by (eapply lookup_lt_Some; eauto); discriminate.
  - destruct (buf_Reader be (chunk_buf c0) (tick s0)); simpl; autorewrite with world; simpl;
      rewrite list_lookup_insert_eq by (eapply lookup_lt_Some; eauto).
    + intros [= <- <- <-]. auto.
    + discriminate.
Qed.

Lemma metered_rewind (k fuel : nat) rd size data pos :
  (0 < k)%nat -> (length data < fuel)%nat ->
  exists mr,
    Seek (mkMeteredReader rd size (BufReader (mkBytesReader data pos))) 0 SeekStart
    = Some (0, None, mr)
    /\ mr_read mr = 0
    /\ exists mr', read_all fuel k mr = Some (data, AtEOF, mr') /\ mr_read mr' = zlen data.
Proof.
  intros Hk Hf. eexists. split; [reflexivity |]. split; [reflexivity |].
  eexists. split.
  - apply (metered_drain k data size Hk (length data) 0%nat fuel 0); lia.
  - simpl. unfold zlen. lia.
Qed.

(** C5 (amended): when an uploadPart attempt fails (an error, or a byte
    count that differs from the chunk length) and reupload classifies its
    error as retryable, the goroutine sleeps for the current delay and then
    asks for a new part-upload endpoint; with that endpoint it is back at
    redo with the delay doubled and capped at 15 s, and the same
    meteredReader, or it latches the error of getUploadPartURL and exits.
    A chunk reaches redo with the delay 15 ms, so the delay before retry k
    is min(15 ms * 2^k, 15 s), between 15 ms and 15 s.  Seek(0, SeekStart) on
    the meteredReader sets its counter to 0 and rewinds the reader, so that
    the chunk is read again from its first byte. *)
Theorem part_retry_backoff (be : Backend) (i : nat) (s : World)
    (fc : nat) (c : chunk) (sleep : Z) :
  pool s !! i = Some (TRedo fc c sleep) ->
  let id := chunk_id c in
  let buf := chunk_buf c in
  let res := uploadPart be (tick s) id (buf_Len buf) in
  let s' := thread_step be i s in
  (up_n res <> buf_Len buf \/ up_err res <> None) ->
  reupload be (up_err res) = true ->
  (exists evs,
     trace s' = trace s ++ EvUploadPart i fc id (buf_Hash buf) (buf_Len buf)
                             :: EvSleep i sleep :: evs
     /\ match getUploadPartURL be (S (tick s)) with
        | None =>
            evs = [EvGetUploadPartURL i (S (tick s))]
            /\ pool s' !! i = Some (TRedo (S (tick s)) c (next_sleep sleep))
        | Some e =>
            pool s' !! i = Some TExit /\ err s' <> None
        end)
  /\ next_sleep sleep = Z.min (2 * sleep) sleep_max
  /\ (forall j s0 fc0 c0 fc1 c1 sl,
        pool s0 !! j = Some (TRecv fc0 c0) ->
        pool (thread_step be j s0) !! j = Some (TRedo fc1 c1 sl) ->
        sl = sleep_first /\ c1 = c0 /\ fc1 = fc0)
  /\ (forall k, retry_delay (S k) = next_sleep (retry_delay k)
                /\ retry_delay k = Z.min (sleep_first * 2 ^ Z.of_nat k) sleep_max
                /\ sleep_first <= retry_delay k <= sleep_max)
  /\ (forall (k fuel : nat) rd size data pos,
        (0 < k)%nat -> (length data < fuel)%nat ->
        exists mr,
          Seek (mkMeteredReader rd size (BufReader (mkBytesReader data pos))) 0 SeekStart
          = Some (0, None, mr)
          /\ mr_read mr = 0
          /\ exists mr',
               read_all fuel k mr = Some (data, AtEOF, mr') /\ mr_read mr' = zlen data).
Proof.
  intros Hp id buf res s' Hfail Hre.
  split; [| split; [apply next_sleep_min |
            split; [apply thread_step_first_delay |
            split; [intros k; split; [apply retry_delay_S |
                      split; [apply retry_delay_closed | apply retry_delay_bounds]] |
                    apply metered_rewind]]]].
  assert (Hc : negb (up_n res =? buf_Len buf) || bool_decide (up_err res <> None) = true).
  { destruct Hfail as [Hn | He].
    - destruct (Z.eqb_spec (up_n res) (buf_Len buf)); [contradiction | reflexivity].
    - rewrite (bool_decide_eq_true_2 _ He). apply orb_true_r. }
  subst s'. unfold thread_step. rewrite Hp. simpl.
  fold id buf res. rewrite Hc, Hre.
  destruct (getUploadPartURL be (S (tick s))) as [e|]; simpl; autorewrite with world; simpl.
  - eexists. split; [rewrite <- !app_assoc; reflexivity |]. split.
    + apply list_lookup_insert_eq. eapply lookup_lt_Some; eauto.
    + apply setErr_err_some.
  - eexists. split; [rewrite <- !app_assoc; reflexivity |]. split; [reflexivity |].
    apply list_lookup_insert_eq. eapply lookup_lt_Some; eauto.
Qed.

Lemma part_retry_backoff_witness :
  let c := mkChunk 1 (MemBuf (mkMemoryBuffer 0 (some_bytes 4) (some_bytes 4))) in
  let s := set_pool [TRedo 0 c sleep_first] (new_world (NewWriter "obj") []) in
  pool (thread_step be_flaky 0 s) !! 0%nat = Some (TRedo 1 c (2 * sleep_first))
  /\ sleeps (trace (thread_step be_flaky 0 s)) = [sleep_first].
Proof.
  intros c s.
  destruct (part_retry_backoff be_flaky 0 s 0 c sleep_first) as ((evs & Ht & Hevs & Hpool) & _).
  - reflexivity.
  - right. vm_compute. discriminate.
  - reflexivity.
  - split; [exact Hpool |]. rewrite Ht, Hevs. reflexivity.
Defined.

(* a short count without an error is not retried when reupload does not
   ask for it: the part is uploaded once, nothing is slept, no error is
   latched, and Close returns nil *)
Lemma short_part_not_retried :
  exists s',
    upload be_short 4 [some_bytes 4]
      (new_world (configure 0 false 4 false (NewWriter "obj")) [])
    = Ret ([(4, None)], None) s'
    /\ part_uploads (trace s') = [(1, 2%nat)]
    /\ sleeps (trace s') = []
    /\ err s' = None.
Proof.
  eexists. split; [vm_compute; reflexivity |].
  split; [vm_compute; reflexivity |].
  split; [vm_compute; reflexivity |].
  vm_compute. reflexivity.
Qed.

Example flaky_part_retried :
  exists s',
    upload be_flaky 9 [some_bytes 4]
      (new_world (configure 0 false 4 false (NewWriter "obj")) [])
    = Ret ([(4, None)], None) s'
    /\ part_uploads (trace s') = [(1, 2%nat); (1, 6%nat); (1, 8%nat)]
    /\ sleeps (trace s') = [15000000; 30000000].
Proof.
  eexists. split; [vm_compute; reflexivity |].
  split; [vm_compute; reflexivity |].
  vm_compute. reflexivity.
Qed.

(* ===================================================================== *)
(* Retrying the single-shot upload                                         *)
(* ===================================================================== *)





Lemma uploadFile_redo_spec be fuel : forall ue size ctype sha1 s e rd s',
  uploadFile_redo be fuel ue size ctype sha1 s = Ret (e, rd) s' ->
  exists evs,
    trace s' = trace s ++ evs
    /\ retry_events size ctype sha1 ue evs
    /\ err s' = err s /\ ctx s' = ctx s /\ pool s' = pool s /\ sched s' = sched s
    /\ match e with
       | None => exists f, wr s' = set_o_f (Some f) (wr s)
       | Some x => wr s' = wr s
       end.
Proof.
  induction fuel as [|fuel IH]; intros ue size ctype sha1 s e rd s' H; simpl in H.
  - discriminate.
  - mbind H c s1 Hc. mstep Hc. destruct (uploadFile be (tick s)) as [e0 r0] eqn:Hu.
    simpl in H. mstep H. mstep E. mstep H. mstep E.
    destruct e0 as [x|].
    + destruct (reupload be (Some x)).
      * mbind H c s1 Hc. mstep Hc. simpl in H.
        destruct (getUploadURL be _) as [x'|].
        -- mstep H. inversion H; subst. simpl.
           eexists. split; [reflexivity |]. split; [constructor |]. repeat split.
        -- mstep H. mstep E. apply IH in H.
           destruct H as (evs & Ht & Hev & He & Hx & Hp & Hs & Hw). simpl in *.
           exists (EvUploadFile ue size ctype sha1 :: EvGetUploadURL (S (tick s)) :: evs).
           split; [rewrite Ht, <- !app_assoc; reflexivity |].
           split; [constructor; exact Hev |]. repeat split; auto.
      * mstep H. inversion H; subst. simpl.
        eexists. split; [reflexivity |]. split; [constructor |]. repeat split.
    + mstep H. mstep E. mstep H. inversion H; subst. simpl.
      eexists. split; [reflexivity |]. split; [constructor |]. repeat split.
      eexists. reflexivity.
Qed.

(* with no chunk sent, Close gives what the single-shot upload returns to
   setErr *)
Lemma Close_body_single_shot be hz s u s' :
  cidx (wr s) = 0 -> Close_body be hz s = Ret u s' ->
  exists e s1,
    simpleWriteFile be hz s = Ret e s1
    /\ (e <> None -> err s' <> None)
    /\ undisturbed s1 s'.
Proof.
  intros Hc H. unfold Close_body in H. mstep H. mstep E. rewrite Hc in H. simpl in H.
  mbind H e s1 Hs. exists e, s1. split; [exact Hs |].
  apply w_setErr_spec in H. destruct H as [Hu He]. split; [| exact Hu].
  destruct e as [x|]; [intros _; exact (He x eq_refl) | congruence].
Qed.




(* ===================================================================== *)
(* The writing goroutine: what Write, sendChunk and Close do to the        *)
(* writer's fields and to the chunks sent                                  *)
(* ===================================================================== *)

Lemma first_idle_idle p : forall i,
  first_idle p = Some i -> exists fc, p !! i = Some (TIdle fc).
Proof.
  induction p as [|t p IH]; intros i; simpl; [discriminate |].
  destruct (is_idle t) eqn:Ht.
  - intros [= <-]. destruct t; try discriminate. eauto.
  - destruct (first_idle p) as [j|]; simpl; [| discriminate].
    intros [= <-]. simpl. apply IH. reflexivity.
Qed.

Lemma idle_at_idle i s : idle_at i s = true -> exists fc, pool s !! i = Some (TIdle fc).
Proof.
  unfold idle_at. destruct (pool s !! i) as [t|]; [| discriminate].
  destruct t; try discriminate. eauto.
Qed.

Lemma deliver_idle i c s fc :
  pool s !! i = Some (TIdle fc) ->
  deliver i c s = set_thread i (TRecv fc c) (log (EvSend c) s).
Proof. intros H. unfold deliver. rewrite H. reflexivity. Qed.

Lemma receiver_idle p s i :
  receiver_of p s = Some i -> exists fc, pool s !! i = Some (TIdle fc).
Proof.
  unfold receiver_of. destruct p as [j|].
  - destruct (idle_at j s) eqn:Hj.
    + intros [= <-]. now apply idle_at_idle.
    + apply first_idle_idle.
  - apply first_idle_idle.
Qed.

(* a select that sends: some idle goroutine has received the chunk *)
Lemma select_send_spec be hz c s r s' :
  select_send be hz c s = Ret r s' ->
  match r with
  | Some _ => undisturbed s s'
  | None =>
      exists s1 i fc,
        undisturbed s s1 /\ pool s1 !! i = Some (TIdle fc)
        /\ ready (wr s1) = Some false
        /\ s' = set_thread i (TRecv fc c) (log (EvSend c) s1)
  end.
Proof.
  unfold select_send. intros H. mbind H p s0 Hs.
  apply sync_point_undisturbed in Hs.
  destruct (ready (wr s0)) as [[|]|] eqn:Hr.
  - destruct p; [discriminate |]. destruct (ctx s0); [| discriminate].
    inversion H; subst. exact Hs.
  - destruct (drive be hz can_select s0) as [s1|] eqn:Hd; [| discriminate].
    apply drive_undisturbed in Hd.
    assert (Hu : undisturbed s s1) by (eapply undisturbed_trans; eauto).
    assert (Hsend : forall i, receiver_of p s1 = Some i ->
              exists s2 i0 fc, undisturbed s s2 /\ pool s2 !! i0 = Some (TIdle fc)
                /\ ready (wr s2) = Some false
                /\ deliver i c s1 = set_thread i0 (TRecv fc c) (log (EvSend c) s2)).
    { intros i Hi. destruct (receiver_idle _ _ _ Hi) as (fc & Hfc).
      exists s1, i, fc. split; [exact Hu |]. split; [exact Hfc |]. split.
      - destruct Hd as (Hw & _). now rewrite Hw.
      - now apply deliver_idle. }
    destruct p as [j|], (ctx s1) as [e|], (receiver_of _ s1) as [i|] eqn:Hrcv;
      inversion H; subst; try exact Hu; try (now apply Hsend).
  - destruct (ctx s0); [| discriminate]. inversion H; subst. exact Hs.
Qed.

Lemma quiet_refl s : quiet s s.
Proof.
  repeat split; auto. exists []. split; [now rewrite app_nil_r | reflexivity].
Qed.

Lemma quiet_trans s1 s2 s3 : quiet s1 s2 -> quiet s2 s3 -> quiet s1 s3.
Proof.
  intros (E1 & C1 & P1 & S1 & K1 & ev1 & T1 & N1) (E2 & C2 & P2 & S2 & K2 & ev2 & T2 & N2).
  unfold quiet. rewrite E2, C2, P2, S2, T2, T1.
  repeat split; auto; [lia |].
  exists (ev1 ++ ev2). split; [now rewrite app_assoc |].
  rewrite forallb_app, N1, N2. reflexivity.
Qed.

Lemma sent_neutral evs : forallb neutral evs = true -> sent evs = [].
Proof.
  induction evs as [|e evs IH]; simpl; [reflexivity |].
  intros H. apply andb_true_iff in H. destruct H as [He H].
  destruct e; try discriminate; auto.
Qed.

Lemma quiet_sent s s' : quiet s s' -> sent (trace s') = sent (trace s).
Proof.
  intros (_ & _ & _ & _ & _ & evs & -> & Hn).
  rewrite sent_app, (sent_neutral _ Hn). apply app_nil_r.
Qed.

Lemma quiet_later s s' : quiet s s' -> later s s'.
Proof.
  intros (E & C & _ & _ & K & evs & T & _).
  apply later_step with (evs := evs); auto.
Qed.

(* proving that an explicit change of the world is quiet *)
Ltac quiet_step :=
  unfold quiet; simpl; autorewrite with world; simpl;
  repeat (split; [first [reflexivity | lia] |]);
  first [ exists []; split; [now rewrite app_nil_r | reflexivity]
        | eexists; split; [rewrite <- ?app_assoc; reflexivity | reflexivity] ].

Lemma tick_quiet n s : (tick s <= n)%nat -> quiet s (set_tick n s).
Proof. intros H. quiet_step. Qed.

Lemma same_setup_refl x : same_setup x x.
Proof. repeat split. Qed.

Lemma same_setup_trans x1 x2 x3 : same_setup x1 x2 -> same_setup x2 x3 -> same_setup x1 x3.
Proof.
  unfold same_setup. intros (A1 & A2 & A3 & A4 & A5 & A6 & A7) (B1 & B2 & B3 & B4 & B5 & B6 & B7).
  repeat split; congruence.
Qed.

Lemma promoted_same x x' :
  promoted x x' ->
  same_setup x x' /\ cidx x' = cidx x /\ w x' = w x /\ once x' = once x
  /\ ready x' = ready x /\ file x' = file x
  /\ ConcurrentUploads x' = ConcurrentUploads x.
Proof.
  intros [-> | [-> | (sn & ->)]]; repeat split.
Qed.

Lemma startLargeFile_call_spec be s r s' :
  startLargeFile_call be s = Ret r s' -> quiet s s' /\ wr s' = wr s.
Proof.
  unfold startLargeFile_call. intros H. mstep H. mstep E.
  mbind H c s1 Hc. mstep Hc. simpl in H. mstep H. mstep E.
  destruct (startLargeFile be (tick s)); mstep H; split; try reflexivity; quiet_step.
Qed.

Lemma listLoop_spec be fuel : forall next sn sz s r s',
  listLoop be fuel next sn sz s = Ret r s' -> quiet s s' /\ promoted (wr s) (wr s').
Proof.
  induction fuel as [|fuel IH]; intros next sn sz s r s' H; simpl in H; [discriminate |].
  mstep H. mstep E. mbind H c s1 Hc. mstep Hc. simpl in H. mstep H. mstep E.
  destruct (ListObjects be (tick s)) as [o | e].
  - match type of H with (if ?b then _ else _) _ = _ => destruct b end.
    + mstep H. mstep E. apply startLargeFile_call_spec in H. destruct H as [Hq Hw].
      split.
      * eapply quiet_trans; [| exact Hq]. quiet_step.
      * right. left. rewrite Hw. reflexivity.
    + mbind H c s1 Hc. mstep Hc. simpl in H. mstep H. mstep E.
      destruct (listParts be _ next) as [[parts n] | e].
      * match type of H with (if ?b then _ else _) _ = _ => destruct b end.
        -- mstep H. mstep E. mstep H. mstep E. mstep H. split.
           ++ quiet_step.
           ++ right. right. eexists. reflexivity.
        -- apply IH in H. destruct H as [Hq Hw]. split; [| exact Hw].
           eapply quiet_trans; [| exact Hq]. quiet_step.
      * mstep H. split; [quiet_step | left; reflexivity].
  - mstep H. split; [quiet_step | left; reflexivity].
Qed.

Lemma getLargeFile_spec be hz s r s' :
  getLargeFile be hz s = Ret r s' -> quiet s s' /\ promoted (wr s) (wr s').
Proof.
  unfold getLargeFile. intros H. mstep H. mstep E.
  destruct (negb _).
  - apply startLargeFile_call_spec in H. destruct H as [Hq Hw].
    split; [exact Hq | left; exact Hw].
  - eapply listLoop_spec; eauto.
Qed.

Lemma spawn_spec n : forall s u s',
  spawn n s = Ret u s' -> s' = set_pool (pool s ++ repeat TStart n) s.
Proof.
  induction n as [|n IH]; intros s u s' H; simpl in H.
  - mstep H. rewrite app_nil_r. destruct s; reflexivity.
  - mstep H. unfold thread in E. mstep E. apply IH in H. subst s'. simpl.
    rewrite <- app_assoc. reflexivity.
Qed.

(* the first sendChunk promotes the upload: the large file is obtained, the
   channel is made and the goroutines are started *)
Lemma promote_spec be hz s e s' :
  promote be hz s = Ret e s' ->
  (once (wr s) = true /\ s' = s /\ e = None)
  \/ (once (wr s) = false
      /\ exists s0 x0,
           quiet s s0 /\ promoted (set_once true (wr s)) x0 /\ wr s0 = x0
           /\ match e with
              | Some _ => s' = s0
              | None =>
                  exists f conc,
                    (1 <= conc)
                    /\ s' = set_pool (pool s0 ++ repeat TStart (Z.to_nat conc))
                              (set_wr (set_ConcurrentUploads conc
                                         (set_ready (Some false)
                                            (set_file (Some f) x0))) s0)
              end).
Proof.
  unfold promote. intros H. mstep H. mstep E.
  destruct (once (wr s)) eqn:Ho.
  - mstep H. left. auto.
  - right. split; [reflexivity |]. mstep H. mstep E.
    mbind H lf s1 Hl. apply getLargeFile_spec in Hl. destruct Hl as [Hq Hp].
    simpl in Hp. exists s1, (wr s1).
    split; [eapply quiet_trans; [| exact Hq]; quiet_step |].
    split; [exact Hp |]. split; [reflexivity |].
    destruct lf as [f | e0].
    + do 3 (mstep H; mstep E). mstep H. mstep E. mbind H u s2 Hs. mstep H.
      apply spawn_spec in Hs. subst. unfold update_wr. simpl.
      destruct (Z.ltb_spec (ConcurrentUploads (wr s1)) 1).
      * exists f, 1. split; [lia |]. simpl. reflexivity.
      * exists f, (ConcurrentUploads (wr s1)). split; [lia |]. simpl.
        destruct s1 as [x1 ? ? ? ? ? ? ?]; destruct x1; reflexivity.
    + mstep H. reflexivity.
Qed.

Lemma promote_view be hz s e s' :
  promote be hz s = Ret e s' ->
  same_setup (wr s) (wr s') /\ cidx (wr s') = cidx (wr s) /\ w (wr s') = w (wr s)
  /\ sent (trace s') = sent (trace s) /\ later s s'
  /\ (e = None -> once (wr s') = true).
Proof.
  intros H. apply promote_spec in H.
  destruct H as [(Ho & -> & ->) | (Ho & s0 & x0 & Hq & Hp & Hw & He)].
  - split; [apply same_setup_refl |]. repeat split; auto. apply later_refl.
  - apply promoted_same in Hp.
    destruct Hp as (Hs & Hc & Hwb & Hon & _). simpl in *.
    pose proof (quiet_sent _ _ Hq) as Hsent. pose proof (quiet_later _ _ Hq) as Hl.
    destruct e as [e|].
    + subst s'. rewrite Hw.
      split; [exact Hs |]. split; [exact Hc |]. split; [exact Hwb |].
      split; [exact Hsent |]. split; [exact Hl | discriminate].
    + destruct He as (f & conc & Hconc & ->). simpl.
      split; [exact Hs |]. split; [exact Hc |]. split; [exact Hwb |].
      split; [exact Hsent |]. split; [| intros _; exact Hon].
      eapply later_trans; [exact Hl |].
      apply later_step with (evs := []); simpl; auto. now rewrite app_nil_r.
Qed.

(* sendChunk, when it returns nil: after the promotion an idle goroutine has
   received the chunk, cidx is one more, and a new buffer is in place *)
Lemma sendChunk_sent be hz s s' :
  sendChunk be hz s = Ret None s' ->
  exists s1 s2 i fc b b',
    promote be hz s = Ret None s1
    /\ w (wr s1) = Some b
    /\ undisturbed s1 s2 /\ pool s2 !! i = Some (TIdle fc) /\ ready (wr s2) = Some false
    /\ fresh_buf b'
    /\ let c := mkChunk (cidx (wr s1) + 1) b in
       let s3 := set_thread i (TRecv fc c) (log (EvSend c) s2) in
       s' = update_wr (set_w (Some b'))
              (set_tick (S (tick s3)) (update_wr (fun x => set_cidx (cidx x + 1) x) s3)).
Proof.
  unfold sendChunk. intros H. mbind H e s1 Hp.
  destruct e as [e|]; [mstep H; discriminate |].
  mstep H. mstep E. destruct (w (wr s1)) as [b|] eqn:Hb; [| discriminate].
  mbind H r s2 Hsel. destruct r as [e|]; [mstep H; discriminate |].
  apply select_send_spec in Hsel. destruct Hsel as (s3 & i & fc & Hu & Hi & Hr & ->).
  mstep H. mstep E. mbind H v s4 Hg. apply getBuffer_spec in Hg.
  destruct Hg as [-> Hf]. destruct v as [b'|e]; [| mstep H; discriminate].
  mstep H. mstep E. mstep H.
  exists s1, s3, i, fc, b, b'.
  split; [exact Hp |]. split; [exact Hb |]. split; [exact Hu |].
  split; [exact Hi |]. split; [exact Hr |]. split; [exact Hf |]. reflexivity.
Qed.

Lemma sendChunk_sent_view be hz s s' b :
  sendChunk be hz s = Ret None s' -> w (wr s) = Some b ->
  same_setup (wr s) (wr s')
  /\ cidx (wr s') = cidx (wr s) + 1
  /\ (exists b', fresh_buf b' /\ w (wr s') = Some b')
  /\ sent (trace s') = sent (trace s) ++ [mkChunk (cidx (wr s) + 1) b]
  /\ once (wr s') = true
  /\ later s s'.
Proof.
  intros H Hb. apply sendChunk_sent in H.
  destruct H as (s1 & s2 & i & fc & b0 & b' & Hp & Hb0 & (Hw & Hs & _ & Hl & _) & Hi & Hr & Hf & ->).
  apply promote_view in Hp. destruct Hp as (Hset & Hc & Hwb & Hsent & Hl1 & Ho).
  assert (b0 = b) by congruence. subst b0.
  simpl. unfold update_wr. simpl. rewrite Hw.
  split; [exact Hset |]. split; [lia |]. split; [eauto |].
  split; [rewrite sent_app, Hs, Hsent; simpl; now rewrite Hc |].
  split; [now apply Ho |].
  eapply later_trans; [exact Hl1 |]. eapply later_trans; [exact Hl |].
  apply later_step with (evs := [EvSend (mkChunk (cidx (wr s1) + 1) b)]); simpl; auto.
Qed.

Lemma threshold_nonzero chunk : threshold chunk <> 0.
Proof. unfold threshold. destruct (Z.eqb_spec chunk 0); lia. Qed.

Lemma pool_nil_length s s' :
  length (pool s') = length (pool s) -> pool s = [] -> pool s' = [].
Proof. intros H E. rewrite E in H. now apply length_zero_iff_nil. Qed.

Lemma writing_undisturbed cs s s' : undisturbed s s' -> writing cs s -> writing cs s'.
Proof.
  intros (Hw & Hs & Hp & _ & _ & Ht) (A1 & A2 & A3 & A4 & A5 & A6 & A7 & A8 & A9).
  unfold writing. rewrite Hw, Hs.
  split; [exact A1 |]. split; [exact A2 |]. split; [exact A3 |]. split; [exact A4 |].
  split; [exact A5 |]. split; [exact A6 |]. split; [exact A7 |]. split; [exact A8 |].
  intros Hc. destruct (A9 Hc) as (Ho & Hn & Hf & Hl).
  split; [exact Ho |]. split; [eapply pool_nil_length; eauto |].
  split; [exact Hf | rewrite (Ht Hn); exact Hl].
Qed.

Lemma stream_undisturbed s s' : undisturbed s s' -> stream s' = stream s.
Proof. intros (Hw & Hs & _). unfold stream, chunk_data. now rewrite Hw, Hs. Qed.

Lemma err_none_earlier s s' : later s s' -> err s' = None -> err s = None.
Proof.
  intros (He & _) H. destruct (err s) as [e|] eqn:E; [| reflexivity].
  rewrite (He e eq_refl) in H. discriminate.
Qed.

Lemma no_large_app tr1 tr2 : no_large tr1 -> no_large tr2 -> no_large (tr1 ++ tr2).
Proof. unfold no_large. intros H1 H2. now rewrite forallb_app, H1, H2. Qed.

(* init, for a writer that then has no error latched *)
Lemma init_ready be cs s u s' :
  writing cs s \/ unstarted cs s ->
  init be s = Ret u s' -> err s' = None ->
  writing cs s' /\ stream s' = stream s.
Proof.
  intros [Hw | Hu] H Herr.
  - destruct Hw as (A1 & A). apply init_again in H; [| exact A1]. subst s'.
    split; [split; [exact A1 | exact A] | reflexivity].
  - destruct Hu as (U1 & U2 & U3 & U4 & U5 & U6 & U7 & U8 & U9 & U10 & U11).
    apply init_first in H; [| exact U1].
    destruct H as (Hs & Hp & Ht & [(b & (Hb1 & Hb2) & Hw) | (_ & Hne)]); [| congruence].
    destruct (init_fields_other (wr s))
      as (I1 & I2 & I3 & I4 & I5 & I6 & I7 & I8 & I9 & I10 & I11 & I12 & I13 & I14).
    unfold writing, stream, chunk_data. rewrite Hw, Hs, U7. simpl.
    rewrite I13, I14, I8, I5, I7, I10, init_fields_csize, U9, U3, U5, U6, U4, U10, Hb1.
    split; [| reflexivity].
    split; [reflexivity |]. split; [reflexivity |]. split; [reflexivity |].
    split; [reflexivity |]. split; [rewrite <- U9; apply threshold_nonzero |].
    split; [reflexivity |]. split; [split; [reflexivity | constructor] |].
    split.
    + exists b. split; [reflexivity |].
      split; [unfold buf_wf; now rewrite Hb1, Hb2 | rewrite Hb2; auto].
    + intros _. split; [reflexivity |]. split; [eapply pool_nil_length; eauto |].
      split; [reflexivity |]. rewrite (Ht U8). apply no_large_app; [exact U11 | reflexivity].
Qed.

Lemma buf_Write_spec be p s n s' b :
  buf_Write be p s = Ret (n, None) s' -> w (wr s) = Some b ->
  exists b',
    quiet s s' /\ trace s' = trace s /\ wr s' = set_w (Some b') (wr s)
    /\ buf_bytes b' = buf_bytes b ++ p
    /\ buf_Len b' = buf_Len b + zlen p
    /\ n = zlen p.
Proof.
  unfold buf_Write. intros H Hb. rewrite Hb in H. destruct b as [mb | fb].
  - simpl in H. inversion H; subst. eexists. split; [quiet_step |].
    split; [reflexivity |].
    split; [reflexivity |]. simpl. unfold memoryBuffer_Len; simpl. unfold zlen.
    rewrite length_app. repeat split. lia.
  - unfold fileBuffer_Write in H.
    destruct (file_Write be (tick s) (length p)) as [[k e]|]; inversion H; subst.
    eexists. split; [quiet_step |]. split; [reflexivity |].
    split; [reflexivity |]. repeat split.
Qed.

Lemma writing_set_w cs s s' b' :
  writing cs s -> wr s' = set_w (Some b') (wr s) ->
  trace s' = trace s -> pool s' = pool s ->
  buf_wf b' -> (0 < cs -> buf_Len b' < cs) ->
  writing cs s'.
Proof.
  intros (A1 & A2 & A3 & A4 & A5 & A6 & A7 & A8 & A9) Hw Hs Hp Hwf Hlen.
  unfold writing. rewrite Hw, Hs, Hp. simpl.
  split; [exact A1 |]. split; [exact A2 |]. split; [exact A3 |]. split; [exact A4 |].
  split; [exact A5 |]. split; [exact A6 |]. split; [exact A7 |].
  split; [eauto | exact A9].
Qed.

Lemma ids_upto_S n : ids_upto (S n) = ids_upto n ++ [Z.of_nat (S n)].
Proof. unfold ids_upto. rewrite seq_S, map_app. reflexivity. Qed.

Lemma zlen_app {A} (l1 l2 : list A) : zlen (l1 ++ l2) = zlen l1 + zlen l2.
Proof. unfold zlen. rewrite length_app. lia. Qed.

Lemma zlen_nonneg {A} (l : list A) : 0 <= zlen l.
Proof. unfold zlen. lia. Qed.

Lemma good_chunks_snoc cs snt c :
  good_chunks cs snt -> chunk_id c = zlen snt + 1 ->
  buf_Len (chunk_buf c) = cs -> buf_wf (chunk_buf c) ->
  good_chunks cs (snt ++ [c]).
Proof.
  intros [Hid Hall] Hc Hl Hwf. split.
  - rewrite map_app, length_app, Hid. simpl. rewrite Nat.add_1_r, ids_upto_S.
    f_equal. f_equal. rewrite Hc. unfold zlen. lia.
  - apply Forall_app. split; [exact Hall | repeat constructor; auto].
Qed.

Lemma slice_split {A} (n : Z) (p : list A) : slice_to n p ++ slice_from n p = p.
Proof. apply firstn_skipn. Qed.

Lemma zlen_slice_to {A} (n : Z) (p : list A) :
  0 <= n <= zlen p -> zlen (slice_to n p) = n.
Proof.
  intros H. unfold zlen, slice_to in *. rewrite length_firstn. lia.
Qed.

Lemma zlen_slice_from {A} (n : Z) (p : list A) :
  0 <= n <= zlen p -> zlen (slice_from n p) = zlen p - n.
Proof.
  intros H. unfold zlen, slice_from in *. rewrite length_skipn. lia.
Qed.

Lemma chunk_data_snoc snt c :
  concat (map chunk_bytes (snt ++ [c])) = concat (map chunk_bytes snt) ++ chunk_bytes c.
Proof. rewrite map_app, concat_app. simpl. now rewrite app_nil_r. Qed.

(* a Write that returns a nil error has taken all of p; the chunks sent and
   the active buffer hold the stream so far *)
Lemma Write_rec_spec be hz cs fuel : forall p s n s',
  writing cs s \/ unstarted cs s ->
  Write_rec be hz fuel p s = Ret (n, None) s' ->
  writing cs s' /\ 0 < cs /\ n = zlen p /\ stream s' = stream s ++ p.
Proof.
  induction fuel as [|fuel IH]; intros p s n s' Hpre H; simpl in H; [discriminate |].
  mbind H u s1 Hinit. mbind H e s2 Hget.
  apply w_getErr_spec in Hget. destruct Hget as [Hu12 ->].
  destruct (err s2) as [e|] eqn:Herr; [mstep H; discriminate |].
  assert (Herr1 : err s1 = None).
  { eapply err_none_earlier; [| exact Herr]. apply Hu12. }
  destruct (init_ready _ _ _ _ _ Hpre Hinit Herr1) as [Hw1 Hst1].
  pose proof (writing_undisturbed _ _ _ Hu12 Hw1) as Hw2.
  pose proof (stream_undisturbed _ _ Hu12) as Hst2.
  clear Hpre Hinit Hw1 Herr1.
  mstep H. mstep E.
  pose proof Hw2 as (A1 & A2 & A3 & A4 & A5 & A6 & A7 & (b & Hb & Hwf & Hlen) & A9).
  rewrite Hb, A4 in H.
  pose proof (zlen_nonneg p) as Hp0.
  assert (Hb0 : 0 <= buf_Len b) by (rewrite Hwf; apply zlen_nonneg).
  destruct (Z.ltb_spec (zlen p) (cs - buf_Len b)) as [Hlt | Hge].
  - (* the slice fits in the active buffer *)
    destruct (buf_Write_spec _ _ _ _ _ _ H Hb) as (b' & Hq & Htr & Hw & Hbytes & Hl & ->).
    assert (Hcs : 0 < cs) by lia.
    split; [| split; [exact Hcs | split; [reflexivity |]]].
    + eapply writing_set_w; eauto.
      * apply Hq.
      * unfold buf_wf. rewrite Hl, Hbytes, zlen_app, Hwf. reflexivity.
      * intros _. lia.
    + rewrite <- Hst1, <- Hst2. unfold stream, chunk_data.
      rewrite Hw, (quiet_sent _ _ Hq), Hb. simpl.
      rewrite Hbytes, app_assoc. reflexivity.
  - (* the active buffer is filled and sent *)
    destruct (Z.ltb_spec (cs - buf_Len b) 0) as [Hneg | Hleft]; [discriminate |].
    assert (Hcs : 0 < cs) by lia.
    specialize (Hlen Hcs).
    set (left := cs - buf_Len b) in *.
    mbind H r s3 Hwr. destruct r as [i e]. destruct e as [e|].
    { (* the write failed *)
      mstep H. mstep H. discriminate. }
    destruct (buf_Write_spec _ _ _ _ _ _ Hwr Hb) as (b1 & Hq & _ & Hw & Hbytes & Hl & ->).
    rewrite zlen_slice_to in Hl by lia.
    mbind H r s4 Hsend. destruct r as [e|].
    { (* sendChunk failed: the error is latched and returned *)
      mbind H u0 s5 Hset. mbind H e' s6 Hget. mstep H.
      apply w_setErr_spec in Hset. destruct Hset as [_ Hset].
      apply w_getErr_spec in Hget. destruct Hget as [(_ & _ & _ & Hl56 & _) Hget].
      specialize (Hset e eq_refl).
      destruct (err s5) as [e5|] eqn:E5; [| congruence].
      destruct Hl56 as (Hkeep & _). rewrite (Hkeep e5 E5) in Hget.
      subst e'. discriminate H. }
    assert (Hb3 : w (wr s3) = Some b1) by (rewrite Hw; reflexivity).
    destruct (sendChunk_sent_view _ _ _ _ _ Hsend Hb3)
      as (Hset & Hcidx & (b2 & (Hf1 & Hf2) & Hb4) & Hsent & Honce & _).
    mbind H r s5 Hrec. destruct r as [k e]. destruct e as [e|].
    { mstep H. mstep H. discriminate. }
    mstep H. mstep E. mstep H. inversion H; subst n. clear H.
    assert (Hc3 : cidx (wr s3) = cidx (wr s2)) by (rewrite Hw; reflexivity).
    pose proof (quiet_sent _ _ Hq) as Hs3.
    rewrite Hc3, Hs3 in Hsent. rewrite Hc3 in Hcidx.
    assert (Hw4 : writing cs s4).
    { destruct Hset as (S1 & S2 & S3 & S4 & S5 & S6 & S7).
      rewrite Hw in S3, S4, S5, S6. simpl in S3, S4, S5, S6.
      unfold writing. rewrite S4, S5, S6, S3, Hcidx, Hsent, Hb4.
      split; [exact A1 |]. split; [exact A2 |]. split; [exact A3 |].
      split; [exact A4 |]. split; [exact A5 |].
      split; [rewrite zlen_app, A6; reflexivity |].
      split.
      - apply good_chunks_snoc; simpl.
        + exact A7.
        + lia.
        + subst left. lia.
        + unfold buf_wf. rewrite Hl, Hbytes, zlen_app, <- Hwf.
          rewrite zlen_slice_to by lia. reflexivity.
      - split.
        + exists b2. split; [reflexivity |].
          split; [unfold buf_wf; now rewrite Hf1, Hf2 | rewrite Hf2; auto].
        + pose proof (zlen_nonneg (sent (trace s2))). lia. }
    destruct (IH _ _ _ _ (or_introl Hw4) Hrec) as (Hw5 & _ & -> & Hst5).
    split; [exact Hw5 |]. split; [exact Hcs |]. split.
    + rewrite zlen_slice_to, zlen_slice_from by lia. lia.
    + rewrite Hst5. rewrite <- Hst1, <- Hst2. unfold stream, chunk_data.
      rewrite Hsent, Hb4, Hb, Hf1, chunk_data_snoc. simpl.
      unfold chunk_bytes at 2. simpl. rewrite Hbytes, app_nil_r.
      rewrite <- !app_assoc. f_equal. f_equal. apply slice_split.
Qed.

(* ===================================================================== *)
(* Close                                                                   *)
(* ===================================================================== *)

Lemma retry_events_small size ctype sha1 ue evs :
  retry_events size ctype sha1 ue evs ->
  no_large evs /\ exists u, In (EvUploadFile u size ctype sha1) evs.
Proof.
  induction 1 as [ue | ue u evs H [IH1 (u0 & IH2)]].
  - split; [reflexivity |]. exists ue. now left.
  - split; [exact IH1 |]. exists u0. right. right. exact IH2.
Qed.

(* the single-shot upload: no large-file call is made; when it returns nil
   the file was uploaded with the length of the active buffer, and the
   object handle is set *)
Lemma simpleWriteFile_spec be hz s e s' b :
  simpleWriteFile be hz s = Ret e s' -> w (wr s) = Some b ->
  pool s' = pool s /\ err s' = err s
  /\ (wr s' = wr s \/ exists f, wr s' = set_o_f (Some f) (wr s))
  /\ exists evs,
       trace s' = trace s ++ evs /\ no_large evs
       /\ (e = None ->
           o_f (wr s') <> None
           /\ exists ue ctype sha1, In (EvUploadFile ue (buf_Len b) ctype sha1) evs).
Proof.
  unfold simpleWriteFile. intros H Hb. mbind H c s1 Hc. mstep Hc. simpl in H.
  destruct (getUploadURL be (tick s)) as [e0|].
  - mstep H. simpl. split; [reflexivity |]. split; [reflexivity |].
    split; [left; reflexivity |].
    exists []. rewrite app_nil_r. split; [reflexivity |]. split; [reflexivity |].
    discriminate.
  - mstep H. mstep E. mstep H. mstep E. simpl in H. rewrite Hb in H.
    mbind H c s1 Hc. mstep Hc. simpl in H.
    destruct (buf_Reader be b _) as [rd | e0].
    + mstep H. mstep E. mbind H r s2 Hr. destruct r as [e1 rd1].
      mstep H. mstep E. mstep H.
      apply uploadFile_redo_spec in Hr.
      destruct Hr as (evs & Ht & Hev & He & Hc & Hp & Hs & Hw). simpl in *.
      destruct (retry_events_small _ _ _ _ _ Hev) as (Hsmall & u & Hin).
      split; [exact Hp |]. split; [exact He |]. split.
      * destruct e1 as [x|]; [left; exact Hw | right; exact Hw].
      * exists (EvGetUploadURL (tick s) :: evs).
        split; [rewrite Ht, <- app_assoc; reflexivity |].
        split; [exact Hsmall |]. intros ->. destruct Hw as (f & Hw).
        split; [rewrite Hw; discriminate |].
        exists u. eexists. eexists. right. exact Hin.
    + mstep H. simpl. split; [reflexivity |]. split; [reflexivity |].
      split; [left; reflexivity |].
      eexists. split; [reflexivity |]. split; [reflexivity | discriminate].
Qed.

(* the end of the large-file path leaves cidx and the chunks sent alone *)
Lemma finish_large_spec be hz s u s' :
  finish_large be hz s = Ret u s' ->
  cidx (wr s') = cidx (wr s) /\ sent (trace s') = sent (trace s) /\ later s s'
  /\ (err s' = None -> all_exited s' = true /\ ready (wr s') = Some true).
Proof.
  unfold finish_large. intros H.
  mbind H u1 s1 Hc. unfold close_ready in Hc.
  destruct (ready (wr s)) as [[|]|] eqn:Hr; try discriminate.
  inversion Hc; subst; clear Hc.
  mbind H u2 s2 Hwait. unfold wg_Wait in Hwait. mbind Hwait p s3 Hsync.
  apply sync_point_undisturbed in Hsync.
  destruct (drive be hz all_exited s3) as [s4|] eqn:Hd; [| discriminate].
  inversion Hwait; subst; clear Hwait.
  pose proof (drive_ok _ _ _ _ _ Hd) as Hexit.
  apply drive_undisturbed in Hd.
  pose proof (undisturbed_trans _ _ _ Hsync Hd) as (Hw & Hs & Hp & Hl & _).
  mbind H c s5 Hc. mstep Hc. simpl in H. mstep H. mstep E.
  assert (Hl0 : later s (log EvFinishLargeFile (set_tick (S (tick s2)) s2))).
  { eapply later_trans; [| eapply later_trans; [exact Hl |]].
    - apply later_step with (evs := [EvCloseReady]); simpl; auto.
    - apply later_step with (evs := [EvFinishLargeFile]); simpl; auto. }
  destruct (finishLargeFile be (tick s2)) as [e|].
  - apply w_setErr_spec in H. destruct H as [(Hw' & Hs' & _ & Hl' & _) He].
    rewrite Hw', Hs'. simpl. rewrite sent_app, Hs, Hw. simpl. rewrite sent_app. simpl.
    rewrite !app_nil_r. split; [reflexivity |]. split; [reflexivity |].
    split; [eapply later_trans; eauto |].
    intros Hnone. exfalso. eapply (He e); eauto.
  - mstep H. simpl. rewrite sent_app, Hs, Hw. simpl. rewrite sent_app. simpl.
    rewrite !app_nil_r. split; [reflexivity |]. split; [reflexivity |].
    split; [exact Hl0 |]. intros _. split; [exact Hexit | reflexivity].
Qed.

Lemma Close_deferred_spec s u s' :
  Close_deferred s = Ret u s' ->
  exists b, w (wr s) = Some b /\ s' = log EvRemoveWriter (buf_Close b s).
Proof.
  unfold Close_deferred. intros H. mstep H. mstep E. mbind H u1 s1 Hm.
  destruct (w (wr s)) as [b|] eqn:Hb; [| discriminate].
  mstep Hm. mstep H. exists b. auto.
Qed.

Lemma no_large_sent tr : no_large tr -> sent tr = [].
Proof.
  unfold no_large. induction tr as [|e tr IH]; simpl; [reflexivity |].
  intros H. apply andb_prop in H. destruct H as [He Htr].
  destruct e; simpl in *; try discriminate; auto.
Qed.

Lemma zlen_zero {A} (l : list A) : zlen l = 0 -> l = [].
Proof. unfold zlen. destruct l; simpl; [reflexivity | lia]. Qed.

(* Close on a writer that was written to, when it returns nil: either no
   chunk was sent and the active buffer went up in one uploadFile call, or
   the rest of the stream, if any, was sent as the last chunk *)
Lemma Close_writing be hz cs s s' :
  writing cs s -> 0 < cs -> Close be hz s = Ret None s' ->
  exists b,
    w (wr s) = Some b
    /\ ((cidx (wr s) = 0 /\ sent (trace s') = [] /\ cidx (wr s') = 0
         /\ once (wr s') = false /\ file (wr s') = None /\ pool s' = []
         /\ no_large (trace s') /\ o_f (wr s') <> None
         /\ exists ue ctype sha1, In (EvUploadFile ue (buf_Len b) ctype sha1) (trace s'))
        \/ (0 < cidx (wr s) /\ 0 < buf_Len b
            /\ sent (trace s') = sent (trace s) ++ [mkChunk (cidx (wr s) + 1) b]
            /\ cidx (wr s') = cidx (wr s) + 1)
        \/ (0 < cidx (wr s) /\ buf_Len b = 0
            /\ sent (trace s') = sent (trace s) /\ cidx (wr s') = cidx (wr s))).
Proof.
  intros Hwr Hcs H.
  pose proof Hwr as (A1 & A2 & A3 & A4 & A5 & A6 & A7 & (b & Hb & Hwf & Hlen) & A9).
  exists b. split; [exact Hb |].
  unfold Close in H. mstep H. mstep E. mbind H u s1 Hblock.
  rewrite A3 in Hblock. mstep Hblock. mstep E. rewrite A2 in Hblock. simpl in Hblock.
  mbind Hblock u2 s2 Hbody.
  apply Close_deferred_spec in Hblock. destruct Hblock as (b2 & Hb2 & ->).
  apply w_getErr_spec in H. destruct H as [(Hw3 & Hs3 & Hp3 & Hl3 & _ & Ht3) Herr].
  symmetry in Herr.
  assert (Herr2 : err s2 = None).
  { pose proof (err_none_earlier _ _ Hl3 Herr) as H0. exact H0. }
  simpl in Hw3, Hs3, Hp3, Ht3.
  rewrite !sent_app in Hs3. simpl in Hs3. rewrite !app_nil_r in Hs3.
  destruct (Z.eq_dec (cidx (wr s)) 0) as [Hz | Hnz].
  - left. destruct (A9 Hz) as (Ho & Hpl & Hf & Hnl).
    apply Close_body_single_shot in Hbody; [| exact Hz].
    destruct Hbody as (e & s1 & Hsw & He & (Hw2 & Hs2 & Hp2 & _ & _ & Ht2)).
    destruct e as [e|]; [exfalso; apply He; [discriminate | exact Herr2] |].
    eapply simpleWriteFile_spec in Hsw; [| simpl; exact Hb].
    destruct Hsw as (Hp1 & _ & Hw1 & evs & Ht1 & Hnl1 & Hup).
    destruct (Hup eq_refl) as (Hof & ue & ctype & sha1 & Hin).
    simpl in Hp1, Ht1. rewrite Hpl in Hp1.
    assert (Hpool2 : pool s2 = []) by (eapply pool_nil_length; eauto).
    rewrite (Ht2 Hp1) in Ht3. rewrite Hp2, Hp1 in Hp3.
    assert (Hpool3 : pool s' = []).
    { destruct (pool s'); [reflexivity | discriminate]. }
    rewrite (Ht3 Hpool2), Hw3, Hw2, Ht1.
    assert (Hsent0 : sent (trace s) = []) by (apply zlen_zero; lia).
    assert (Hwr1 : cidx (wr s1) = 0 /\ once (wr s1) = false /\ file (wr s1) = None).
    { destruct Hw1 as [-> | (f & ->)]; simpl; auto. }
    destruct Hwr1 as (Hc1 & Ho1 & Hf1).
    split; [exact Hz |].
    split; [rewrite !sent_app, Hsent0, (no_large_sent _ Hnl1); reflexivity |].
    split; [exact Hc1 |]. split; [exact Ho1 |]. split; [exact Hf1 |].
    split; [exact Hpool3 |].
    split; [repeat apply no_large_app; auto; reflexivity |].
    split; [exact Hof |].
    exists ue, ctype, sha1. rewrite !in_app_iff. left. left. right. exact Hin.
  - right.
    assert (Hpos : 0 < cidx (wr s)) by (pose proof (zlen_nonneg (sent (trace s))); lia).
    unfold Close_body in Hbody. mstep Hbody. mstep E. simpl in Hbody.
    apply Z.eqb_neq in Hnz. rewrite Hnz, Hb in Hbody.
    mbind Hbody r s1 Hsend.
    destruct r as [e|].
    { apply w_setErr_spec in Hbody. destruct Hbody as [_ He].
      exfalso. eapply He; eauto. }
    apply finish_large_spec in Hbody. destruct Hbody as (Hc2 & Hs2 & _).
    rewrite Hw3, Hs3, Hc2, Hs2.
    destruct (0 <? buf_Len b) eqn:Hl.
    + left. apply Z.ltb_lt in Hl.
      eapply sendChunk_sent_view in Hsend; [| simpl; exact Hb].
      destruct Hsend as (_ & Hc1 & _ & Hs1 & _). simpl in Hc1, Hs1.
      split; [exact Hpos |]. split; [exact Hl |]. split; [exact Hs1 | exact Hc1].
    + right. apply Z.ltb_ge in Hl. mstep Hsend. simpl.
      split; [exact Hpos |].
      split; [unfold buf_wf in Hwf; pose proof (zlen_nonneg (buf_bytes b)); lia |].
      split; reflexivity.
Qed.

(* ===================================================================== *)
(* The chunks of a successful upload                                       *)
(* ===================================================================== *)

Lemma Write_spec be hz cs p s n s' :
  writing cs s \/ unstarted cs s ->
  Write be hz p s = Ret (n, None) s' ->
  writing cs s' /\ 0 < cs /\ n = zlen p /\ stream s' = stream s ++ p.
Proof. unfold Write. apply Write_rec_spec. Qed.

Lemma Writes_spec be hz cs : forall ps s rs s',
  writing cs s \/ unstarted cs s ->
  Writes be hz ps s = Ret rs s' ->
  Forall (fun r => snd r = None) rs ->
  (writing cs s' /\ 0 < cs \/ ps = [] /\ s' = s)
  /\ stream s' = stream s ++ concat ps
  /\ map fst rs = map zlen ps.
Proof.
  induction ps as [|p ps IH]; intros s rs s' Hs H Hall; simpl in H.
  - mstep H. split; [right; auto |]. simpl. rewrite app_nil_r. auto.
  - mbind H r s1 Hw. mbind H rs1 s2 Hws. mstep H.
    inversion Hall as [|r0 rs0 Hr Hrs]; subst.
    destruct r as [n e]. simpl in Hr. subst e.
    apply (Write_spec _ _ cs) in Hw; [| exact Hs].
    destruct Hw as (Hw1 & Hcs & Hn & Hst).
    destruct (IH _ _ _ (or_introl Hw1) Hws Hrs) as (Hend & Hst2 & Hns).
    split.
    + left. destruct Hend as [Hend | [_ ->]]; [exact Hend | auto].
    + split; [rewrite Hst2, Hst, <- app_assoc; reflexivity |].
      simpl. rewrite Hn, Hns. reflexivity.
Qed.

(* Close on a writer that was never written to does nothing *)
Lemma Close_unstarted be hz cs s e s' :
  unstarted cs s -> Close be hz s = Ret e s' ->
  sent (trace s') = [] /\ cidx (wr s') = 0 /\ no_large (trace s').
Proof.
  intros (U1 & U2 & U3 & U4 & U5 & U6 & U7 & U8 & U9 & U10 & U11) H.
  unfold Close in H. mstep H. mstep E. mbind H u s1 Hblock.
  rewrite U3 in Hblock. mstep Hblock. mstep E. rewrite U2 in Hblock. simpl in Hblock.
  mstep Hblock.
  apply w_getErr_spec in H. destruct H as [(Hw & Hs & _ & _ & _ & Ht) _].
  simpl in *. rewrite Hw, (Ht U8). simpl. auto.
Qed.

(* n chunks of cs bytes hold n * cs bytes *)
Lemma good_chunks_zlen cs snt :
  good_chunks cs snt -> zlen (concat (map chunk_bytes snt)) = cs * zlen snt.
Proof.
  intros [_ Hall]. induction Hall as [|c snt [Hl Hwf] _ IH]; simpl.
  - unfold zlen. simpl. lia.
  - rewrite zlen_app, IH. unfold chunk_bytes. unfold buf_wf in Hwf.
    rewrite <- Hwf, Hl. unfold zlen. simpl. lia.
Qed.

Lemma threshold_pos chunk : 0 <= chunk -> 0 < threshold chunk.
Proof. unfold threshold. intros H. destruct (chunk =? 0) eqn:E; lia. Qed.

Lemma new_world_unstarted conc resume chunk usefile nm sc :
  unstarted (threshold chunk)
    (new_world (configure conc resume chunk usefile (NewWriter nm)) sc).
Proof. repeat split. Qed.

Lemma ceil_div_full cs n : 0 < cs -> ceil_div (cs * n) cs = n.
Proof.
  intros H. unfold ceil_div. symmetry. apply (Z.div_unique _ _ _ (cs - 1)); lia.
Qed.

Lemma ceil_div_rest cs n r : 0 < r < cs -> ceil_div (cs * n + r) cs = n + 1.
Proof.
  intros H. unfold ceil_div. symmetry. apply (Z.div_unique _ _ _ (r - 1)); lia.
Qed.

(** C1: in an upload whose Writes and whose Close all return a nil error,
    with a chunk size that is not negative, the chunks handed to the upload
    goroutines carry the ids 1, 2, ..., K in the order they were sent, K is
    the final value of cidx, and the bytes of the chunks, in order, are the
    bytes written: every chunk but the last holds exactly csize bytes (csize
    being the chunk size, or 10^8 when it is left at 0).  When the bytes
    written number at least csize, K is the total divided by csize, rounded
    up; when they number less, no chunk is sent, nothing of the large-file
    path happens, and (if Write was called at all) the bytes went up in an
    uploadFile call of their length. *)
Theorem chunk_ids_contiguous be hz sc conc resume chunk usefile nm ps rs s' :
  0 <= chunk ->
  upload be hz ps (new_world (configure conc resume chunk usefile (NewWriter nm)) sc)
  = Ret (rs, None) s' ->
  Forall (fun r => snd r = None) rs ->
  let cs := threshold chunk in
  let total := zlen (concat ps) in
  exists K : nat,
    chunk_ids (trace s') = ids_upto K
    /\ cidx (wr s') = Z.of_nat K
    /\ Forall (fun c => 0 < zlen (chunk_bytes c) <= cs
                        /\ (chunk_id c < Z.of_nat K -> zlen (chunk_bytes c) = cs))
         (sent (trace s'))
    /\ (cs <= total ->
        Z.of_nat K = ceil_div total cs /\ chunk_data (trace s') = concat ps)
    /\ (total < cs ->
        K = 0%nat /\ no_large (trace s')
        /\ (ps <> [] ->
            exists ue ctype sha1, In (EvUploadFile ue total ctype sha1) (trace s'))).
Proof.
  intros Hchunk H Hall cs total.
  pose proof (threshold_pos _ Hchunk) as Hcs. fold cs in Hcs.
  unfold upload in H. mbind H rs0 s1 Hws. mbind H e s2 Hcl. mstep H.
  inversion H; subst rs0 e; clear H.
  eapply (Writes_spec _ _ cs) in Hws;
    [| right; apply new_world_unstarted | exact Hall].
  destruct Hws as (Hend & Hst & _).
  unfold stream at 2 in Hst. simpl in Hst.
  destruct Hend as [[Hw _] | [Hps ->]].
  - pose proof Hw as (A1 & A2 & A3 & A4 & A5 & A6 & A7 & (b0 & Hb0 & Hwf0 & Hlen0) & A9).
    destruct (Close_writing _ _ _ _ _ Hw Hcs Hcl) as (b & Hb & Hcase).
    assert (b0 = b) by congruence. subst b0.
    unfold stream in Hst. rewrite Hb in Hst.
    pose proof (good_chunks_zlen _ _ A7) as Hz.
    assert (Htot : total = cs * cidx (wr s1) + buf_Len b).
    { unfold total. rewrite <- Hst, zlen_app. unfold chunk_data.
      rewrite Hz, A6. unfold buf_wf in Hwf0. lia. }
    specialize (Hlen0 Hcs).
    assert (Hlen1 : 0 <= buf_Len b).
    { unfold buf_wf in Hwf0. rewrite Hwf0. apply zlen_nonneg. }
    pose proof (zlen_nonneg (sent (trace s1))) as Hnn.
    destruct Hcase as [(Hz0 & Hs' & Hc' & _ & _ & _ & Hnl & _ & Hup)
                      | [(Hpos & Hl & Hs' & Hc') | (Hpos & Hl & Hs' & Hc')]].
    + exists 0%nat. unfold chunk_ids, chunk_data. rewrite Hs', Hc'. simpl.
      split; [reflexivity |]. split; [reflexivity |]. split; [constructor |].
      split; [intros Hge; exfalso; nia |].
      intros _. split; [reflexivity |]. split; [exact Hnl |].
      intros _. replace total with (buf_Len b) by nia. exact Hup.
    + exists (S (length (sent (trace s1)))). unfold chunk_ids, chunk_data.
      rewrite Hs', Hc', A6. destruct A7 as [Hids Hfull].
      split; [rewrite map_app, Hids, ids_upto_S; simpl; unfold zlen; repeat f_equal; lia |].
      split; [unfold zlen; lia |].
      split.
      { apply Forall_app. split.
        - eapply Forall_impl; [exact Hfull |]. intros c [Hc Hcw]. simpl.
          unfold chunk_bytes. unfold buf_wf in Hcw. rewrite <- Hcw, Hc. lia.
        - constructor; [| constructor]. simpl. unfold chunk_bytes. simpl.
          unfold buf_wf in Hwf0. rewrite <- Hwf0. unfold zlen in *. lia. }
      split.
      { intros _. split.
        - rewrite Htot, ceil_div_rest by lia. unfold zlen in *. lia.
        - rewrite chunk_data_snoc. exact Hst. }
      intros Hlt. exfalso. nia.
    + exists (length (sent (trace s1))). unfold chunk_ids, chunk_data.
      rewrite Hs', Hc', A6. destruct A7 as [Hids Hfull].
      split; [exact Hids |]. split; [reflexivity |].
      split.
      { eapply Forall_impl; [exact Hfull |]. intros c [Hc Hcw]. simpl.
        unfold chunk_bytes. unfold buf_wf in Hcw. rewrite <- Hcw, Hc. lia. }
      split.
      { intros _. split.
        - rewrite Htot, Hl, Z.add_0_r, ceil_div_full by lia. rewrite A6. reflexivity.
        - rewrite <- Hst. unfold chunk_data.
          destruct b as [mb | fb]; unfold buf_wf in Hwf0; rewrite Hl in Hwf0;
            symmetry in Hwf0; apply zlen_zero in Hwf0; rewrite Hwf0, app_nil_r;
            reflexivity. }
      intros Hlt. exfalso. nia.
  - eapply Close_unstarted in Hcl; [| apply new_world_unstarted].
    destruct Hcl as (Hs' & Hc' & Hnl).
    exists 0%nat. unfold chunk_ids, chunk_data. rewrite Hs', Hc'. simpl.
    split; [reflexivity |]. split; [reflexivity |]. split; [constructor |].
    assert (Ht0 : total = 0) by (unfold total; rewrite Hps; reflexivity).
    split; [intros Hge; lia |].
    intros _. split; [reflexivity |]. split; [exact Hnl |]. congruence.
Qed.

Lemma chunk_ids_contiguous_witness :
  exists rs s',
    upload be_ok 9 [some_bytes 4; some_bytes 3]
      (new_world (configure 2 false 3 false (NewWriter "obj")) [])
    = Ret (rs, None) s'
    /\ chunk_ids (trace s') = [1; 2; 3]
    /\ cidx (wr s') = 3
    /\ chunk_data (trace s') = some_bytes 7.
Proof.
  eexists. eexists. split; [vm_compute; reflexivity |].
  match goal with
  | |- chunk_ids (trace ?s1) = _ /\ _ =>
      destruct (chunk_ids_contiguous be_ok 9 [] 2 false 3 false "obj"
                  [some_bytes 4; some_bytes 3] [(4, None); (3, None)] s1)
        as (K & Hids & Hc & _ & Hge & _)
  end.
  - lia.
  - vm_compute. reflexivity.
  - repeat constructor.
  - destruct Hge as [HK Hd]; [vm_compute; discriminate |].
    change (ceil_div (zlen (concat [some_bytes 4; some_bytes 3])) (threshold 3))
      with 3 in HK.
    assert (K = 3%nat) by lia. subst K.
    split; [exact Hids |]. split; [exact Hc | exact Hd].
Defined.

(* Test vectors *)

Example sha1_abc :
  sha1_hex (list_byte_of_string "abc") = "a9993e364706816aba3e25717850c26c9cd0d89d"%string.
Proof. vm_compute. reflexivity. Qed.

Example sha1_empty :
  sha1_hex [] = "da39a3ee5e6b4b0d3255bfef95601890afd80709"%string.
Proof. vm_compute. reflexivity. Qed.

Example nonBuffer_abc :
  fst <$> read_all 100 7 (newNonBuffer (list_byte_of_string "xxabcyy") 2 3)
  = Some (list_byte_of_string "abca9993e364706816aba3e25717850c26c9cd0d89d", AtEOF).
Proof. vm_compute. reflexivity. Qed.

(* ===================================================================== *)
(* A stream of exactly csize bytes                                         *)
(* ===================================================================== *)

Lemma grows_by_weaken (f g : event -> bool) s s' :
  (forall e, f e = true -> g e = true) -> grows_by f s s' -> grows_by g s s'.
Proof.
  intros Hfg (evs & Ht & Hf). exists evs. split; [exact Ht |].
  rewrite forallb_forall in *. auto.
Qed.

Lemma undisturbed_calm s s' : undisturbed s s' -> grows_by not_upload s s'.
Proof.
  intros (_ & _ & _ & _ & Hg & _). eapply grows_by_weaken; [| exact Hg].
  intros e. destruct e; simpl; congruence.
Qed.

Lemma quiet_calm s s' : quiet s s' -> grows_by not_upload s s'.
Proof.
  intros (_ & _ & _ & _ & _ & evs & Ht & Hn). exists evs. split; [exact Ht |].
  rewrite forallb_forall in *. intros e He. specialize (Hn e He).
  destruct e; simpl in *; congruence.
Qed.

Lemma file_uploads_app tr1 tr2 :
  file_uploads (tr1 ++ tr2) = file_uploads tr1 ++ file_uploads tr2.
Proof.
  induction tr1 as [|e tr1 IH]; simpl; [reflexivity |].
  destruct e; simpl; rewrite ?IH; reflexivity.
Qed.

Lemma calm_file_uploads s s' :
  grows_by not_upload s s' -> file_uploads (trace s') = file_uploads (trace s).
Proof.
  intros (evs & -> & Hn). rewrite file_uploads_app.
  assert (H : file_uploads evs = []).
  { induction evs as [|e evs IH]; simpl in *; [reflexivity |].
    apply andb_prop in Hn. destruct Hn as [He Hn].
    destruct e; simpl in *; try discriminate; auto. }
  rewrite H. apply app_nil_r.
Qed.

Lemma grows_by_In f s s' e : grows_by f s s' -> In e (trace s) -> In e (trace s').
Proof. intros (evs & -> & _) H. apply in_or_app. now left. Qed.

Lemma init_calm be s u s' : init be s = Ret u s' -> grows_by not_upload s s'.
Proof.
  intros H. unfold init in H. mstep H. mstep E.
  destruct (start (wr s)); [mstep H; apply grows_by_refl |].
  do 6 (mstep H; mstep E).
  mbind H v s1 Hg. apply getBuffer_spec in Hg. destruct Hg as [-> Hb].
  destruct v as [b | e].
  - mstep H. grows_step.
  - apply w_setErr_spec in H. destruct H as [Hu _].
    eapply grows_by_trans; [| apply undisturbed_calm; exact Hu]. grows_step.
Qed.

Lemma sendChunk_calm be hz s s' :
  sendChunk be hz s = Ret None s' -> grows_by not_upload s s'.
Proof.
  intros H. apply sendChunk_sent in H.
  destruct H as (s1 & s2 & i & fc & b & b' & Hp & _ & Hu & _ & _ & _ & ->).
  apply promote_spec in Hp.
  assert (H01 : grows_by not_upload s s1).
  { destruct Hp as [(_ & -> & _) | (_ & s0 & x0 & Hq & _ & _ & f & conc & _ & ->)].
    - apply grows_by_refl.
    - eapply grows_by_trans; [apply quiet_calm; exact Hq |]. grows_step. }
  eapply grows_by_trans; [exact H01 |].
  eapply grows_by_trans; [apply undisturbed_calm; exact Hu |]. grows_step.
Qed.

Lemma buf_Write_calm be p s r s' :
  buf_Write be p s = Ret r s' -> grows_by not_upload s s'.
Proof.
  unfold buf_Write. intros H. destruct (w (wr s)) as [[mb | fb]|]; [| | discriminate].
  - destruct (memoryBuffer_Write mb p) as [[n e] mb']. inversion H; subst. grows_step.
  - destruct (fileBuffer_Write _ fb p) as [[n e] fb']. inversion H; subst. grows_step.
Qed.

(* a Write that returns a nil error makes no uploadFile call *)
Lemma Write_rec_calm be hz fuel : forall p s n s',
  Write_rec be hz fuel p s = Ret (n, None) s' -> grows_by not_upload s s'.
Proof.
  induction fuel as [|fuel IH]; intros p s n s' H; simpl in H; [discriminate |].
  mbind H u s1 Hinit. mbind H e s2 Hget.
  apply init_calm in Hinit.
  apply w_getErr_spec in Hget. destruct Hget as [Hu12 ->].
  apply undisturbed_calm in Hu12.
  pose proof (grows_by_trans _ _ _ _ Hinit Hu12) as H02. clear Hinit Hu12.
  destruct (err s2) as [e|]; [mstep H; discriminate |].
  mstep H. mstep E.
  destruct (w (wr s2)) as [b|]; [| discriminate].
  destruct (zlen p <? csize (wr s2) - buf_Len b).
  { apply buf_Write_calm in H. eapply grows_by_trans; eauto. }
  destruct (csize (wr s2) - buf_Len b <? 0); [discriminate |].
  mbind H r s3 Hwr. destruct r as [i e]. apply buf_Write_calm in Hwr.
  destruct e as [e|]; [mstep H; mstep H; discriminate |].
  mbind H r s4 Hsend. destruct r as [e|].
  { mbind H u0 s5 Hset. mbind H e' s6 Hget. mstep H.
    apply w_setErr_spec in Hset. destruct Hset as [_ Hset].
    apply w_getErr_spec in Hget. destruct Hget as [(_ & _ & _ & Hl56 & _) Hget].
    specialize (Hset e eq_refl).
    destruct (err s5) as [e5|] eqn:E5; [| congruence].
    destruct Hl56 as (Hkeep & _). rewrite (Hkeep e5 E5) in Hget.
    subst e'. discriminate H. }
  apply sendChunk_calm in Hsend.
  mbind H r s5 Hrec. destruct r as [k e]. destruct e as [e|].
  { mstep H. mstep H. discriminate. }
  mstep H. mstep E. mstep H.
  apply IH in Hrec.
  eapply grows_by_trans; [exact H02 |].
  eapply grows_by_trans; [exact Hwr |].
  eapply grows_by_trans; [exact Hsend | exact Hrec].
Qed.

Lemma Writes_calm be hz : forall ps s rs s',
  Writes be hz ps s = Ret rs s' -> Forall (fun r => snd r = None) rs ->
  grows_by not_upload s s'.
Proof.
  induction ps as [|p ps IH]; intros s rs s' H Hall; simpl in H.
  - mstep H. apply grows_by_refl.
  - mbind H r s1 Hw. mbind H rs1 s2 Hws. mstep H.
    inversion Hall as [|r0 rs0 Hr Hrs]; subst.
    destruct r as [n e]. simpl in Hr. subst e.
    unfold Write in Hw. apply Write_rec_calm in Hw. eapply grows_by_trans; eauto.
Qed.

(* the end of the large-file path calls finishLargeFile, and not uploadFile *)
Lemma finish_large_calm be hz s u s' :
  finish_large be hz s = Ret u s' ->
  grows_by not_upload s s' /\ In EvFinishLargeFile (trace s').
Proof.
  unfold finish_large. intros H.
  mbind H u1 s1 Hc. unfold close_ready in Hc.
  destruct (ready (wr s)) as [[|]|] eqn:Hr; try discriminate.
  inversion Hc; subst; clear Hc.
  mbind H u2 s2 Hwait. unfold wg_Wait in Hwait. mbind Hwait p s3 Hsync.
  apply sync_point_undisturbed in Hsync.
  destruct (drive be hz all_exited s3) as [s4|] eqn:Hd; [| discriminate].
  inversion Hwait; subst; clear Hwait.
  apply drive_undisturbed in Hd.
  pose proof (undisturbed_calm _ _ (undisturbed_trans _ _ _ Hsync Hd)) as Hc2.
  mbind H c s5 Hc. mstep Hc. simpl in H. mstep H. mstep E.
  assert (Hc3 : grows_by not_upload s (log EvFinishLargeFile (set_tick (S (tick s2)) s2))).
  { eapply grows_by_trans; [| eapply grows_by_trans; [exact Hc2 |]]; grows_step. }
  assert (Hin : In EvFinishLargeFile
                  (trace (log EvFinishLargeFile (set_tick (S (tick s2)) s2)))).
  { simpl. apply in_or_app. right. now left. }
  destruct (finishLargeFile be (tick s2)) as [e|].
  - apply w_setErr_spec in H. destruct H as [Hu _]. apply undisturbed_calm in Hu.
    split; [eapply grows_by_trans; eauto | eapply grows_by_In; eauto].
  - mstep H. split; [exact Hc3 | exact Hin].
Qed.

(* Close after a chunk was sent, when it returns nil: no uploadFile call is
   made and the large file is finished *)
Lemma Close_large_calm be hz cs s s' :
  writing cs s -> cidx (wr s) <> 0 -> Close be hz s = Ret None s' ->
  grows_by not_upload s s' /\ In EvFinishLargeFile (trace s').
Proof.
  intros Hwr Hnz H.
  pose proof Hwr as (A1 & A2 & A3 & A4 & A5 & A6 & A7 & (b & Hb & Hwf & Hlen) & A9).
  unfold Close in H. mstep H. mstep E. mbind H u s1 Hblock.
  rewrite A3 in Hblock. mstep Hblock. mstep E. rewrite A2 in Hblock. simpl in Hblock.
  mbind Hblock u2 s2 Hbody.
  apply Close_deferred_spec in Hblock. destruct Hblock as (b2 & Hb2 & ->).
  apply w_getErr_spec in H. destruct H as [Hu3 Herr].
  symmetry in Herr.
  assert (Herr2 : err s2 = None).
  { destruct Hu3 as (_ & _ & _ & Hl3 & _).
    pose proof (err_none_earlier _ _ Hl3 Herr) as H0. exact H0. }
  apply undisturbed_calm in Hu3.
  unfold Close_body in Hbody. mstep Hbody. mstep E. simpl in Hbody.
  apply Z.eqb_neq in Hnz. rewrite Hnz, Hb in Hbody.
  mbind Hbody r s1 Hsend.
  destruct r as [e|].
  { apply w_setErr_spec in Hbody. destruct Hbody as [_ He].
    exfalso. eapply He; eauto. }
  apply finish_large_calm in Hbody. destruct Hbody as [Hc12 Hin].
  assert (Hc01 : grows_by not_upload (update_wr (set_done true) s) s1).
  { destruct (0 <? buf_Len b).
    - apply sendChunk_calm in Hsend. exact Hsend.
    - mstep Hsend. apply grows_by_refl. }
  split.
  - eapply grows_by_trans; [| exact Hu3].
    eapply grows_by_trans; [| eapply grows_by_trans; [exact Hc12 |]]; [| grows_step].
    eapply grows_by_trans; [| exact Hc01]. grows_step.
  - eapply grows_by_In; [exact Hu3 |]. simpl. rewrite <- app_assoc.
    apply in_or_app. now left.
Qed.

(** X1: in an upload whose Writes and whose Close all return a nil error
    and whose bytes number exactly csize (the chunk size, or 10^8 when it is
    left at 0), the Write that brings the active buffer to csize bytes sends
    it: chunk 1 holds all the bytes written, cidx is 1 at the end of Close,
    no uploadFile call is made, and Close calls finishLargeFile. *)
Theorem exact_chunk_is_sent be hz sc conc resume chunk usefile nm ps rs s' :
  0 <= chunk ->
  upload be hz ps (new_world (configure conc resume chunk usefile (NewWriter nm)) sc)
  = Ret (rs, None) s' ->
  Forall (fun r => snd r = None) rs ->
  zlen (concat ps) = threshold chunk ->
  cidx (wr s') = 1
  /\ (exists c, sent (trace s') = [c] /\ chunk_id c = 1 /\ chunk_bytes c = concat ps)
  /\ file_uploads (trace s') = []
  /\ In EvFinishLargeFile (trace s').
Proof.
  intros Hchunk H Hall Htot.
  set (cs := threshold chunk) in *.
  pose proof (threshold_pos _ Hchunk) as Hcs. fold cs in Hcs.
  unfold upload in H. mbind H rs0 s1 Hws. mbind H e s2 Hcl. mstep H.
  inversion H; subst rs0 e; clear H.
  pose proof (Writes_calm _ _ _ _ _ _ Hws Hall) as Hcalm1.
  eapply (Writes_spec _ _ cs) in Hws;
    [| right; apply new_world_unstarted | exact Hall].
  destruct Hws as (Hend & Hst & _).
  unfold stream at 2 in Hst. simpl in Hst.
  destruct Hend as [[Hw _] | [Hps ->]].
  2:{ rewrite Hps in Htot. unfold zlen in Htot. simpl in Htot. lia. }
  pose proof Hw as (A1 & A2 & A3 & A4 & A5 & A6 & A7 & (b0 & Hb0 & Hwf0 & Hlen0) & A9).
  destruct (Close_writing _ _ _ _ _ Hw Hcs Hcl) as (b & Hb & Hcase).
  assert (b0 = b) by congruence. subst b0.
  unfold stream in Hst. rewrite Hb in Hst.
  pose proof (good_chunks_zlen _ _ A7) as Hz.
  assert (Htot1 : zlen (concat ps) = cs * cidx (wr s1) + buf_Len b).
  { rewrite <- Hst, zlen_app. unfold chunk_data.
    rewrite Hz, A6. unfold buf_wf in Hwf0. lia. }
  rewrite Htot in Htot1.
  specialize (Hlen0 Hcs).
  assert (Hlen1 : 0 <= buf_Len b).
  { unfold buf_wf in Hwf0. rewrite Hwf0. apply zlen_nonneg. }
  pose proof (zlen_nonneg (sent (trace s1))) as Hnn.
  assert (Hone : cidx (wr s1) = 1 /\ buf_Len b = 0) by nia.
  destruct Hone as [Hc1 Hl0].
  destruct Hcase as [(Hz0 & _) | [(_ & Hl & _) | (_ & _ & Hs' & Hc')]]; [lia | lia |].
  assert (Hnz : cidx (wr s1) <> 0) by lia.
  destruct (Close_large_calm _ _ _ _ _ Hw Hnz Hcl) as [Hcalm2 Hfin].
  split; [rewrite Hc'; exact Hc1 |].
  split.
  - rewrite Hs'. destruct A7 as [Hids _].
    destruct (sent (trace s1)) as [|c [|c' l]] eqn:Hsent;
      unfold zlen in A6; simpl in A6; try lia.
    exists c. split; [reflexivity |].
    split; [unfold ids_upto in Hids; simpl in Hids; injection Hids as Hid; exact Hid |].
    rewrite <- Hst. unfold chunk_data. rewrite Hsent. simpl.
    unfold buf_wf in Hwf0. rewrite Hl0 in Hwf0. symmetry in Hwf0.
    apply zlen_zero in Hwf0. rewrite Hwf0, !app_nil_r. reflexivity.
  - split; [| exact Hfin].
    rewrite (calm_file_uploads _ _ Hcalm2), (calm_file_uploads _ _ Hcalm1).
    reflexivity.
Qed.

Lemma exact_chunk_is_sent_witness :
  exists rs s',
    upload be_ok 9 [some_bytes 2; some_bytes 1]
      (new_world (configure 0 false 3 false (NewWriter "obj")) [])
    = Ret (rs, None) s'
    /\ cidx (wr s') = 1
    /\ file_uploads (trace s') = [].
Proof.
  eexists. eexists. split; [vm_compute; reflexivity |].
  match goal with
  | |- cidx (wr ?s1) = _ /\ _ =>
      destruct (exact_chunk_is_sent be_ok 9 [] 0 false 3 false "obj"
                  [some_bytes 2; some_bytes 1] [(2, None); (1, None)] s1)
        as (Hc & _ & Hf & _)
  end.
  - lia.
  - vm_compute. reflexivity.
  - repeat constructor.
  - vm_compute. reflexivity.
  - split; [exact Hc | exact Hf].
Defined.


(* ===================================================================== *)
(* Write and Close at the edges                                            *)
(* ===================================================================== *)

(* while no goroutine has been started, what the schedule does before a
   point of synchronisation changes neither the latch nor the trace *)
Lemma run_acts_no_threads be l : forall s,
  pool s = [] ->
  let s' := fold_left (fun s a => run_act be a s) l s in
  pool s' = [] /\ err s' = err s /\ wr s' = wr s /\ trace s' = trace s
  /\ smap s' = smap s /\ tick s' = tick s.
Proof.
  induction l as [|a l IH]; intros s Hp; simpl; [repeat split; assumption |].
  assert (Ha : pool (run_act be a s) = [] /\ err (run_act be a s) = err s
               /\ wr (run_act be a s) = wr s /\ trace (run_act be a s) = trace s
               /\ smap (run_act be a s) = smap s /\ tick (run_act be a s) = tick s).
  { destruct a as [i |]; simpl.
    - rewrite thread_step_no_thread by exact Hp. repeat split; assumption.
    - rewrite cancel_pool, cancel_err, cancel_wr, cancel_trace, cancel_smap, cancel_tick.
      repeat split; assumption. }
  destruct Ha as (A1 & A2 & A3 & A4 & A5 & A6).
  destruct (IH _ A1) as (B1 & B2 & B3 & B4 & B5 & B6).
  repeat split; congruence.
Qed.

Lemma sync_point_no_threads be s :
  pool s = [] ->
  exists p s', sync_point be s = Ret p s'
    /\ pool s' = [] /\ err s' = err s /\ wr s' = wr s /\ trace s' = trace s
    /\ smap s' = smap s /\ tick s' = tick s.
Proof.
  intros Hp. unfold sync_point. destruct (sched s) as [|sp rest].
  - exists None, s. repeat split; assumption.
  - eexists. eexists. split; [reflexivity |].
    apply (run_acts_no_threads be (acts sp) (set_sched rest s)). exact Hp.
Qed.

Lemma w_getErr_no_threads be s :
  pool s = [] ->
  exists s', w_getErr be s = Ret (err s) s'
    /\ pool s' = [] /\ err s' = err s /\ wr s' = wr s /\ trace s' = trace s
    /\ smap s' = smap s /\ tick s' = tick s.
Proof.
  intros Hp. destruct (sync_point_no_threads be s Hp) as (p & s' & H & A1 & A2 & A).
  exists s'. split; [| split; [exact A1 | split; [exact A2 | exact A]]].
  unfold w_getErr, bind. rewrite H. unfold get, ret, getErr. rewrite A2. reflexivity.
Qed.

(* Close on a Writer that was never written to *)
Lemma Close_new_world be hz sc conc resume chunk usefile nm :
  exists s',
    Close be hz (new_world (configure conc resume chunk usefile (NewWriter nm)) sc)
    = Ret None s'
    /\ trace s' = []
    /\ tick s' = 0%nat
    /\ smap s' = ∅
    /\ wr s' = set_done true (configure conc resume chunk usefile (NewWriter nm)).
Proof.
  set (x := configure conc resume chunk usefile (NewWriter nm)).
  destruct (w_getErr_no_threads be (update_wr (set_done true) (new_world x sc)) eq_refl)
    as (s' & H & _ & _ & Hw & Ht & Hs & Hk).
  exists s'. split.
  - unfold Close, bind at 1, get. unfold bind at 1. simpl. exact H.
  - auto.
Qed.

(** X3: Close on a Writer that was never written to makes no call to the
    backend and returns nil, whatever the other settings and whatever the
    caller's context does meanwhile: nothing is uploaded, not even an empty
    file. *)
Theorem Close_never_written be hz sc conc resume chunk usefile nm :
  exists s',
    Close be hz (new_world (configure conc resume chunk usefile (NewWriter nm)) sc)
    = Ret None s'
    /\ trace s' = []
    /\ tick s' = 0%nat
    /\ smap s' = ∅
    /\ wr s' = set_done true (configure conc resume chunk usefile (NewWriter nm)).
Proof. apply Close_new_world. Qed.

(** X4: a second Close does nothing of its own: on a Writer whose Close has
    run (done is set) Close returns what the latch holds at that moment,
    and the writer's fields are unchanged; the only events are those of
    upload goroutines that are still running. *)
Theorem Close_again be hz s :
  done (wr s) = true ->
  exists s',
    Close be hz s = Ret (err s') s'
    /\ wr s' = wr s
    /\ grows_by by_thread s s'
    /\ (pool s = [] -> trace s' = trace s /\ err s' = err s).
Proof.
  intros Hd. destruct (w_getErr_returns be s) as (s' & H & (Hw & _ & _ & _ & Hg & Ht)).
  exists s'. split; [| split; [exact Hw | split; [exact Hg |]]].
  - unfold Close, bind at 1, get. rewrite Hd. unfold bind at 1, ret at 1. exact H.
  - intros Hp. split; [exact (Ht Hp) |].
    destruct (w_getErr_no_threads be s Hp) as (s2 & H2 & _ & He & _).
    rewrite H in H2. injection H2 as _ Hs. rewrite <- Hs in He. exact He.
Qed.

Lemma Close_again_witness :
  let s1 := update_wr (set_done true) (new_world (NewWriter "obj") []) in
  exists s2,
    Close be_ok 9 (new_world (NewWriter "obj") []) = Ret None s1
    /\ Close be_ok 9 s1 = Ret None s2
    /\ wr s2 = wr s1.
Proof.
  intros s1. destruct (Close_again be_ok 9 s1) as (s2 & H & Hw & _ & Hp).
  - reflexivity.
  - exists s2. split; [vm_compute; reflexivity |].
    destruct (Hp eq_refl) as [_ He]. rewrite He in H. split; [exact H | exact Hw].
Defined.

(** X5: with a negative ChunkSize and the in-memory buffer, the first Write
    panics whatever slice it is given, the empty one included: the room
    left in the buffer is negative, and the slice expression p[:left] is out
    of range. *)
Theorem Write_negative_ChunkSize_panics be hz sc conc resume chunk nm p :
  chunk < 0 ->
  exists s',
    Write be hz p (new_world (configure conc resume chunk false (NewWriter nm)) sc)
    = Panic s'.
Proof.
  intros Hneg.
  set (s0 := new_world (configure conc resume chunk false (NewWriter nm)) sc).
  assert (Hinit : exists s1, init be s0 = Ret tt s1 /\ pool s1 = [] /\ err s1 = None
                   /\ csize (wr s1) = chunk
                   /\ w (wr s1) = Some (MemBuf (newMemoryBuffer 0))).
  { assert (E : (chunk =? 0) = false) by (apply Z.eqb_neq; lia).
    eexists. split.
    - unfold init, s0. unfold bind, get, modify, getBuffer. simpl.
      rewrite E. simpl. reflexivity.
    - simpl. rewrite ?E. simpl. auto. }
  destruct Hinit as (s1 & Hi & Hp1 & He1 & Hc1 & Hw1).
  destruct (w_getErr_no_threads be s1 Hp1) as (s2 & Hg & _ & _ & Hw2 & _).
  exists s2. unfold Write. simpl. unfold bind at 1. rewrite Hi.
  unfold bind at 1. rewrite Hg, He1. unfold bind at 1, get.
  rewrite Hw2, Hw1, Hc1. simpl. unfold memoryBuffer_Len. simpl.
  change (zlen (@nil byte)) with 0. rewrite Z.sub_0_r.
  pose proof (zlen_nonneg p) as Hz.
  assert (E1 : (zlen p <? chunk) = false) by (apply Z.ltb_ge; lia).
  assert (E2 : (chunk <? 0) = true) by (apply Z.ltb_lt; lia).
  rewrite E1, E2. reflexivity.
Qed.

Lemma Write_negative_ChunkSize_panics_witness :
  exists s',
    Write be_ok 9 (some_bytes 3) (new_world (configure 1 false (-5) false (NewWriter "obj")) [])
    = Panic s'.
Proof. apply (Write_negative_ChunkSize_panics be_ok 9 [] 1 false (-5) "obj"). lia. Defined.

(** X6: after Writes that all returned a nil error, each Write has returned
    the length of its slice, and the bytes written are held, in order, by
    the chunks sent followed by the active buffer: with T bytes written,
    exactly T / csize chunks (rounded down) have been sent, numbered from 1,
    and T mod csize bytes wait in the active buffer, which is never left
    holding csize bytes or more. *)
Theorem Writes_fill_chunks be hz sc conc resume chunk usefile nm ps rs s' :
  ps <> [] ->
  Writes be hz ps (new_world (configure conc resume chunk usefile (NewWriter nm)) sc)
  = Ret rs s' ->
  Forall (fun r => snd r = None) rs ->
  let cs := threshold chunk in
  let total := zlen (concat ps) in
  map fst rs = map zlen ps
  /\ 0 < cs
  /\ cidx (wr s') = total / cs
  /\ chunk_ids (trace s') = ids_upto (Z.to_nat (total / cs))
  /\ exists b,
       w (wr s') = Some b /\ buf_Len b = total mod cs
       /\ chunk_data (trace s') ++ buf_bytes b = concat ps.
Proof.
  intros Hne H Hall cs total.
  eapply (Writes_spec _ _ cs) in H; [| right; apply new_world_unstarted | exact Hall].
  destruct H as (Hend & Hst & Hfst).
  destruct Hend as [[Hw Hcs] | [Hps _]]; [| contradiction].
  unfold stream at 2 in Hst. simpl in Hst.
  destruct Hw as (A1 & A2 & A3 & A4 & A5 & A6 & A7 & (b & Hb & Hwf & Hlen) & A9).
  specialize (Hlen Hcs).
  unfold stream in Hst. rewrite Hb in Hst.
  pose proof (good_chunks_zlen _ _ A7) as Hz.
  assert (Hlen0 : 0 <= buf_Len b) by (rewrite Hwf; apply zlen_nonneg).
  assert (Htot : total = cs * cidx (wr s') + buf_Len b).
  { unfold total. rewrite <- Hst, zlen_app. unfold chunk_data.
    rewrite Hz, A6. unfold buf_wf in Hwf. lia. }
  assert (Hdiv : total / cs = cidx (wr s')).
  { symmetry. apply (Z.div_unique _ _ _ (buf_Len b)); [lia | exact Htot]. }
  assert (Hmod : total mod cs = buf_Len b).
  { symmetry. apply (Z.mod_unique _ _ (cidx (wr s'))); [lia | exact Htot]. }
  split; [exact Hfst |]. split; [exact Hcs |]. split; [symmetry; exact Hdiv |].
  split.
  - rewrite Hdiv, A6. unfold zlen. rewrite Nat2Z.id. apply A7.
  - exists b. split; [exact Hb |]. split; [symmetry; exact Hmod | exact Hst].
Qed.

Lemma Writes_fill_chunks_witness :
  exists rs s',
    Writes be_ok 9 [some_bytes 4; some_bytes 3]
      (new_world (configure 2 false 3 false (NewWriter "obj")) [])
    = Ret rs s'
    /\ map fst rs = [4; 3]
    /\ cidx (wr s') = 2
    /\ chunk_ids (trace s') = [1; 2].
Proof.
  eexists. eexists. split; [vm_compute; reflexivity |].
  match goal with
  | |- _ /\ cidx (wr ?s1) = _ /\ _ =>
      destruct (Writes_fill_chunks be_ok 9 [] 2 false 3 false "obj"
                  [some_bytes 4; some_bytes 3] [(4, None); (3, None)] s1)
        as (Hf & _ & Hc & Hi & _)
  end.
  - discriminate.
  - vm_compute. reflexivity.
  - repeat constructor.
  - split; [exact Hf |]. split; [exact Hc | exact Hi].
Defined.

(** X7: Close does not look at the error latch before it finishes a large
    file: when chunks have been sent and the active buffer is empty, a
    Close that returns has called finishLargeFile, whether or not an error
    was latched before or during the call; it returns what the latch holds
    at the end. *)
Theorem Close_finishes_despite_latch be hz s b e s' :
  everStarted (wr s) = true -> done (wr s) = false ->
  cidx (wr s) <> 0 -> w (wr s) = Some b -> buf_Len b <= 0 ->
  Close be hz s = Ret e s' ->
  In EvFinishLargeFile (trace s') /\ e = err s'.
Proof.
  intros A2 A3 Hnz Hb Hlen H.
  unfold Close in H. mstep H. mstep E. mbind H u s1 Hblock.
  rewrite A3 in Hblock. mstep Hblock. mstep E. rewrite A2 in Hblock. simpl in Hblock.
  mbind Hblock u2 s2 Hbody.
  apply Close_deferred_spec in Hblock. destruct Hblock as (b2 & Hb2 & ->).
  apply w_getErr_spec in H. destruct H as [Hu3 Herr].
  split; [| exact Herr].
  unfold Close_body in Hbody. mstep Hbody. mstep E. simpl in Hbody.
  apply Z.eqb_neq in Hnz. rewrite Hnz, Hb in Hbody.
  assert (El : (0 <? buf_Len b) = false) by (apply Z.ltb_ge; exact Hlen).
  rewrite El in Hbody. mbind Hbody r s1 Hsend. mstep Hsend.
  apply finish_large_calm in Hbody. destruct Hbody as [_ Hin].
  destruct Hu3 as (_ & _ & _ & _ & Hg & _).
  eapply grows_by_In; [exact Hg |]. simpl. rewrite <- app_assoc.
  apply in_or_app. now left.
Qed.

(* a Write of one chunk whose part upload fails, the failure being latched
   before the Write returns; then Close *)
Lemma Close_finishes_despite_latch_witness :
  exists s1 s2,
    Write be_broken_part 9 (some_bytes 3)
      (new_world (configure 1 false 3 false (NewWriter "obj"))
         [mkSync [] None; mkSync [] None; mkSync [Step 0; Step 0] None])
    = Ret (3, Some (ErrBackend 500)) s1
    /\ err s1 = Some (ErrBackend 500)
    /\ Close be_broken_part 9 s1 = Ret (Some (ErrBackend 500)) s2
    /\ In EvFinishLargeFile (trace s2).
Proof.
  eexists. eexists. split; [vm_compute; reflexivity |].
  match goal with
  | |- err ?s1 = _ /\ _ =>
      split; [reflexivity |]; split; [vm_compute; reflexivity |];
      match goal with
      | |- In _ (trace ?s2) =>
          refine (proj1 (Close_finishes_despite_latch be_broken_part 9 s1
                           (MemBuf (newMemoryBuffer 3)) (Some (ErrBackend 500)) s2
                           _ _ _ _ _ _))
      end
  end.
  - reflexivity.
  - reflexivity.
  - vm_compute. discriminate.
  - reflexivity.
  - vm_compute. discriminate.
  - vm_compute. reflexivity.
Defined.

(** X8: a failure of the buffer is latched only when the slice fills the
    buffer.  When the slice fits below the threshold and the write to the
    temporary file fails after k bytes, Write returns that count and the
    error, but the latch stays empty: the k bytes remain in the buffer and
    are counted by Len, while the hash has not absorbed them, and the next
    Write goes on as if nothing had happened. *)
Theorem Write_fitting_failure_not_latched be hz p s fb k e0 :
  start (wr s) = true -> sched s = [] -> err s = None ->
  w (wr s) = Some (FileBuf fb) ->
  zlen p < csize (wr s) - fb_s fb ->
  file_Write be (tick s) (length p) = Some (k, e0) ->
  exists s',
    Write be hz p s = Ret (zlen (firstn k p), Some e0) s'
    /\ err s' = None
    /\ w (wr s')
       = Some (FileBuf (mkFileBuffer (fb_id fb) (fb_f fb ++ firstn k p) (fb_hsh fb)
                          (fb_s fb + zlen (firstn k p)))).
Proof.
  intros Hstart Hsched Herr Hw Hfit Hfail.
  eexists. split.
  - unfold Write. simpl. unfold bind at 1. unfold init, bind at 1, get.
    rewrite Hstart. unfold ret at 1. unfold bind at 1.
    unfold w_getErr, bind at 1, sync_point. rewrite Hsched.
    unfold bind at 1, get, ret at 1, getErr. rewrite Herr.
    unfold bind at 1. rewrite Hw. simpl. unfold fileBuffer_Len.
    apply Z.ltb_lt in Hfit. rewrite Hfit.
    unfold buf_Write. rewrite Hw, Hfail. simpl. reflexivity.
  - simpl. split; [exact Herr | reflexivity].
Qed.

Lemma Write_fitting_failure_not_latched_witness :
  exists s1,
    Write be_ok 9 [] (new_world (configure 1 false 10 true (NewWriter "obj")) [])
    = Ret (0, None) s1
    /\ exists s2,
         Write be_disk_full 9 (some_bytes 3) s1 = Ret (1, Some (ErrIO 28)) s2
         /\ err s2 = None
         /\ option_map buf_Len (w (wr s2)) = Some 1
         /\ option_map buf_Hash (w (wr s2)) = Some (sha1_hex []).
Proof.
  eexists. split; [vm_compute; reflexivity |].
  match goal with
  | |- exists s2, Write _ _ _ ?s1 = _ /\ _ =>
      destruct (Write_fitting_failure_not_latched be_disk_full 9 (some_bytes 3) s1
                  (mkFileBuffer 0 [] sha1_New 0) 1 (ErrIO 28))
        as (s2 & H & He & Hb)
  end; try reflexivity.
  exists s2. split; [exact H |]. split; [exact He |].
  rewrite Hb. split; [reflexivity | vm_compute; reflexivity].
Defined.

(* the second Write after a part upload has failed *)
Lemma Write_after_latch_witness :
  exists s1,
    Write be_broken_part 9 (some_bytes 3)
      (new_world (configure 1 false 3 false (NewWriter "obj"))
         [mkSync [] None; mkSync [] None; mkSync [Step 0; Step 0] None])
    = Ret (3, Some (ErrBackend 500)) s1
    /\ exists s2,
         Write be_broken_part 9 (some_bytes 2) s1 = Ret (0, Some (ErrBackend 500)) s2
         /\ wr s2 = wr s1.
Proof.
  eexists. split; [vm_compute; reflexivity |].
  match goal with
  | |- exists s2, Write _ _ _ ?s1 = _ /\ _ =>
      destruct (Write_after_latch be_broken_part 9 (some_bytes 2) s1 (ErrBackend 500))
        as (s2 & H & Hw & _)
  end; try reflexivity.
  exists s2. split; [exact H | exact Hw].
Defined.

(** X13: the error latch keeps the first error.  After any sequence of
    setErr calls the latch holds the error it held before, if any, and
    otherwise the first non-nil error of the sequence; nil errors change
    nothing; and when the sequence latches an error the writer's context
    is cancelled. *)
Theorem setErr_first_wins (es : list (option error)) (s : World) :
  let s' := fold_left (fun s e => setErr e s) es s in
  err s' = match err s with
           | Some e => Some e
           | None => first_error es
           end
  /\ (first_error es = None -> s' = s)
  /\ (err s = None -> first_error es <> None -> ctx s' <> None).
Proof.
  revert s. induction es as [|e es IH]; intros s; simpl.
  - split; [destruct (err s); reflexivity |]. split; [reflexivity | congruence].
  - destruct (IH (setErr e s)) as (I1 & I2 & I3).
    destruct e as [e|].
    + destruct (err s) as [e0|] eqn:E.
      * rewrite (setErr_latched _ _ _ E) in *. rewrite E in I1.
        split; [exact I1 |]. split; [discriminate | discriminate].
      * destruct (setErr_first e s E) as [He Hc]. rewrite He in I1.
        split; [exact I1 |]. split; [discriminate |].
        intros _ _.
        assert (Hk : forall l s0, ctx s0 <> None ->
                       ctx (fold_left (fun s e => setErr e s) l s0) <> None).
        { clear. induction l as [|x l IHl]; intros s0 H0; simpl; [exact H0 |].
          apply IHl. destruct (ctx s0) as [c|] eqn:Ec; [| congruence].
          rewrite (setErr_ctx_keeps c x s0 Ec). discriminate. }
        apply Hk. exact Hc.
    + rewrite setErr_nil in *. split; [exact I1 |]. split; [exact I2 | exact I3].
Qed.

Lemma setErr_first_wins_witness :
  let s := new_world (NewWriter "obj") [] in
  let s' := fold_left (fun s e => setErr e s)
              [None; Some (ErrIO 1); Some (ErrBackend 2)] s in
  err s' = Some (ErrIO 1) /\ ctx s' <> None.
Proof.
  intros s s'.
  destruct (setErr_first_wins [None; Some (ErrIO 1); Some (ErrBackend 2)] s)
    as (He & _ & Hc).
  split; [exact He |]. apply Hc; [reflexivity | discriminate].
Defined.

(* ===================================================================== *)
(* The buffers and the readers                                             *)
(* ===================================================================== *)

(* reading a bytes.Reader to the end, from offset n on *)
Lemma bytes_drain (k : nat) (data : list byte) :
  (0 < k)%nat ->
  forall m n fuel,
    (n <= length data)%nat -> (length data - n <= m)%nat -> (m < fuel)%nat ->
    read_all fuel k (mkBytesReader data (Z.of_nat n))
    = Some (skipn n data, AtEOF, mkBytesReader data (Z.of_nat (length data))).
Proof.
  intros Hk. induction m as [|m IH]; intros n fuel Hn Hm Hf;
    (destruct fuel as [|fuel]; [lia |]); simpl;
    unfold bytesReader_Read; simpl; unfold zlen;
    destruct (Z.leb_spec (Z.of_nat (length data)) (Z.of_nat n)); try lia.
  - assert (n = length data) by lia. subst n. rewrite skipn_all. reflexivity.
  - assert (n = length data) by lia. subst n. rewrite skipn_all. reflexivity.
  - unfold copy_from, slice_from. rewrite Nat2Z.id. simpl.
    set (b := firstn k (skipn n data)).
    assert (Hb : length b = Nat.min k (length data - n)).
    { subst b. rewrite length_firstn, length_skipn. reflexivity. }
    replace (Z.of_nat n + Z.of_nat (length b)) with (Z.of_nat (n + length b)) by lia.
    rewrite (IH (n + length b)%nat fuel) by lia.
    do 2 f_equal. f_equal. rewrite Nat.add_comm, <- skipn_skipn. subst b.
    apply firstn_skipn_length.
Qed.

Lemma memoryBuffer_Writes_spec ps : forall mb,
  mb_id (memoryBuffer_Writes mb ps) = mb_id mb
  /\ mb_buf (memoryBuffer_Writes mb ps) = mb_buf mb ++ concat ps
  /\ mb_hsh (memoryBuffer_Writes mb ps) = mb_hsh mb ++ concat ps.
Proof.
  induction ps as [|p ps IH]; intros mb.
  - simpl. rewrite !app_nil_r. auto.
  - change (memoryBuffer_Writes mb (p :: ps))
      with (memoryBuffer_Writes (snd (memoryBuffer_Write mb p)) ps).
    destruct (IH (snd (memoryBuffer_Write mb p))) as (I1 & I2 & I3).
    rewrite I1, I2, I3. simpl. unfold Hash_Write. rewrite <- !app_assoc. auto.
Qed.

(** X9: the in-memory buffer gives back what was written to it.  After any
    sequence of Writes to a new memoryBuffer (each of which takes all of
    its slice), Len is the number of bytes written, Hash is the SHA-1 of
    their concatenation in hexadecimal, and a reader obtained from Reader
    delivers exactly those bytes, in order, and then io.EOF. *)
Theorem memoryBuffer_round_trip (id : nat) (ps : list (list byte)) (k fuel : nat) :
  (0 < k)%nat -> (length (concat ps) < fuel)%nat ->
  let mb := memoryBuffer_Writes (newMemoryBuffer id) ps in
  memoryBuffer_Len mb = zlen (concat ps)
  /\ memoryBuffer_Hash mb = sha1_hex (concat ps)
  /\ (forall m p, memoryBuffer_Write m p = (zlen p, None, snd (memoryBuffer_Write m p)))
  /\ exists r,
       read_all fuel k (memoryBuffer_Reader mb) = Some (concat ps, AtEOF, r).
Proof.
  intros Hk Hf mb.
  destruct (memoryBuffer_Writes_spec ps (newMemoryBuffer id)) as (_ & Hb & Hh).
  simpl in Hb, Hh. fold mb in Hb, Hh.
  split; [unfold memoryBuffer_Len; rewrite Hb; reflexivity |].
  split; [unfold memoryBuffer_Hash, Hash_Sum, sha1_hex; rewrite Hh; reflexivity |].
  split; [reflexivity |].
  eexists. unfold memoryBuffer_Reader. rewrite Hb.
  apply (bytes_drain k (concat ps) Hk (length (concat ps)) 0%nat fuel); lia.
Qed.

Lemma memoryBuffer_round_trip_witness :
  let mb := memoryBuffer_Writes (newMemoryBuffer 0) [some_bytes 2; some_bytes 1] in
  memoryBuffer_Len mb = 3
  /\ exists r, read_all 4 2 (memoryBuffer_Reader mb) = Some (some_bytes 3, AtEOF, r).
Proof.
  intros mb.
  destruct (memoryBuffer_round_trip 0 [some_bytes 2; some_bytes 1] 2 4)
    as (Hl & _ & _ & r & Hr).
  - lia.
  - simpl. lia.
  - split; [exact Hl | exists r; exact Hr].
Defined.

Lemma fileBuffer_Writes_spec ws : forall fb,
  fb_id (fileBuffer_Writes fb ws) = fb_id fb
  /\ fb_f (fileBuffer_Writes fb ws) = fb_f fb ++ concat (map reached_file ws)
  /\ fb_hsh (fileBuffer_Writes fb ws) = fb_hsh fb ++ concat (map reached_hash ws)
  /\ fb_s (fileBuffer_Writes fb ws) = fb_s fb + zlen (concat (map reached_file ws)).
Proof.
  induction ws as [|[p fail] ws IH]; intros fb.
  - simpl. rewrite !app_nil_r. unfold zlen. simpl. rewrite Z.add_0_r. auto.
  - change (fileBuffer_Writes fb ((p, fail) :: ws))
      with (fileBuffer_Writes (snd (fileBuffer_Write fail fb p)) ws).
    destruct (IH (snd (fileBuffer_Write fail fb p))) as (I1 & I2 & I3 & I4).
    rewrite I1, I2, I3, I4.
    destruct fail as [[n e]|];
      cbn [map concat reached_file reached_hash fst snd fileBuffer_Write
           fb_f fb_hsh fb_s fb_id app];
      unfold Hash_Write; rewrite <- ?app_assoc, ?zlen_app;
      (split; [reflexivity | split; [reflexivity | split; [reflexivity | lia]]]).
Qed.

(** X10: the file buffer counts what the file holds, but hashes only the
    slices written in full.  After any sequence of Writes to a new
    fileBuffer, some of which may fail part-way, the file holds the bytes
    that each write got through, Len is their number, and Hash is the
    SHA-1 of the slices whose write succeeded; so Hash describes the
    content of the file exactly when no write has failed (or the failed
    ones wrote nothing). *)
Theorem fileBuffer_Writes_account (id : nat) (ws : list (list byte * option (nat * error))) :
  let fb := fileBuffer_Writes (mkFileBuffer id [] sha1_New 0) ws in
  fb_f fb = concat (map reached_file ws)
  /\ fileBuffer_Len fb = zlen (fb_f fb)
  /\ fileBuffer_Hash fb = sha1_hex (concat (map reached_hash ws))
  /\ (Forall (fun w => snd w = None) ws ->
      fb_f fb = concat (map fst ws) /\ fileBuffer_Hash fb = sha1_hex (fb_f fb)).
Proof.
  intros fb.
  destruct (fileBuffer_Writes_spec ws (mkFileBuffer id [] sha1_New 0)) as (_ & Hf & Hh & Hs).
  simpl in Hf, Hh, Hs. fold fb in Hf, Hh, Hs.
  split; [exact Hf |].
  split; [unfold fileBuffer_Len; rewrite Hs, Hf; reflexivity |].
  split; [unfold fileBuffer_Hash, Hash_Sum, sha1_hex; rewrite Hh; reflexivity |].
  intros Hall.
  assert (E : map reached_file ws = map fst ws /\ map reached_hash ws = map fst ws).
  { clear - Hall. induction Hall as [|[p fail] ws0 Hw _ IH]; simpl; [auto |].
    simpl in Hw. subst fail. destruct IH as [-> ->]. auto. }
  destruct E as [E1 E2].
  split; [rewrite Hf, E1; reflexivity |].
  unfold fileBuffer_Hash, Hash_Sum, sha1_hex. rewrite Hh, Hf, E1, E2. reflexivity.
Qed.

Lemma fileBuffer_Writes_account_witness :
  let fb := fileBuffer_Writes (mkFileBuffer 0 [] sha1_New 0)
              [(some_bytes 2, None); (some_bytes 3, Some (1%nat, ErrIO 28))] in
  fb_f fb = some_bytes 3
  /\ fileBuffer_Len fb = 3
  /\ fileBuffer_Hash fb = sha1_hex (some_bytes 2).
Proof.
  intros fb.
  destruct (fileBuffer_Writes_account 0
              [(some_bytes 2, None); (some_bytes 3, Some (1%nat, ErrIO 28))])
    as (Hf & Hl & Hh & _).
  split; [exact Hf |]. split; [| exact Hh].
  etransitivity; [exact Hl |]. reflexivity.
Defined.

(* the hashReader once its source is exhausted: it reads its suffix *)
Lemma hashReader_tail (k : nat) (h : Hash_t) (r : bytesReader) :
  forall fuel buf bs st buf',
    read_all fuel k buf = Some (bs, st, buf') ->
    read_all fuel k (mkHashReader h r true (Some buf))
    = Some (bs, st, mkHashReader h r true (Some buf')).
Proof.
  induction fuel as [|fuel IH]; intros buf bs st buf' H; simpl in *.
  - inversion H; subst. reflexivity.
  - unfold hashReader_Read. simpl.
    destruct (bytesReader_Read buf k) as [[b e] buf1].
    destruct e as [e|].
    + destruct e; inversion H; subst; reflexivity.
    + destruct (read_all fuel k buf1) as [[[bs1 st1] buf2]|] eqn:E; [| discriminate].
      inversion H; subst. rewrite (IH _ _ _ _ E). reflexivity.
Qed.

Lemma hex_suffix_length msg : length (hex_suffix msg) = 40%nat.
Proof. unfold hex_suffix. rewrite length_list_byte_of_string. apply sha1_hex_length. Qed.

(* the hashReader from offset n of its source on: the rest of the source,
   then the suffix for what the hash has absorbed *)
Lemma hashReader_drain (k : nat) (data : list byte) :
  (0 < k)%nat ->
  forall m n fuel h buf,
    (n <= length data)%nat -> (length data - n <= m)%nat -> (m + 41 < fuel)%nat ->
    read_all fuel k (mkHashReader h (mkBytesReader data (Z.of_nat n)) false buf)
    = Some (skipn n data ++ hex_suffix (h ++ skipn n data), AtEOF,
            mkHashReader (h ++ skipn n data)
              (mkBytesReader data (Z.of_nat n + Z.of_nat (length data - n))) true
              (Some (mkBytesReader (hex_suffix (h ++ skipn n data)) 40))).
Proof.
  intros Hk. induction m as [|m IH]; intros n fuel h buf Hn Hm Hf;
    (destruct fuel as [|fuel]; [lia |]);
    cbn [read_all Read hashReader_ReadSeeker];
    unfold hashReader_Read; cbn [hr_isEOF hr_r hr_h hr_buf];
    unfold TeeReader_Read; cbn [Read bytesReader_ReadSeeker];
    unfold bytesReader_Read; cbn [br_s br_i]; unfold zlen;
    destruct (Z.leb_spec (Z.of_nat (length data)) (Z.of_nat n)); try lia.
  - assert (n = length data) by lia. subst n.
    cbn [length Nat.ltb Nat.leb]. rewrite skipn_all, Nat.sub_diag, app_nil_r.
    destruct (decide (Some EOF = Some EOF)) as [_ | Hne]; [| congruence].
    unfold Hash_Sum. fold (sha1_hex h). fold (hex_suffix h).
    rewrite (hashReader_tail k h _ fuel _ (hex_suffix h) AtEOF
               (mkBytesReader (hex_suffix h) (Z.of_nat (length (hex_suffix h))))).
    + rewrite hex_suffix_length. simpl. rewrite Z.add_0_r. reflexivity.
    + apply (bytes_drain k (hex_suffix h) Hk 40 0%nat fuel);
        rewrite ?hex_suffix_length; lia.
  - assert (n = length data) by lia. subst n.
    cbn [length Nat.ltb Nat.leb]. rewrite skipn_all, Nat.sub_diag, app_nil_r.
    destruct (decide (Some EOF = Some EOF)) as [_ | Hne]; [| congruence].
    unfold Hash_Sum. fold (sha1_hex h). fold (hex_suffix h).
    rewrite (hashReader_tail k h _ fuel _ (hex_suffix h) AtEOF
               (mkBytesReader (hex_suffix h) (Z.of_nat (length (hex_suffix h))))).
    + rewrite hex_suffix_length. simpl. rewrite Z.add_0_r. reflexivity.
    + apply (bytes_drain k (hex_suffix h) Hk 40 0%nat fuel);
        rewrite ?hex_suffix_length; lia.
  - unfold copy_from, slice_from. rewrite Nat2Z.id.
    set (b := firstn k (skipn n data)).
    assert (Hb : length b = Nat.min k (length data - n)).
    { subst b. rewrite length_firstn, length_skipn. reflexivity. }
    assert (Hpos : (0 <? length b)%nat = true) by (apply Nat.ltb_lt; lia).
    rewrite Hpos.
    destruct (decide (@None error = Some EOF)) as [Hne | _]; [discriminate |].
    unfold zlen.
    replace (Z.of_nat n + Z.of_nat (length b)) with (Z.of_nat (n + length b)) by lia.
    rewrite (IH (n + length b)%nat fuel) by lia.
    assert (Hsk : b ++ skipn (n + length b) data = skipn n data).
    { rewrite Nat.add_comm, <- skipn_skipn. subst b. apply firstn_skipn_length. }
    unfold Hash_Write. rewrite <- !app_assoc, Hsk.
    rewrite app_assoc, Hsk.
    do 2 f_equal. f_equal. f_equal. lia.
Qed.

(** X11: Seek on a hashReader starts it afresh, whatever it has read
    before: after Seek(off, io.SeekStart) the reader delivers the source
    from off on, followed by the 40 hexadecimal digits of the SHA-1 of
    exactly those bytes, then io.EOF.  With off = 0 this is the whole source
    and its hash; with another offset the digits are the hash of the tail
    only, not of the source. *)
Theorem hashReader_restart (hr : hashReader bytesReader) (off k fuel : nat) :
  let data := br_s (hr_r hr) in
  (off <= length data)%nat -> (0 < k)%nat -> (length data + 42 < fuel)%nat ->
  exists hr1,
    Seek hr (Z.of_nat off) SeekStart = Some (Z.of_nat off, None, hr1)
    /\ hr_isEOF hr1 = false
    /\ exists hr2,
         read_all fuel k hr1
         = Some (skipn off data ++ hex_suffix (skipn off data), AtEOF, hr2)
         /\ hr_isEOF hr2 = true.
Proof.
  intros data Hoff Hk Hf.
  destruct hr as [h [s i] e buf]. simpl in data. subst data.
  eexists. split.
  - cbn [Seek hashReader_ReadSeeker]. unfold hashReader_Seek.
    cbn [Seek bytesReader_ReadSeeker hr_r]. unfold bytesReader_Seek.
    cbn [br_s br_i]. unfold SeekStart. simpl (negb _).
    assert (E : (Z.of_nat off <? 0) = false) by (apply Z.ltb_ge; lia).
    simpl. rewrite E. reflexivity.
  - split; [reflexivity |]. eexists. split.
    + apply (hashReader_drain k s Hk (length s) off fuel); lia.
    + reflexivity.
Qed.

Lemma hashReader_restart_witness :
  let hr := mkHashReader (some_bytes 5) (mkBytesReader (some_bytes 3) 2) true None in
  exists hr1 hr2,
    Seek hr 0 SeekStart = Some (0, None, hr1)
    /\ read_all 50 8 hr1 = Some (some_bytes 3 ++ hex_suffix (some_bytes 3), AtEOF, hr2).
Proof.
  intros hr.
  destruct (hashReader_restart hr 0 8 50) as (hr1 & Hs & _ & hr2 & Hr & _).
  - simpl. lia.
  - lia.
  - simpl. lia.
  - exists hr1, hr2. split; [exact Hs | exact Hr].
Defined.

(* reading through a meteredReader adds what is delivered to its counter *)
Lemma metered_read_all {R} `{ReadSeeker R} (k : nat) (size : Z) :
  forall fuel rd (r : R) bs st r',
    read_all fuel k r = Some (bs, st, r') ->
    read_all fuel k (mkMeteredReader rd size r)
    = Some (bs, st, mkMeteredReader (rd + zlen bs) size r').
Proof.
  induction fuel as [|fuel IH]; intros rd r bs st r' Hr; simpl in *.
  - inversion Hr; subst. unfold zlen. simpl. rewrite Z.add_0_r. reflexivity.
  - unfold meteredReader_Read. simpl.
    destruct (Read r k) as [[[b e] r1]|]; [| discriminate].
    destruct e as [e|].
    + destruct e; inversion Hr; subst; reflexivity.
    + destruct (read_all fuel k r1) as [[[bs1 st1] r2]|] eqn:E; [| discriminate].
      inversion Hr; subst. rewrite (IH _ _ _ _ _ E).
      rewrite zlen_app, Z.add_assoc. reflexivity.
Qed.

Lemma src_read_all (k : nat) :
  forall fuel (h : hashReader bytesReader) bs st h',
    read_all fuel k h = Some (bs, st, h') ->
    read_all fuel k (SrcReader h) = Some (bs, st, SrcReader h').
Proof.
  induction fuel as [|fuel IH]; intros h bs st h' Hr; simpl in *.
  - inversion Hr; subst. reflexivity.
  - destruct (hashReader_Read h k) as [[[b e] h1]|]; [| discriminate].
    destruct e as [e|].
    + destruct e; inversion Hr; subst; reflexivity.
    + destruct (read_all fuel k h1) as [[[bs1 st1] h2]|] eqn:E; [| discriminate].
      inversion Hr; subst. rewrite (IH _ _ _ _ E). reflexivity.
Qed.

(** X12: the reader that simpleWriteFromReader gives to uploadFile
    delivers as many bytes as the call declares.  For a source of n bytes
    it declares n + 40; read to the end, the reader yields the n bytes of
    the source followed by the 40 hexadecimal digits of their SHA-1, its
    counter stands at n + 40, and done() is (n + 40) / (n + 40).  After
    Seek(0, io.SeekStart) the counter is 0 and the same bytes are delivered
    again. *)
Theorem source_reader_complete (data : list byte) (k fuel : nat) :
  (0 < k)%nat -> (length data + 42 < fuel)%nat ->
  exists mr1,
    read_all fuel k (source_reader data)
    = Some (data ++ hex_suffix data, AtEOF, mr1)
    /\ zlen (data ++ hex_suffix data) = mr_size (source_reader data)
    /\ mr_read mr1 = zlen data + 40
    /\ meteredReader_done (Some mr1) = F_div (zlen data + 40) (zlen data + 40)
    /\ exists mr2,
         Seek mr1 0 SeekStart = Some (0, None, mr2)
         /\ mr_read mr2 = 0
         /\ exists mr3,
              read_all fuel k mr2 = Some (data ++ hex_suffix data, AtEOF, mr3)
              /\ mr_read mr3 = zlen data + 40.
Proof.
  intros Hk Hf.
  assert (Hlen : zlen (data ++ hex_suffix data) = zlen data + 40).
  { rewrite zlen_app. unfold zlen. rewrite hex_suffix_length. reflexivity. }
  pose proof (hashReader_drain k data Hk (length data) 0%nat fuel sha1_New None
                ltac:(lia) ltac:(lia) ltac:(lia)) as Hd.
  change (skipn 0 data) with data in Hd. simpl in Hd.
  apply src_read_all in Hd.
  apply (metered_read_all k (zlen data + 40) fuel 0) in Hd.
  eexists. split; [exact Hd |].
  split; [exact Hlen |].
  split; [simpl; rewrite Hlen; reflexivity |].
  split; [simpl; rewrite Hlen; reflexivity |].
  eexists. split; [reflexivity |]. split; [reflexivity |].
  pose proof (hashReader_drain k data Hk (length data) 0%nat fuel sha1_New
                (Some (mkBytesReader (hex_suffix data) 40))
                ltac:(lia) ltac:(lia) ltac:(lia)) as Hd2.
  change (skipn 0 data) with data in Hd2. simpl in Hd2.
  apply src_read_all in Hd2.
  apply (metered_read_all k (zlen data + 40) fuel 0) in Hd2.
  eexists. split; [exact Hd2 |]. simpl. rewrite Hlen. reflexivity.
Qed.

Lemma source_reader_complete_witness :
  exists mr1,
    read_all 50 16 (source_reader (some_bytes 3))
    = Some (some_bytes 3 ++ hex_suffix (some_bytes 3), AtEOF, mr1)
    /\ mr_read mr1 = 43.
Proof.
  destruct (source_reader_complete (some_bytes 3) 16 50) as (mr1 & Hr & _ & Hc & _).
  - lia.
  - simpl. lia.
  - exists mr1. split; [exact Hr | exact Hc].
Defined.

(* ===================================================================== *)
(* Every call is a sequence of steps                                       *)
(* ===================================================================== *)

(* peel the state changes off the end of the goal *)
Ltac peel :=
  repeat match goal with
  | |- rtc _ ?s ?s => apply rtc_refl
  | |- rtc _ _ (log _ _) => eapply rtc_r; [| apply at_log; reflexivity]
  | |- rtc _ _ (buf_Close _ _) => eapply rtc_r; [| apply at_log; reflexivity]
  | |- rtc _ _ (set_tick _ _) => eapply rtc_r; [| apply at_tick]
  | |- rtc _ _ (set_sched _ _) => eapply rtc_r; [| apply at_sched]
  | |- rtc _ _ (setErr _ _) => eapply rtc_r; [| apply at_setErr]
  | |- rtc _ _ (cancel _) => eapply rtc_r; [| apply at_cancel]
  | |- rtc _ _ (thread_step _ _ _) => eapply rtc_r; [| apply at_thread]
  | |- rtc _ _ (registerChunk _ _ _) => eapply rtc_r; [| apply at_register]
  | |- rtc _ _ (completeChunk _ _) => eapply rtc_r; [| apply at_complete]
  | |- rtc _ _ (set_read _ _ _) => eapply rtc_r; [| apply at_set_read]
  | |- rtc _ _ (set_smap ∅ _) => eapply rtc_r; [| apply at_smap_new]
  | |- rtc _ _ (update_wr _ _) =>
      eapply rtc_r; [| apply at_wr; repeat split; reflexivity]
  end.

Section Steps.

Variable be : Backend.
Variable hz : nat.

Lemma steps_invariant cl (I : World -> Prop) s s' :
  invariant be hz cl I -> rtc (atom be hz cl) s s' -> I s -> I s'.
Proof.
  intros HI H. induction H as [|s1 s2 s3 H12 _ IH]; [auto |].
  intros H1. apply IH. eapply HI; eauto.
Qed.

Lemma atom_closing s s' : atom be hz false s s' -> atom be hz true s s'.
Proof.
  intros H. inversion H; subst; try discriminate;
    first [ apply at_thread | apply at_cancel | apply at_setErr | apply at_sched
          | apply at_tick | apply at_log; assumption | apply at_register
          | apply at_complete | apply at_set_read | apply at_smap_new
          | apply at_wr; assumption | eapply at_promote; eassumption
          | eapply at_send; eassumption ].
Qed.

Lemma steps_closing s s' : rtc (atom be hz false) s s' -> rtc (atom be hz true) s s'.
Proof.
  intros H. induction H as [|s1 s2 s3 H12 _ IH]; [apply rtc_refl |].
  eapply rtc_l; [apply atom_closing; exact H12 | exact IH].
Qed.

Section AnyPhase.

Variable cl : bool.

Local Abbreviation steps := (rtc (atom be hz cl)).

Lemma plain_update_refl x : plain_update x x.
Proof. repeat split. Qed.

Lemma steps_update_wr f s :
  plain_update (wr s) (f (wr s)) -> steps s (update_wr f s).
Proof. intros H. apply rtc_once. apply at_wr. exact H. Qed.

Lemma run_acts_steps l : forall s, steps s (fold_left (fun s a => run_act be a s) l s).
Proof.
  induction l as [|a l IH]; intros s; simpl; [apply rtc_refl |].
  eapply rtc_l; [| apply IH]. destruct a; [apply at_thread | apply at_cancel].
Qed.

Lemma sync_point_steps s p s' : sync_point be s = Ret p s' -> steps s s'.
Proof.
  unfold sync_point. destruct (sched s) as [|sp rest]; intros [= <- <-].
  - apply rtc_refl.
  - eapply rtc_l; [apply at_sched | apply run_acts_steps].
Qed.

Lemma step_threads_steps l : forall s, steps s (fold_left (fun s i => thread_step be i s) l s).
Proof.
  induction l as [|a l IH]; intros s; simpl; [apply rtc_refl |].
  eapply rtc_l; [apply at_thread | apply IH].
Qed.

Lemma drive_steps fuel ok : forall s s', drive be fuel ok s = Some s' -> steps s s'.
Proof.
  induction fuel as [|fuel IH]; intros s s'; simpl.
  - destruct (ok s); [intros [= <-]; apply rtc_refl | discriminate].
  - destruct (ok s); [intros [= <-]; apply rtc_refl |].
    intros H. etransitivity; [apply step_threads_steps | eauto].
Qed.

Lemma w_getErr_steps s e s' : w_getErr be s = Ret e s' -> steps s s'.
Proof.
  unfold w_getErr. intros H. mstep H. mstep H. mstep E0. mstep H.
  eapply sync_point_steps; eauto.
Qed.

Lemma w_setErr_steps e s u s' : w_setErr be e s = Ret u s' -> steps s s'.
Proof.
  unfold w_setErr. intros H. mstep H. mstep H.
  eapply rtc_r; [eapply sync_point_steps; eauto | apply at_setErr].
Qed.

Lemma getBuffer_steps s v s' : getBuffer be s = Ret v s' -> steps s s'.
Proof. intros H. apply getBuffer_spec in H. destruct H as [-> _]. peel. Qed.

Lemma init_steps s u s' : init be s = Ret u s' -> steps s s'.
Proof.
  intros H. unfold init in H. mstep H. mstep E.
  destruct (start (wr s)); [mstep H; apply rtc_refl |].
  do 6 (mstep H; mstep E).
  mbind H v s1 Hg. apply getBuffer_spec in Hg. destruct Hg as [-> Hb].
  destruct v as [b | e].
  - mstep H. peel.
    eapply rtc_r; [| apply at_wr].
    + eapply rtc_r; [| apply at_wr; repeat split; reflexivity]. peel.
    + simpl. destruct (ChunkSize _ =? 0); repeat split; reflexivity.
  - apply w_setErr_steps in H. etransitivity; [| exact H]. peel.
    eapply rtc_r; [| apply at_wr].
    + eapply rtc_r; [| apply at_wr; repeat split; reflexivity]. peel.
    + simpl. destruct (ChunkSize _ =? 0); repeat split; reflexivity.
Qed.

Lemma buf_Write_steps p s r s' : buf_Write be p s = Ret r s' -> steps s s'.
Proof.
  unfold buf_Write. intros H. destruct (w (wr s)) as [[mb | fb]|]; [| | discriminate].
  - destruct (memoryBuffer_Write mb p) as [[n e] mb']. inversion H; subst. peel.
  - destruct (fileBuffer_Write _ fb p) as [[n e] fb']. inversion H; subst. peel.
Qed.

Lemma promote_steps s e s' : promote be hz s = Ret e s' -> steps s s'.
Proof.
  intros H. destruct (once (wr s)) eqn:Ho.
  - apply promote_spec in H. destruct H as [(_ & -> & _) | (Hf & _)]; [| congruence].
    apply rtc_refl.
  - apply rtc_once. eapply at_promote; eauto.
Qed.

Lemma select_send_steps c s r s' :
  select_send be hz c s = Ret r s' ->
  match r with
  | Some _ => steps s s'
  | None =>
      exists s1 i fc,
        steps s s1 /\ wr s1 = wr s /\ pool s1 !! i = Some (TIdle fc)
        /\ ready (wr s1) = Some false
        /\ s' = set_thread i (TRecv fc c) (log (EvSend c) s1)
  end.
Proof.
  intros H. unfold select_send in H. mbind H p s0 Hs.
  pose proof (sync_point_undisturbed _ _ _ _ Hs) as (Hw0 & _).
  apply sync_point_steps in Hs.
  destruct (ready (wr s0)) as [[|]|] eqn:Hr.
  - destruct p; [discriminate |]. destruct (ctx s0); [| discriminate].
    inversion H; subst. exact Hs.
  - destruct (drive be hz can_select s0) as [s1|] eqn:Hd; [| discriminate].
    pose proof (drive_undisturbed _ _ _ _ _ Hd) as (Hw1 & _).
    apply drive_steps in Hd.
    assert (Hu : steps s s1) by (etransitivity; eauto).
    assert (Hsend : forall i, receiver_of p s1 = Some i ->
              exists s2 i0 fc, steps s s2 /\ wr s2 = wr s
                /\ pool s2 !! i0 = Some (TIdle fc)
                /\ ready (wr s2) = Some false
                /\ deliver i c s1 = set_thread i0 (TRecv fc c) (log (EvSend c) s2)).
    { intros i Hi. destruct (receiver_idle _ _ _ Hi) as (fc & Hfc).
      exists s1, i, fc. split; [exact Hu |]. split; [congruence |].
      split; [exact Hfc |]. split; [rewrite Hw1; exact Hr | now apply deliver_idle]. }
    destruct p as [j|], (ctx s1) as [e|], (receiver_of _ s1) as [i|] eqn:Hrcv;
      inversion H; subst; try exact Hu; try (now apply Hsend).
  - destruct (ctx s0); [| discriminate]. inversion H; subst. exact Hs.
Qed.

Lemma sendChunk_steps s r s' : sendChunk be hz s = Ret r s' -> steps s s'.
Proof.
  unfold sendChunk. intros H. mbind H e s1 Hp. apply promote_steps in Hp.
  etransitivity; [exact Hp |].
  destruct e as [e|]; [mstep H; apply rtc_refl |].
  mstep H. mstep E. destruct (w (wr s1)) as [b|] eqn:Hb; [| discriminate].
  mbind H r0 s2 Hsel. apply select_send_steps in Hsel.
  destruct r0 as [e|]; [mstep H; exact Hsel |].
  destruct Hsel as (s3 & i & fc & H13 & Hw3 & Hi & Hr & ->).
  etransitivity; [exact H13 |].
  mstep H. mstep E. mbind H v s4 Hg. apply getBuffer_steps in Hg.
  assert (Hsend : steps s3
            (update_wr (fun x => set_cidx (cidx x + 1) x)
               (set_thread i (TRecv fc (mkChunk (cidx (wr s1) + 1) b))
                  (log (EvSend (mkChunk (cidx (wr s1) + 1) b)) s3)))).
  { apply rtc_once. rewrite <- Hw3. eapply at_send; eauto. rewrite Hw3. exact Hb. }
  etransitivity; [exact Hsend |]. etransitivity; [exact Hg |].
  destruct v; mstep H; try mstep E; try mstep H; peel.
Qed.

Lemma Write_rec_steps fuel : forall p s r s',
  Write_rec be hz fuel p s = Ret r s' -> steps s s'.
Proof.
  induction fuel as [|fuel IH]; intros p s r s' H; simpl in H; [discriminate |].
  mbind H u s1 Hinit. apply init_steps in Hinit. etransitivity; [exact Hinit |].
  mbind H e s2 Hget. apply w_getErr_steps in Hget. etransitivity; [exact Hget |].
  destruct e as [e|]; [mstep H; apply rtc_refl |].
  mstep H. mstep E.
  destruct (w (wr s2)) as [b|]; [| discriminate].
  destruct (zlen p <? csize (wr s2) - buf_Len b).
  { eapply buf_Write_steps; eauto. }
  destruct (csize (wr s2) - buf_Len b <? 0); [discriminate |].
  mbind H r0 s3 Hwr. destruct r0 as [i e]. apply buf_Write_steps in Hwr.
  etransitivity; [exact Hwr |].
  destruct e as [e|].
  { mbind H u0 s4 Hset. mstep H. eapply w_setErr_steps; eauto. }
  mbind H r0 s4 Hsend. apply sendChunk_steps in Hsend. etransitivity; [exact Hsend |].
  destruct r0 as [e|].
  { mbind H u0 s5 Hset. mbind H e' s6 Hget2. mstep H.
    etransitivity; [eapply w_setErr_steps; eauto | eapply w_getErr_steps; eauto]. }
  mbind H r0 s5 Hrec. destruct r0 as [k e]. apply IH in Hrec.
  etransitivity; [exact Hrec |].
  mbind H u0 s6 Hlast. mstep H.
  destruct e as [e|]; [eapply w_setErr_steps; eauto | mstep Hlast; apply rtc_refl].
Qed.

Lemma Writes_steps : forall ps s rs s', Writes be hz ps s = Ret rs s' -> steps s s'.
Proof.
  induction ps as [|p ps IH]; intros s rs s' H; simpl in H.
  - mstep H. apply rtc_refl.
  - mbind H r s1 Hw. mbind H rs1 s2 Hws. mstep H.
    unfold Write in Hw. apply Write_rec_steps in Hw.
    etransitivity; [exact Hw | eauto].
Qed.

Lemma uploadFile_redo_steps fuel : forall ue size ctype sha1 s r s',
  uploadFile_redo be fuel ue size ctype sha1 s = Ret r s' -> steps s s'.
Proof.
  induction fuel as [|fuel IH]; intros ue size ctype sha1 s r s' H; simpl in H;
    [discriminate |].
  mbind H c s1 Hc. mstep Hc. destruct (uploadFile be (tick s)) as [e rd] eqn:Hu.
  simpl in H. mstep H. mstep E. mstep H. mstep E.
  destruct e as [e|].
  - destruct (reupload be (Some e)).
    + mbind H c s1 Hc. mstep Hc. simpl in H.
      destruct (getUploadURL be _) as [e'|].
      * mstep H. peel.
      * mstep H. mstep E. apply IH in H. etransitivity; [| exact H]. peel.
    + mstep H. peel.
  - mstep H. mstep E. mstep H. peel.
Qed.

Lemma simpleWriteFile_steps s e s' : simpleWriteFile be hz s = Ret e s' -> steps s s'.
Proof.
  unfold simpleWriteFile. intros H. mbind H c s1 Hc. mstep Hc. simpl in H.
  destruct (getUploadURL be (tick s)) as [e0|].
  - mstep H. peel.
  - mstep H. mstep E. mstep H. mstep E. simpl in H.
    destruct (w (wr s)) as [b|]; [| discriminate].
    mbind H c s1 Hc. mstep Hc. simpl in H.
    destruct (buf_Reader be b _) as [rd | e0].
    + mstep H. mstep E. mbind H r s2 Hr. destruct r as [e1 rd1].
      mstep H. mstep E. mstep H.
      apply uploadFile_redo_steps in Hr.
      eapply rtc_r; [| apply at_complete]. etransitivity; [| exact Hr]. peel.
    + mstep H. peel.
Qed.

End AnyPhase.

Local Abbreviation closing_steps := (rtc (atom be hz true)).

Lemma finish_large_steps s u s' : finish_large be hz s = Ret u s' -> closing_steps s s'.
Proof.
  unfold finish_large. intros H.
  mbind H u1 s1 Hc. unfold close_ready in Hc.
  destruct (ready (wr s)) as [[|]|] eqn:Hr; try discriminate.
  inversion Hc; subst; clear Hc.
  mbind H u2 s2 Hwait. unfold wg_Wait in Hwait. mbind Hwait p s3 Hsync.
  apply (sync_point_steps true) in Hsync.
  destruct (drive be hz all_exited s3) as [s4|] eqn:Hd; [| discriminate].
  inversion Hwait; subst; clear Hwait.
  apply (drive_steps true) in Hd.
  assert (H0 : closing_steps s s2).
  { etransitivity; [| etransitivity; [exact Hsync | exact Hd]].
    eapply rtc_r; [| apply at_log; reflexivity].
    apply rtc_once. apply at_close_ready; [reflexivity | exact Hr]. }
  etransitivity; [exact H0 |].
  mbind H c s5 Hc. mstep Hc. simpl in H. mstep H. mstep E.
  destruct (finishLargeFile be (tick s2)) as [e|].
  - apply (w_setErr_steps true) in H. etransitivity; [| exact H]. peel.
  - mstep H. peel.
Qed.

Lemma Close_steps s e s' : Close be hz s = Ret e s' -> closing_steps s s'.
Proof.
  intros H. unfold Close in H. mstep H. mstep E. mbind H u s1 Hblock.
  apply (w_getErr_steps true) in H. etransitivity; [| exact H].
  destruct (done (wr s)); [mstep Hblock; apply rtc_refl |].
  mstep Hblock. mstep E.
  assert (Hdone : closing_steps s (update_wr (set_done true) s)).
  { apply rtc_once. apply at_done. reflexivity. }
  destruct (negb (everStarted (wr s))); [mstep Hblock; exact Hdone |].
  mbind Hblock u2 s2 Hbody.
  apply Close_deferred_spec in Hblock. destruct Hblock as (b2 & Hb2 & ->).
  eapply rtc_r; [| apply at_log; reflexivity].
  eapply rtc_r; [| apply at_log; reflexivity].
  etransitivity; [exact Hdone |].
  unfold Close_body in Hbody. mstep Hbody. mstep E. simpl in Hbody.
  destruct (cidx (wr s) =? 0).
  - mbind Hbody e0 s3 Hs. apply (simpleWriteFile_steps true) in Hs.
    etransitivity; [exact Hs | eapply w_setErr_steps; eauto].
  - destruct (w (wr s)) as [b|]; [| discriminate].
    mbind Hbody r s3 Hsend.
    assert (H0 : closing_steps (update_wr (set_done true) s) s3).
    { destruct (0 <? buf_Len b);
        [eapply sendChunk_steps; eauto | mstep Hsend; apply rtc_refl]. }
    etransitivity; [exact H0 |].
    destruct r as [e0|]; [eapply w_setErr_steps; eauto | eapply finish_large_steps; eauto].
Qed.

Lemma upload_steps ps s r s' : upload be hz ps s = Ret r s' -> closing_steps s s'.
Proof.
  unfold upload. intros H. mbind H rs s1 Hws. mbind H e s2 Hcl. mstep H.
  etransitivity; [eapply Writes_steps; eauto | eapply Close_steps; eauto].
Qed.

End Steps.

(* ===================================================================== *)
(* What every upload keeps: the chunks and the parts                       *)
(* ===================================================================== *)

Lemma thread_step_other be i s j :
  j <> i -> pool (thread_step be i s) !! j = pool s !! j.
Proof.
  intros Hne. thread_cases be i s; rewrite ?list_lookup_insert_ne by congruence;
    reflexivity.
Qed.

(* what a goroutine holds after a step, it held before or has just taken
   up for upload *)
Lemma thread_step_pool be i s j t' :
  pool (thread_step be i s) !! j = Some t' ->
  pool s !! j = Some t' \/ (j = i /\ exists t, pool s !! i = Some t /\ moved s t t').
Proof.
  destruct (decide (j = i)) as [-> | Hne];
    [| rewrite thread_step_other by exact Hne; auto].
  unfold thread_step.
  destruct (pool s !! i) as [t|] eqn:Hi; [| intros H; rewrite Hi in H; discriminate].
  pose proof (lookup_lt_Some _ _ _ Hi) as Hlt.
  intros H. right. split; [reflexivity |]. exists t. split; [reflexivity |].
  destruct t as [| fc | fc c | fc c sl |]; simpl in H;
    repeat match type of H with
    | context [match getUploadPartURL be ?t with _ => _ end] =>
        destruct (getUploadPartURL be t)
    | context [match ready ?x with _ => _ end] => destruct (ready x) as [[|]|]
    | context [match seen ?x !! ?k with _ => _ end] => destruct (seen x !! k) eqn:Hseen
    | context [decide ?P] => destruct (decide P)
    | context [match buf_Reader be ?b ?t with _ => _ end] => destruct (buf_Reader be b t)
    | context [if ?b then _ else _] => destruct b
    end;
    simpl in H; autorewrite with world in H; simpl in H;
    rewrite ?list_lookup_insert_eq in H by exact Hlt;
    rewrite ?Hi in H; inversion H; subst; simpl; eauto.
Qed.

(* the part events a step of a goroutine adds *)
Lemma thread_step_events be i s e :
  In e (trace (thread_step be i s)) -> part_event e = true ->
  In e (trace s)
  \/ (exists fc c sl,
        pool s !! i = Some (TRedo fc c sl)
        /\ e = EvUploadPart i fc (chunk_id c) (buf_Hash (chunk_buf c))
                 (buf_Len (chunk_buf c)))
  \/ (exists fc c,
        pool s !! i = Some (TRecv fc c) /\ e = EvSkip i (chunk_id c)
        /\ seen (wr s) !! chunk_id c = Some (buf_Hash (chunk_buf c))).
Proof.
  unfold thread_step.
  destruct (pool s !! i) as [t|] eqn:Hi; [| auto].
  intros H Hp.
  destruct t as [| fc | fc c | fc c sl |]; simpl in H;
    repeat match type of H with
    | context [match getUploadPartURL be ?t with _ => _ end] =>
        destruct (getUploadPartURL be t)
    | context [match ready ?x with _ => _ end] => destruct (ready x) as [[|]|]
    | context [match seen ?x !! ?k with _ => _ end] => destruct (seen x !! k) eqn:Hseen
    | context [decide ?P] => destruct (decide P)
    | context [match buf_Reader be ?b ?t with _ => _ end] => destruct (buf_Reader be b t)
    | context [if ?b then _ else _] => destruct b
    end;
    simpl in H; autorewrite with world in H; simpl in H;
    rewrite ?in_app_iff in H; simpl in H;
    repeat match type of H with
    | _ \/ _ => destruct H as [H | H]
    | False => contradiction
    end;
    try (subst e; discriminate Hp);
    try (left; exact H);
    subst; eauto 10.
Qed.

(* a chunk that a goroutine has received stays with it until the goroutine
   has looked it up in seen *)
Lemma thread_step_recv be i s j fc c :
  pool s !! j = Some (TRecv fc c) ->
  pool (thread_step be i s) !! j = Some (TRecv fc c)
  \/ seen (wr s) !! chunk_id c = None
  \/ seen (wr s) !! chunk_id c = Some (buf_Hash (chunk_buf c))
  \/ err (thread_step be i s) <> None.
Proof.
  intros Hj. destruct (decide (j = i)) as [-> | Hne];
    [| rewrite thread_step_other by exact Hne; auto].
  unfold thread_step. rewrite Hj.
  destruct (seen (wr s) !! chunk_id c) as [sha|]; [| auto].
  destruct (decide (sha = buf_Hash (chunk_buf c))) as [-> | Hd]; [auto |].
  right. right. right. simpl. apply setErr_err_some.
Qed.

Lemma thread_step_err be i s : err s <> None -> err (thread_step be i s) <> None.
Proof.
  intros H. destruct (err s) as [e|] eqn:E; [| congruence].
  rewrite (thread_step_err_keeps be i s e E). discriminate.
Qed.

Lemma sent_writer_events evs : forallb writer_event evs = true -> sent evs = [].
Proof.
  induction evs as [|e evs IH]; simpl; [reflexivity |].
  intros H. apply andb_true_iff in H. destruct H as [He H].
  destruct e; try discriminate; auto.
Qed.

Lemma part_writer_events evs e :
  forallb writer_event evs = true -> In e evs -> part_event e = false.
Proof.
  intros H Hin. rewrite forallb_forall in H. specialize (H e Hin).
  destruct e; simpl in *; congruence.
Qed.

Lemma mild_inv s s' : mild s s' -> engine_inv s -> engine_inv s'.
Proof.
  intros (Hp & Ho & Hs & Hc & (evs & Ht & Hev) & He)
         (A1 & A2 & A3 & A4 & A5 & A6 & A7 & A8).
  assert (Hsent : sent (trace s') = sent (trace s)).
  { rewrite Ht, sent_app, (sent_writer_events _ Hev). apply app_nil_r. }
  assert (Hin : forall e, In e (trace s') -> part_event e = true -> In e (trace s)).
  { intros e H Hpe. rewrite Ht in H. apply in_app_or in H. destruct H as [H | H]; [exact H |].
    rewrite (part_writer_events _ _ Hev H) in Hpe. discriminate. }
  unfold engine_inv. rewrite Hp, Ho, Hs, Hc, Hsent.
  split.
  { intros Hf. destruct (A1 Hf) as (B1 & B2 & B3).
    split; [exact B1 |]. split; [exact B2 |].
    intros e H. destruct (part_event e) eqn:Hpe; [| reflexivity].
    rewrite (B3 e (Hin e H Hpe)) in Hpe. discriminate. }
  split; [exact A2 |]. split; [exact A3 |]. split; [exact A4 |]. split; [exact A5 |].
  split; [intros i fc id sha size H; apply (A6 i fc); apply Hin; [exact H | reflexivity] |].
  split; [intros i id H; apply (A7 i); apply Hin; [exact H | reflexivity] |].
  intros c sha H1 H2 H3. destruct (A8 c sha H1 H2 H3) as [H | H]; [left; auto | right; exact H].
Qed.

Ltac mild_step :=
  unfold mild; simpl; autorewrite with world; simpl;
  repeat (split; [reflexivity |]);
  split;
  [ first [ exists []; split; [now rewrite app_nil_r | reflexivity]
          | eexists; split; [reflexivity | simpl; rewrite ?andb_true_r; assumption]
          | eexists; split; [reflexivity | reflexivity] ]
  | try (let Hx := fresh in intros Hx; exact Hx) ].

Lemma thread_step_inv be i s : engine_inv s -> engine_inv (thread_step be i s).
Proof.
  intros (A1 & A2 & A3 & A4 & A5 & A6 & A7 & A8).
  unfold engine_inv. rewrite thread_step_wr, thread_step_sent.
  split.
  { intros Hf. destruct (A1 Hf) as (B1 & B2 & B3).
    rewrite (thread_step_no_thread be i s B1). auto. }
  split; [exact A2 |]. split; [exact A3 |].
  split.
  { intros j t' c Hj Hh. apply thread_step_pool in Hj.
    destruct Hj as [Hj | (-> & t & Hi & Hm)]; [eapply A4; eauto |].
    destruct t' as [| fc' | fc' c' | fc' c' sl' |]; simpl in Hh; try discriminate;
      inversion Hh; subst; simpl in Hm; [contradiction |].
    destruct Hm as [(fc & sl & ->) | (fc & -> & _)]; eapply A4; eauto; reflexivity. }
  split.
  { intros j fc' c sl' Hj. apply thread_step_pool in Hj.
    destruct Hj as [Hj | (-> & t & Hi & Hm)]; [eapply A5; eauto |].
    simpl in Hm. destruct Hm as [(fc & sl & ->) | (fc & -> & Hs)]; [| exact Hs].
    eapply A5; eauto. }
  split.
  { intros j fc id sha size H. apply thread_step_events in H; [| reflexivity].
    destruct H as [H | [(fc0 & c & sl & Hi & He) | (fc0 & c & _ & He & _)]];
      [eapply A6; eauto | | discriminate].
    inversion He; subst. split; [eapply A5; eauto |].
    exists c. split; [eapply A4; eauto; reflexivity | auto]. }
  split.
  { intros j id H. apply thread_step_events in H; [| reflexivity].
    destruct H as [H | [(fc0 & c & sl & _ & He) | (fc0 & c & Hi & He & Hs)]];
      [eapply A7; eauto | discriminate |].
    inversion He; subst. exists c. split; [eapply A4; eauto; reflexivity | auto]. }
  intros c sha H1 H2 H3. destruct (A8 c sha H1 H2 H3) as [H | (j & fc & Hj)].
  - left. apply thread_step_err. exact H.
  - destruct (thread_step_recv be i s j fc c Hj) as [H | [H | [H | H]]].
    + right. eauto.
    + congruence.
    + rewrite H in H2. inversion H2; subst. contradiction.
    + left. exact H.
Qed.

Lemma lookup_started (p : list tstate) n i t :
  (p ++ repeat TStart n) !! i = Some t -> p !! i = Some t \/ t = TStart.
Proof.
  intros H. apply lookup_app_Some in H. destruct H as [H | (_ & H)]; [auto |].
  right. apply list_elem_of_lookup_2 in H. apply list_elem_of_In in H.
  apply repeat_spec in H. exact H.
Qed.

Lemma neutral_part_event evs e :
  forallb neutral evs = true -> In e evs -> part_event e = false.
Proof.
  intros H Hin. rewrite forallb_forall in H. specialize (H e Hin).
  destruct e; simpl in *; congruence.
Qed.

Lemma promote_inv be hz s e s' :
  once (wr s) = false -> promote be hz s = Ret e s' -> engine_inv s -> engine_inv s'.
Proof.
  intros Ho H (A1 & A2 & A3 & A4 & A5 & A6 & A7 & A8).
  destruct (A1 Ho) as (B1 & B2 & B3).
  apply promote_spec in H.
  destruct H as [(Ht & _) | (_ & s0 & x0 & Hq & Hp & Hw & He)]; [congruence |].
  pose proof (quiet_sent _ _ Hq) as Hsent.
  destruct Hq as (Qe & _ & Qp & _ & _ & evs & Qt & Qn).
  subst x0.
  apply promoted_same in Hp. destruct Hp as (_ & Hc & _ & Hon & _). simpl in Hc, Hon.
  assert (Hparts : forall e0, In e0 (trace s0) -> part_event e0 = false).
  { intros e0 H. rewrite Qt in H. apply in_app_or in H.
    destruct H as [H | H]; [apply B3; exact H | eapply neutral_part_event; eauto]. }
  assert (Hgoal : forall s1, once (wr s1) = true -> cidx (wr s1) = cidx (wr s0) ->
            trace s1 = trace s0 -> seen (wr s1) = seen (wr s0) ->
            (forall i t, pool s1 !! i = Some t -> t = TStart) ->
            engine_inv s1).
  { intros s1 H1 H2 H3 H4 H5. unfold engine_inv. rewrite H1, H2, H3, Hsent, B2, Hc, A2, B2.
    split; [discriminate |]. split; [reflexivity |]. split; [reflexivity |].
    split; [intros i t c Hi Hh; rewrite (H5 i t Hi) in Hh; discriminate |].
    split; [intros i fc c sl Hi; specialize (H5 _ _ Hi); discriminate |].
    split; [intros i fc id sha size H; specialize (Hparts _ H); discriminate |].
    split; [intros i id H; specialize (Hparts _ H); discriminate |].
    intros c sha H. contradiction. }
  destruct e as [e|].
  - subst s'. apply Hgoal; auto. intros i t Hi. rewrite Qp, B1 in Hi. discriminate.
  - destruct He as (f & conc & _ & ->). apply Hgoal; simpl; auto.
    intros i t Hi. rewrite Qp, B1 in Hi. simpl in Hi.
    apply (lookup_started [] _ i t) in Hi. destruct Hi as [Hi | Hi]; [discriminate | exact Hi].
Qed.

Lemma send_inv i fc b s :
  pool s !! i = Some (TIdle fc) -> w (wr s) = Some b -> engine_inv s ->
  engine_inv
    (update_wr (fun x => set_cidx (cidx x + 1) x)
       (set_thread i (TRecv fc (mkChunk (cidx (wr s) + 1) b))
          (log (EvSend (mkChunk (cidx (wr s) + 1) b)) s))).
Proof.
  intros Hi Hb (A1 & A2 & A3 & A4 & A5 & A6 & A7 & A8).
  set (c := mkChunk (cidx (wr s) + 1) b).
  assert (Ho : once (wr s) = true).
  { destruct (once (wr s)) eqn:E; [reflexivity |].
    destruct (A1 eq_refl) as (B1 & _). rewrite B1 in Hi. discriminate. }
  pose proof (lookup_lt_Some _ _ _ Hi) as Hlt.
  unfold engine_inv. simpl. rewrite sent_app. simpl. rewrite Ho.
  split; [discriminate |].
  split; [rewrite zlen_app, A2; reflexivity |].
  split.
  { rewrite map_app, length_app, A3. simpl. rewrite Nat.add_1_r, ids_upto_S.
    f_equal. f_equal. unfold c. simpl. rewrite A2. unfold zlen. lia. }
  split.
  { intros j t c0 Hj Hh. apply list_lookup_insert_Some in Hj.
    apply in_or_app.
    destruct Hj as [(_ & <- & _) | (_ & Hj)].
    - simpl in Hh. inversion Hh; subst. right. now left.
    - left. eapply A4; eauto. }
  split.
  { intros j fc0 c0 sl Hj. apply list_lookup_insert_Some in Hj.
    destruct Hj as [(_ & Hj & _) | (_ & Hj)]; [discriminate | eapply A5; eauto]. }
  split.
  { intros j fc0 id sha size H. apply in_app_or in H.
    destruct H as [H | [H | []]]; [| discriminate].
    destruct (A6 _ _ _ _ _ H) as (H1 & c0 & H2 & H3).
    split; [exact H1 |]. exists c0. split; [apply in_or_app; now left | exact H3]. }
  split.
  { intros j id H. apply in_app_or in H.
    destruct H as [H | [H | []]]; [| discriminate].
    destruct (A7 _ _ H) as (c0 & H2 & H3).
    exists c0. split; [apply in_or_app; now left | exact H3]. }
  intros c0 sha H1 H2 H3. apply in_app_or in H1.
  destruct H1 as [H1 | [<- | []]].
  - destruct (A8 c0 sha H1 H2 H3) as [H | (j & fc0 & Hj)]; [left; exact H |].
    right. exists j, fc0. rewrite list_lookup_insert_ne; [exact Hj |].
    intros <-. rewrite Hi in Hj. discriminate.
  - right. exists i, fc. apply list_lookup_insert_eq. exact Hlt.
Qed.

(* the invariant of the upload engine *)
Lemma engine_inv_kept be hz cl : invariant be hz cl engine_inv.
Proof.
  intros s s' HI H. inversion H; subst.
  - apply thread_step_inv. exact HI.
  - eapply mild_inv; [| exact HI]. mild_step.
  - eapply mild_inv; [| exact HI]. unfold mild.
    rewrite setErr_pool, setErr_wr, setErr_trace.
    repeat (split; [reflexivity |]).
    split; [exists []; split; [now rewrite app_nil_r | reflexivity] |].
    intros He. destruct (err s) as [e0|] eqn:E; [| congruence].
    rewrite (setErr_keeps e0 e s E). discriminate.
  - eapply mild_inv; [| exact HI]. mild_step.
  - eapply mild_inv; [| exact HI]. mild_step.
  - eapply mild_inv; [| exact HI]. mild_step.
  - eapply mild_inv; [| exact HI]. mild_step.
  - eapply mild_inv; [| exact HI]. mild_step.
  - eapply mild_inv; [| exact HI]. mild_step.
  - eapply mild_inv; [| exact HI]. mild_step.
  - eapply mild_inv; [| exact HI].
    match goal with Hp : plain_update _ _ |- _ =>
      destruct Hp as (P1 & P2 & P3 & P4 & P5 & P6 & P7 & P8 & P9 & P10) end.
    unfold mild. simpl.
    split; [reflexivity |]. split; [exact P1 |]. split; [exact P4 |]. split; [exact P9 |].
    split; [exists []; split; [now rewrite app_nil_r | reflexivity] | auto].
  - eapply promote_inv; eauto.
  - eapply send_inv; eauto.
  - eapply mild_inv; [| exact HI]. mild_step.
  - eapply mild_inv; [| exact HI]. mild_step.
Qed.

Lemma engine_inv_new x sc : once x = false -> cidx x = 0 -> engine_inv (new_world x sc).
Proof.
  intros Ho Hc. unfold engine_inv. simpl. rewrite Hc.
  split; [intros _; repeat split; intros e [] |].
  split; [reflexivity |]. split; [reflexivity |].
  split; [intros i t c H; discriminate |].
  split; [intros i fc c sl H; discriminate |].
  split; [intros i fc id sha size [] |].
  split; [intros i id [] |].
  intros c sha [].
Qed.

Lemma upload_engine_inv be hz sc conc resume chunk usefile nm ps r s' :
  upload be hz ps (new_world (configure conc resume chunk usefile (NewWriter nm)) sc)
  = Ret r s' ->
  engine_inv s'.
Proof.
  intros H. apply upload_steps in H.
  eapply steps_invariant; [apply engine_inv_kept | exact H |].
  apply engine_inv_new; reflexivity.
Qed.

(** X14: whatever the backend answers and however the goroutines are
    scheduled, when an upload returns every uploadPart call it has made
    was for a chunk that the writer had sent, with the hash and the length
    of that chunk's buffer, and with an id that is not among the parts the
    server already holds (w.seen); and every chunk that was skipped is in
    w.seen with a hash equal to that of the chunk's buffer. *)
Theorem part_uploads_respect_seen be hz sc conc resume chunk usefile nm ps r s' :
  upload be hz ps (new_world (configure conc resume chunk usefile (NewWriter nm)) sc)
  = Ret r s' ->
  (forall i fc id sha size, In (EvUploadPart i fc id sha size) (trace s') ->
     seen (wr s') !! id = None
     /\ exists c, In c (sent (trace s')) /\ chunk_id c = id
                  /\ sha = buf_Hash (chunk_buf c) /\ size = buf_Len (chunk_buf c))
  /\ (forall i id, In (EvSkip i id) (trace s') ->
        exists c, In c (sent (trace s')) /\ chunk_id c = id
                  /\ seen (wr s') !! id = Some (buf_Hash (chunk_buf c))).
Proof.
  intros H. apply upload_engine_inv in H.
  destruct H as (_ & _ & _ & _ & _ & A6 & A7 & _). split; assumption.
Qed.

(* resuming an upload of two chunks of which the server holds the first *)
Lemma part_uploads_respect_seen_witness :
  exists s',
    upload be_resume 9 [some_bytes 6]
      (new_world (configure 1 true 3 false (NewWriter "obj")) [])
    = Ret ([(6, None)], None) s'
    /\ part_uploads (trace s') = [(2, 3%nat)]
    /\ dom (seen (wr s')) = {[1]}
    /\ forall i fc id sha size, In (EvUploadPart i fc id sha size) (trace s') ->
         seen (wr s') !! id = None.
Proof.
  eexists. split; [vm_compute; reflexivity |].
  split; [vm_compute; reflexivity |].
  split; [vm_compute; reflexivity |].
  match goal with
  | |- forall i fc id sha size, In _ (trace ?s1) -> _ =>
      destruct (part_uploads_respect_seen be_resume 9 [] 1 true 3 false "obj"
                  [some_bytes 6] ([(6, None)], None) s1) as [Hup _]
  end.
  - vm_compute. reflexivity.
  - intros i fc id sha size Hin. exact (proj1 (Hup i fc id sha size Hin)).
Defined.

(** X15: the chunks sent are numbered 1, 2, ... in the order they were
    sent, and cidx counts them, in every upload that returns, with or
    without an error and whatever the goroutines did meanwhile. *)
Theorem chunk_ids_always_contiguous be hz sc conc resume chunk usefile nm ps r s' :
  upload be hz ps (new_world (configure conc resume chunk usefile (NewWriter nm)) sc)
  = Ret r s' ->
  cidx (wr s') = zlen (sent (trace s'))
  /\ chunk_ids (trace s') = ids_upto (length (sent (trace s'))).
Proof.
  intros H. apply upload_engine_inv in H.
  destruct H as (_ & A2 & A3 & _). split; assumption.
Qed.

(* an upload that fails: the second part is refused by the backend *)
Lemma chunk_ids_always_contiguous_witness :
  exists rs e s',
    upload be_broken_part 9 [some_bytes 7]
      (new_world (configure 1 false 3 false (NewWriter "obj")) [])
    = Ret (rs, Some e) s'
    /\ cidx (wr s') = zlen (sent (trace s'))
    /\ chunk_ids (trace s') = ids_upto (length (sent (trace s'))).
Proof.
  eexists. eexists. eexists. split; [vm_compute; reflexivity |].
  match goal with
  | |- cidx (wr ?s1) = _ /\ _ =>
      apply (chunk_ids_always_contiguous be_broken_part 9 [] 1 false 3 false "obj"
               [some_bytes 7] ([(6, Some (ErrBackend 500))], Some (ErrBackend 500)) s1)
  end.
  vm_compute. reflexivity.
Defined.

(* ===================================================================== *)
(* A part on the server that does not match                                *)
(* ===================================================================== *)

Lemma sendChunk_same_setup be hz s r s' :
  sendChunk be hz s = Ret r s' -> same_setup (wr s) (wr s').
Proof.
  unfold sendChunk. intros H. mbind H e s1 Hp.
  apply promote_view in Hp. destruct Hp as (Hset & _).
  eapply same_setup_trans; [exact Hset |].
  destruct e as [e|]; [mstep H; apply same_setup_refl |].
  mstep H. mstep E. destruct (w (wr s1)) as [b|]; [| discriminate].
  mbind H r0 s2 Hsel. apply select_send_spec in Hsel.
  destruct r0 as [e|].
  - mstep H. destruct Hsel as (-> & _). apply same_setup_refl.
  - destruct Hsel as (s3 & i & fc & (Hw3 & _) & _ & _ & ->).
    mstep H. mstep E. mbind H v s4 Hg. apply getBuffer_spec in Hg. destruct Hg as [-> _].
    destruct v; mstep H; try mstep E; try mstep H; simpl; rewrite Hw3; repeat split.
Qed.

Lemma buf_Write_same_setup be p s r s' :
  buf_Write be p s = Ret r s' -> same_setup (wr s) (wr s').
Proof.
  unfold buf_Write. intros H. destruct (w (wr s)) as [[mb | fb]|]; [| | discriminate].
  - destruct (memoryBuffer_Write mb p) as [[n e] mb']. inversion H; subst. repeat split.
  - destruct (fileBuffer_Write _ fb p) as [[n e] fb']. inversion H; subst. repeat split.
Qed.

Lemma undisturbed_same_setup s s' : undisturbed s s' -> same_setup (wr s) (wr s').
Proof. intros (-> & _). apply same_setup_refl. Qed.

(* a Write on a started writer leaves start, everStarted and done alone *)
Lemma Write_rec_same_setup be hz fuel : forall p s r s',
  start (wr s) = true ->
  Write_rec be hz fuel p s = Ret r s' -> same_setup (wr s) (wr s').
Proof.
  induction fuel as [|fuel IH]; intros p s r s' Hst H; simpl in H; [discriminate |].
  mbind H u s1 Hinit. apply init_again in Hinit; [| exact Hst]. subst s1.
  mbind H e s2 Hget. apply w_getErr_spec in Hget. destruct Hget as [Hu12 ->].
  apply undisturbed_same_setup in Hu12.
  eapply same_setup_trans; [exact Hu12 |].
  destruct (err s2) as [e|]; [mstep H; apply same_setup_refl |].
  mstep H. mstep E.
  destruct (w (wr s2)) as [b|]; [| discriminate].
  destruct (zlen p <? csize (wr s2) - buf_Len b).
  { eapply buf_Write_same_setup; eauto. }
  destruct (csize (wr s2) - buf_Len b <? 0); [discriminate |].
  mbind H r0 s3 Hwr. destruct r0 as [i e]. apply buf_Write_same_setup in Hwr.
  eapply same_setup_trans; [exact Hwr |].
  destruct e as [e|].
  { mbind H u0 s4 Hset. mstep H. apply w_setErr_spec in Hset. destruct Hset as [Hu _].
    apply undisturbed_same_setup. exact Hu. }
  mbind H r0 s4 Hsend. apply sendChunk_same_setup in Hsend.
  eapply same_setup_trans; [exact Hsend |].
  destruct r0 as [e|].
  { mbind H u0 s5 Hset. mbind H e' s6 Hget2. mstep H.
    apply w_setErr_spec in Hset. destruct Hset as [Hu1 _].
    apply w_getErr_spec in Hget2. destruct Hget2 as [Hu2 _].
    apply undisturbed_same_setup. eapply undisturbed_trans; eauto. }
  mbind H r0 s5 Hrec. destruct r0 as [k e].
  assert (Hst4 : start (wr s4) = true).
  { destruct Hu12 as (_ & _ & _ & S1 & _). destruct Hwr as (_ & _ & _ & S2 & _).
    destruct Hsend as (_ & _ & _ & S3 & _). congruence. }
  apply IH in Hrec; [| exact Hst4].
  eapply same_setup_trans; [exact Hrec |].
  mbind H u0 s6 Hlast. mstep H.
  destruct e as [e|].
  - apply w_setErr_spec in Hlast. destruct Hlast as [Hu _].
    apply undisturbed_same_setup. exact Hu.
  - mstep Hlast. apply same_setup_refl.
Qed.

(* init leaves the writer started, and a Write goes on from there *)
Lemma init_started be s u s1 :
  init be s = Ret u s1 ->
  start (wr s1) = true /\ done (wr s1) = done (wr s)
  /\ (start (wr s) = false -> everStarted (wr s1) = true).
Proof.
  intros H. destruct (start (wr s)) eqn:Hs.
  - apply init_again in H; [| exact Hs]. subst. split; [exact Hs |]. split; [reflexivity |].
    discriminate.
  - apply init_first in H; [| exact Hs].
    destruct (init_fields_other (wr s))
      as (_ & _ & _ & _ & _ & _ & _ & I8 & _ & _ & _ & _ & I13 & I14).
    destruct H as (_ & _ & _ & [(b & _ & ->) | (-> & _)]); simpl; auto.
Qed.

Lemma bind_same {A B} (m : M A) (k : A -> M B) s s1 a :
  m s = Ret a s1 -> m s1 = Ret a s1 -> bind m k s = bind m k s1.
Proof. intros H H1. unfold bind. rewrite H, H1. reflexivity. Qed.

Lemma Write_rec_from_init be hz fuel p s u s1 :
  init be s = Ret u s1 ->
  Write_rec be hz (S fuel) p s = Write_rec be hz (S fuel) p s1.
Proof.
  intros H. destruct (init_started _ _ _ _ H) as (Hst & _).
  assert (H1 : init be s1 = Ret tt s1).
  { unfold init, bind, get. rewrite Hst. reflexivity. }
  destruct u. cbn [Write_rec]. apply (bind_same _ _ s s1 tt); assumption.
Qed.

(* after Writes that returned, on a writer that Close has not been called
   on, the writer has been started and Close has still not run *)
Lemma Writes_started be hz : forall ps s rs s',
  ps <> [] -> start (wr s) = false \/ everStarted (wr s) = true ->
  Writes be hz ps s = Ret rs s' ->
  everStarted (wr s') = true /\ done (wr s') = done (wr s).
Proof.
  induction ps as [|p ps IH]; intros s rs s' Hne Hs H; [congruence |].
  simpl in H. mbind H r s1 Hw. mbind H rs1 s2 Hws. mstep H.
  unfold Write in Hw.
  assert (Hinit : exists s0, init be s = Ret tt s0).
  { simpl in Hw. unfold bind at 1 in Hw.
    destruct (init be s) as [[] s0 | |]; [eauto | discriminate | discriminate]. }
  destruct Hinit as (s0 & Hinit).
  rewrite (Write_rec_from_init _ _ _ _ _ _ _ Hinit) in Hw.
  destruct (init_started _ _ _ _ Hinit) as (Hst0 & Hd0 & He0).
  apply Write_rec_same_setup in Hw; [| exact Hst0].
  destruct Hw as (_ & _ & _ & W4 & W5 & W6 & _).
  assert (Hev1 : everStarted (wr s1) = true).
  { rewrite W5. destruct Hs as [Hs | Hs]; [apply He0; exact Hs |].
    destruct (start (wr s)) eqn:Hstart; [| apply He0; reflexivity].
    apply init_again in Hinit; [| exact Hstart]. subst s0. exact Hs. }
  destruct ps as [|p' ps'].
  - simpl in Hws. mstep Hws. split; [exact Hev1 | congruence].
  - destruct (IH s1 rs1 s2 ltac:(discriminate) (or_intror Hev1) Hws) as [I1 I2].
    split; [exact I1 | congruence].
Qed.

Lemma thread_step_exited be i s : all_exited s = true -> thread_step be i s = s.
Proof.
  intros H. unfold thread_step. destruct (pool s !! i) as [t|] eqn:Hi; [| reflexivity].
  unfold all_exited in H. rewrite forallb_forall in H.
  apply list_elem_of_lookup_2 in Hi. apply list_elem_of_In in Hi.
  specialize (H t Hi). destruct t; try discriminate. reflexivity.
Qed.

Lemma run_acts_exited be l : forall s,
  all_exited s = true ->
  all_exited (fold_left (fun s a => run_act be a s) l s) = true.
Proof.
  induction l as [|a l IH]; intros s H; simpl; [exact H |].
  apply IH. destruct a as [i |]; simpl.
  - rewrite thread_step_exited by exact H. exact H.
  - unfold all_exited in *. rewrite cancel_pool. exact H.
Qed.

Lemma w_getErr_exited be s e s' :
  all_exited s = true -> w_getErr be s = Ret e s' -> all_exited s' = true.
Proof.
  intros Hx H. unfold w_getErr in H. mstep H. mstep H. mstep E0. mstep H.
  unfold sync_point in E. destruct (sched s) as [|sp rest]; inversion E; subst.
  - exact Hx.
  - apply run_acts_exited. exact Hx.
Qed.

Lemma simpleWriteFile_cidx be hz s e s' :
  simpleWriteFile be hz s = Ret e s' -> cidx (wr s') = cidx (wr s).
Proof.
  unfold simpleWriteFile. intros H. mbind H c s1 Hc. mstep Hc. simpl in H.
  destruct (getUploadURL be (tick s)) as [e0|]; [mstep H; reflexivity |].
  mstep H. mstep E. mstep H. mstep E. simpl in H.
  destruct (w (wr s)) as [b|]; [| discriminate].
  mbind H c s1 Hc. mstep Hc. simpl in H.
  destruct (buf_Reader be b _) as [rd | e0]; [| mstep H; reflexivity].
  mstep H. mstep E. mbind H r s2 Hr. destruct r as [e1 rd1].
  mstep H. mstep E. mstep H.
  apply uploadFile_redo_spec in Hr.
  destruct Hr as (evs & _ & _ & _ & _ & _ & _ & Hw). simpl in *.
  destruct e1 as [x|]; [rewrite Hw; reflexivity |].
  destruct Hw as (f & ->). reflexivity.
Qed.

(* where a Close that returns nil leaves the upload: either no chunk was
   ever sent, or every goroutine has returned *)
Lemma Close_settles be hz s e s' :
  everStarted (wr s) = true -> done (wr s) = false ->
  Close be hz s = Ret e s' ->
  e = err s' /\ (err s' = None -> cidx (wr s') = 0 \/ all_exited s' = true).
Proof.
  intros A2 A3 H.
  unfold Close in H. mstep H. mstep E. mbind H u s1 Hblock.
  rewrite A3 in Hblock. mstep Hblock. mstep E. rewrite A2 in Hblock. simpl in Hblock.
  mbind Hblock u2 s2 Hbody.
  apply Close_deferred_spec in Hblock. destruct Hblock as (b2 & Hb2 & ->).
  pose proof (w_getErr_spec _ _ _ _ H) as [(Hw3 & _ & _ & Hl3 & _) Herr].
  split; [exact Herr |]. intros Hnone.
  assert (Herr2 : err s2 = None).
  { pose proof (err_none_earlier _ _ Hl3 Hnone) as H0. exact H0. }
  unfold Close_body in Hbody. mstep Hbody. mstep E. simpl in Hbody.
  destruct (cidx (wr s) =? 0) eqn:Ec.
  - left. apply Z.eqb_eq in Ec.
    mbind Hbody e0 s3 Hs. apply simpleWriteFile_cidx in Hs. simpl in Hs.
    apply w_setErr_spec in Hbody. destruct Hbody as [(Hw2 & _) _].
    rewrite Hw3. simpl. rewrite Hw2, Hs. exact Ec.
  - right. destruct (w (wr s)) as [b|]; [| discriminate].
    mbind Hbody r s3 Hsend.
    destruct r as [e0|].
    { apply w_setErr_spec in Hbody. destruct Hbody as [_ He].
      exfalso. eapply He; eauto. }
    apply finish_large_spec in Hbody. destruct Hbody as (_ & _ & _ & Hx).
    destruct (Hx Herr2) as [Hexit _].
    eapply w_getErr_exited; [| exact H]. exact Hexit.
Qed.

(** X16: a chunk that the server holds with another hash makes the upload
    fail.  When an upload returns and one of the chunks sent is recorded in
    w.seen with a hash that differs from that of the chunk's buffer, the
    error returned by Close is not nil (the goroutine that receives such a
    chunk latches the mismatch, unless another error was latched first). *)
Theorem resume_mismatch_fails be hz sc conc resume chunk usefile nm ps rs e s' :
  upload be hz ps (new_world (configure conc resume chunk usefile (NewWriter nm)) sc)
  = Ret (rs, e) s' ->
  (exists c sha,
     In c (sent (trace s')) /\ seen (wr s') !! chunk_id c = Some sha
     /\ sha <> buf_Hash (chunk_buf c)) ->
  e <> None.
Proof.
  intros H (c & sha & Hin & Hseen & Hne).
  pose proof (upload_engine_inv _ _ _ _ _ _ _ _ _ _ _ H) as (_ & A2 & _ & _ & _ & _ & _ & A8).
  unfold upload in H. mbind H rs0 s1 Hws. mbind H e0 s2 Hcl. mstep H.
  inversion H; subst rs0 e0; clear H.
  destruct ps as [|p ps].
  { simpl in Hws. mstep Hws.
    destruct (Close_new_world be hz sc conc resume chunk usefile nm)
      as (s3 & Hc & Ht & _).
    rewrite Hc in Hcl. inversion Hcl; subst. rewrite Ht in Hin. contradiction. }
  apply Writes_started in Hws; [| discriminate | left; reflexivity].
  destruct Hws as [Hev Hd]. simpl in Hd.
  destruct (Close_settles _ _ _ _ _ Hev Hd Hcl) as [-> Hend].
  destruct (A8 c sha Hin Hseen Hne) as [Herr | (i & fc & Hi)]; [exact Herr |].
  intros Hnone. destruct (Hend Hnone) as [Hc0 | Hx].
  - rewrite Hc0 in A2. symmetry in A2. apply zlen_zero in A2.
    rewrite A2 in Hin. contradiction.
  - unfold all_exited in Hx. rewrite forallb_forall in Hx.
    apply list_elem_of_lookup_2 in Hi. apply list_elem_of_In in Hi.
    specialize (Hx _ Hi). discriminate.
Qed.

(* resuming against a server whose part 1 has another hash: the mismatch
   is latched during the Write, and Close returns it *)
Lemma resume_mismatch_fails_witness :
  exists rs s',
    upload be_tampered 9 [some_bytes 6]
      (new_world (configure 1 true 3 false (NewWriter "obj")) [])
    = Ret (rs, Some ErrChunksDontMatch) s'
    /\ Some ErrChunksDontMatch <> None.
Proof.
  eexists. eexists. split; [vm_compute; reflexivity |].
  match goal with
  | |- ?e <> None =>
      refine (resume_mismatch_fails be_tampered 9 [] 1 true 3 false "obj"
                [some_bytes 6] _ e _ _ _)
  end.
  - vm_compute. reflexivity.
  - exists (mkChunk 1 (MemBuf (mkMemoryBuffer 0 (some_bytes 3) (some_bytes 3)))).
    exists "0000000000000000000000000000000000000000"%string.
    split; [vm_compute; left; reflexivity |].
    split; [vm_compute; reflexivity |].
    vm_compute. discriminate.
Defined.

(* ===================================================================== *)
(* The progress map during an upload                                       *)
(* ===================================================================== *)

Lemma startLargeFile_call_smap be s r s' :
  startLargeFile_call be s = Ret r s' -> smap s' = smap s.
Proof.
  unfold startLargeFile_call. intros H. mstep H. mstep E.
  mbind H c s1 Hc. mstep Hc. simpl in H. mstep H. mstep E.
  destruct (startLargeFile be (tick s)); mstep H; reflexivity.
Qed.

Lemma listLoop_smap be fuel : forall next sn sz s r s',
  listLoop be fuel next sn sz s = Ret r s' -> smap s' = smap s.
Proof.
  induction fuel as [|fuel IH]; intros next sn sz s r s' H; simpl in H; [discriminate |].
  mstep H. mstep E. mbind H c s1 Hc. mstep Hc. simpl in H. mstep H. mstep E.
  destruct (ListObjects be (tick s)) as [o | e].
  - match type of H with (if ?b then _ else _) _ = _ => destruct b end.
    + mstep H. mstep E. apply startLargeFile_call_smap in H. exact H.
    + mbind H c s1 Hc. mstep Hc. simpl in H. mstep H. mstep E.
      destruct (listParts be _ next) as [[parts n] | e].
      * match type of H with (if ?b then _ else _) _ = _ => destruct b end.
        -- mstep H. mstep E. mstep H. mstep E. mstep H. reflexivity.
        -- apply IH in H. exact H.
      * mstep H. reflexivity.
  - mstep H. reflexivity.
Qed.

Lemma getLargeFile_smap be hz s r s' :
  getLargeFile be hz s = Ret r s' -> smap s' = smap s.
Proof.
  unfold getLargeFile. intros H. mstep H. mstep E.
  destruct (negb _).
  - eapply startLargeFile_call_smap; eauto.
  - eapply listLoop_smap; eauto.
Qed.

(* the function given to w.once.Do leaves the progress map and cidx alone *)
Lemma promote_smap be hz s e s' :
  promote be hz s = Ret e s' -> smap s' = smap s /\ cidx (wr s') = cidx (wr s).
Proof.
  intros H. split.
  - unfold promote in H. mstep H. mstep E.
    destruct (once (wr s)); [mstep H; reflexivity |].
    mstep H. mstep E. mbind H lf s1 Hl. apply getLargeFile_smap in Hl.
    destruct lf as [f | e0]; [| mstep H; exact Hl].
    do 3 (mstep H; mstep E). mstep H. mstep E.
    mbind H u s2 Hs. apply spawn_spec in Hs. mstep H. subst. exact Hl.
  - apply promote_spec in H.
    destruct H as [(_ & -> & _) | (_ & s0 & x0 & _ & Hp & Hw & He)]; [reflexivity |].
    apply promoted_same in Hp. destruct Hp as (_ & Hc & _). simpl in Hc.
    destruct e as [e|].
    + subst. exact Hc.
    + destruct He as (f & conc & _ & ->). subst. exact Hc.
Qed.

(* a goroutine adds to the progress map only the id of the chunk it holds *)
Lemma thread_step_smap be i s k :
  k ∈ dom (smap (thread_step be i s)) ->
  k ∈ dom (smap s)
  \/ exists t c, pool s !! i = Some t /\ handling t = Some c /\ chunk_id c = k.
Proof.
  unfold thread_step.
  destruct (pool s !! i) as [[| fc | fc c | fc c sl |]|] eqn:Hi; auto.
  - destruct (getUploadPartURL be (tick s)); simpl; autorewrite with world; auto.
  - destruct (ready (wr s)) as [[|]|]; auto.
  - assert (Hc : k = chunk_id c -> exists t c0,
              Some (TRecv fc c) = Some t /\ handling t = Some c0 /\ chunk_id c0 = k).
    { intros ->. exists (TRecv fc c), c. auto. }
    simpl. destruct (seen (wr s) !! chunk_id c) as [sha|].
    + destruct (decide _); simpl; autorewrite with world; simpl; auto.
      rewrite dom_insert_L. intros H. apply elem_of_union in H.
      destruct H as [H | H]; [right; apply Hc; set_solver | left; exact H].
    + destruct (buf_Reader be (chunk_buf c) (tick s)); simpl; autorewrite with world;
        simpl; auto.
      rewrite dom_insert_L. intros H. apply elem_of_union in H.
      destruct H as [H | H]; [right; apply Hc; set_solver | left; exact H].
  - assert (Hc : k = chunk_id c -> exists t c0,
              Some (TRedo fc c sl) = Some t /\ handling t = Some c0 /\ chunk_id c0 = k).
    { intros ->. exists (TRedo fc c sl), c. auto. }
    simpl.
    destruct (negb _ || _); [destruct (reupload be _);
        [destruct (getUploadPartURL be _) |] |];
      simpl; autorewrite with world; simpl;
      rewrite ?dom_insert_L, ?dom_alter_L; intros H;
      try (apply elem_of_union in H; destruct H as [H | H];
           [right; apply Hc; set_solver | left; exact H]);
      left; exact H.
Qed.

Lemma registered_bound_dom s :
  registered_bound s <-> forall k, k ∈ dom (smap s) -> 1 <= k <= Z.max 1 (cidx (wr s)).
Proof.
  unfold registered_bound. split; intros H k Hk; apply H; apply elem_of_dom; exact Hk.
Qed.

(* the id of a chunk sent is between 1 and cidx *)
Lemma sent_id_bound s c :
  engine_inv s -> In c (sent (trace s)) -> 1 <= chunk_id c <= cidx (wr s).
Proof.
  intros (_ & A2 & A3 & _) Hin.
  apply (in_map chunk_id) in Hin. rewrite A3 in Hin. unfold ids_upto in Hin.
  apply in_map_iff in Hin. destruct Hin as (n & <- & Hn). apply in_seq in Hn.
  rewrite A2. unfold zlen. lia.
Qed.

Lemma bound_kept be hz cl :
  invariant be hz cl (fun s => engine_inv s /\ registered_bound s).
Proof.
  intros s s' [HI HB] H. split; [eapply engine_inv_kept; eauto |].
  apply registered_bound_dom. rewrite registered_bound_dom in HB.
  inversion H; subst; simpl; autorewrite with world; simpl; try exact HB.
  - intros k Hk. rewrite thread_step_wr. apply thread_step_smap in Hk.
    destruct Hk as [Hk | (t & c & Hi & Hh & <-)]; [auto |].
    destruct HI as (A1 & A2 & A3 & A4 & A5) eqn:E. clear E.
    pose proof (sent_id_bound s c (conj A1 (conj A2 (conj A3 (conj A4 A5))))
                  (A4 _ _ _ Hi Hh)). lia.
  - intros k Hk. rewrite dom_insert_L in Hk. apply elem_of_union in Hk.
    destruct Hk as [Hk | Hk]; [| auto]. apply elem_of_singleton in Hk. lia.
  - intros k Hk. rewrite dom_insert_L in Hk. apply elem_of_union in Hk.
    destruct Hk as [Hk | Hk]; [| auto]. apply elem_of_singleton in Hk. lia.
  - intros k Hk. rewrite dom_alter_L in Hk. auto.
  - intros k Hk. rewrite dom_empty_L in Hk. set_solver.
  - match goal with Hp : plain_update _ _ |- _ =>
      destruct Hp as (_ & _ & _ & _ & _ & _ & _ & _ & P9 & _) end.
    rewrite P9. exact HB.
  - match goal with Hp : promote _ _ _ = _ |- _ =>
      apply promote_smap in Hp; destruct Hp as [-> ->] end.
    exact HB.
  - intros k Hk. specialize (HB k Hk). lia.
Qed.

Lemma new_world_bound x sc : registered_bound (new_world x sc).
Proof. intros k [v Hk]. simpl in Hk. rewrite lookup_empty in Hk. discriminate. Qed.

Lemma bound_reported s :
  registered_bound s -> cidx (wr s) <= Z.of_nat (size (smap s)) ->
  forall k, smap s !! k = Some None -> reported_done s k.
Proof.
  intros HB Hc k Hk.
  assert (Hne : (0 < size (smap s))%nat).
  { destruct (size (smap s)) eqn:E; [| lia].
    apply map_size_empty_iff in E. rewrite E, lookup_empty in Hk. discriminate. }
  destruct (HB k) as [H1 H2]; [rewrite Hk; eauto |].
  exists (Z.to_nat (k - 1)).
  assert (Hi : (Z.to_nat (k - 1) < size (smap s))%nat) by lia.
  split; [lia |]. rewrite status_lookup by exact Hi.
  replace (Z.of_nat (S (Z.to_nat (k - 1)))) with k by lia.
  rewrite Hk. reflexivity.
Qed.

(** C10: completing a chunk keeps its entry in the progress map and stores
    nil in it, and no step of the upload goroutines removes an entry, so
    the Progress slice of status() has as many slots as chunk ids have
    been registered.  Slot i-1 holds done() of the entry under id i, which
    is exactly 1 when that entry is nil or missing.  A completed chunk is
    therefore reported, as exactly 1, if and only if its id lies between 1
    and the number of registered ids.  In an upload every registered id is
    at most cidx (or is the 1 of the single-shot upload), so that every
    completed chunk is reported once all the chunks sent so far are in the
    map. *)
Theorem completeChunk_progress :
  (forall s id,
     smap (completeChunk id s) !! id = Some None
     /\ dom (smap s) ⊆ dom (smap (completeChunk id s)))
  /\ (forall be i s, dom (smap s) ⊆ dom (smap (thread_step be i s)))
  /\ (forall s, length (status s) = size (smap s))
  /\ (forall s (i : nat), (i < size (smap s))%nat ->
        status s !! i
        = Some (meteredReader_done (default None (smap s !! Z.of_nat (S i)))))
  /\ (forall s id, smap s !! id = Some None ->
        (reported_done s id <-> 1 <= id <= Z.of_nat (size (smap s))))
  /\ (forall be hz sc conc resume chunk usefile nm ps s,
        (exists rs,
           Writes be hz ps
             (new_world (configure conc resume chunk usefile (NewWriter nm)) sc)
           = Ret rs s)
        \/ (exists r,
              upload be hz ps
                (new_world (configure conc resume chunk usefile (NewWriter nm)) sc)
              = Ret r s) ->
        (forall k, is_Some (smap s !! k) -> 1 <= k <= Z.max 1 (cidx (wr s)))
        /\ (cidx (wr s) <= Z.of_nat (size (smap s)) ->
            forall k, smap s !! k = Some None -> reported_done s k)).
Proof.
  split.
  { intros s id. split; [apply lookup_insert_eq | apply smap_dom_completeChunk]. }
  split; [apply smap_dom_thread_step |].
  split; [apply status_length |].
  split; [apply status_lookup |].
  split.
  { intros s id Hid. split.
    - intros (i & -> & Hi). apply lookup_lt_Some in Hi. rewrite status_length in Hi. lia.
    - intros [H1 H2]. exists (Z.to_nat (id - 1)).
      assert (Hi : (Z.to_nat (id - 1) < size (smap s))%nat) by lia.
      split; [lia |]. rewrite status_lookup by exact Hi.
      replace (Z.of_nat (S (Z.to_nat (id - 1)))) with id by lia.
      rewrite Hid. reflexivity. }
  intros be hz sc conc resume chunk usefile nm ps s Hrun.
  assert (HB : registered_bound s).
  { assert (Hst : rtc (atom be hz true)
                    (new_world (configure conc resume chunk usefile (NewWriter nm)) sc) s).
    { destruct Hrun as [(rs & H) | (r & H)].
      - apply steps_closing. eapply Writes_steps; eauto.
      - eapply upload_steps; eauto. }
    apply (steps_invariant be hz true _ _ _ (bound_kept be hz true) Hst).
    split; [apply engine_inv_new; reflexivity | apply new_world_bound]. }
  split; [exact HB | apply bound_reported; exact HB].
Qed.

(* with two goroutines chunk 2 can be completed before chunk 1 is
   registered: the map then has the single entry 2, Progress has a single
   slot, and that slot is not the one of chunk 2 *)
Lemma completed_chunk_without_slot :
  exists s,
    Writes be_ok 9 [some_bytes 6]
      (new_world (configure 2 false 3 false (NewWriter "obj")) sched_second_first)
    = Ret [(6, None)] s
    /\ smap s !! 2 = Some None
    /\ smap s !! 1 = None
    /\ status s = [F_one]
    /\ ~ reported_done s 2.
Proof.
  eexists. split; [vm_compute; reflexivity |].
  split; [vm_compute; reflexivity |].
  split; [vm_compute; reflexivity |].
  split; [vm_compute; reflexivity |].
  intros (i & Hi & Hs).
  assert (E : i = 1%nat) by lia. subst i.
  vm_compute in Hs. discriminate.
Qed.

(* with one goroutine that handles each chunk in turn, both chunks of a
   six-byte upload are in the map and both are reported *)
Lemma completeChunk_progress_witness :
  exists s,
    Writes be_ok 9 [some_bytes 6]
      (new_world (configure 1 false 3 false (NewWriter "obj")) sched_in_turn)
    = Ret [(6, None)] s
    /\ cidx (wr s) <= Z.of_nat (size (smap s))
    /\ smap s !! 2 = Some None
    /\ reported_done s 2.
Proof.
  eexists. split; [vm_compute; reflexivity |].
  split; [vm_compute; discriminate |].
  split; [vm_compute; reflexivity |].
  destruct completeChunk_progress as (_ & _ & _ & _ & _ & H).
  match goal with
  | |- reported_done ?s _ =>
      destruct (H be_ok 9%nat sched_in_turn 1 false 3 false "obj"%string
                  [some_bytes 6] s) as [_ Hr]
  end.
  - left. eexists. vm_compute. reflexivity.
  - apply Hr; vm_compute; [discriminate | reflexivity].
Defined.

(* ===================================================================== *)
(* Resuming: the parts the server holds                                    *)
(* ===================================================================== *)

Lemma atom_kinds be hz cl s s' :
  atom be hz cl s s' ->
  (exists i, s' = thread_step be i s)
  \/ mild s s'
  \/ (once (wr s) = false /\ exists e, promote be hz s = Ret e s')
  \/ (exists i fc b,
        pool s !! i = Some (TIdle fc) /\ w (wr s) = Some b
        /\ s' = update_wr (fun x => set_cidx (cidx x + 1) x)
                  (set_thread i (TRecv fc (mkChunk (cidx (wr s) + 1) b))
                     (log (EvSend (mkChunk (cidx (wr s) + 1) b)) s))).
Proof.
  intros H. inversion H; subst.
  - left. eauto.
  - right. left. mild_step.
  - right. left. unfold mild.
    rewrite setErr_pool, setErr_wr, setErr_trace.
    repeat (split; [reflexivity |]).
    split; [exists []; split; [now rewrite app_nil_r | reflexivity] |].
    intros He. destruct (err s) as [e0|] eqn:E; [| congruence].
    rewrite (setErr_keeps e0 e s E). discriminate.
  - right. left. mild_step.
  - right. left. mild_step.
  - right. left. mild_step.
  - right. left. mild_step.
  - right. left. mild_step.
  - right. left. mild_step.
  - right. left. mild_step.
  - right. left.
    match goal with Hp : plain_update _ _ |- _ =>
      destruct Hp as (P1 & P2 & P3 & P4 & P5 & P6 & P7 & P8 & P9 & P10) end.
    unfold mild. simpl.
    split; [reflexivity |]. split; [exact P1 |]. split; [exact P4 |]. split; [exact P9 |].
    split; [exists []; split; [now rewrite app_nil_r | reflexivity] | auto].
  - right. right. left. eauto.
  - right. right. right. eauto 10.
  - right. left. mild_step.
  - right. left. mild_step.
Qed.

Lemma thread_step_settles be i s t c :
  pool s !! i = Some t -> handling t = Some c ->
  skipped (trace (thread_step be i s)) c \/ uploaded (trace (thread_step be i s)) c
  \/ (exists t', pool (thread_step be i s) !! i = Some t' /\ handling t' = Some c)
  \/ err (thread_step be i s) <> None.
Proof.
  intros Hi Hh. pose proof (lookup_lt_Some _ _ _ Hi) as Hlt.
  unfold thread_step. rewrite Hi.
  destruct t as [| fc | fc c0 | fc c0 sl |]; simpl in Hh; try discriminate;
    inversion Hh; subst c0; clear Hh.
  - destruct (seen (wr s) !! chunk_id c) as [sha|].
    + destruct (decide _).
      * left. exists i. simpl. apply in_or_app. right. now left.
      * right. right. right. simpl. apply setErr_err_some.
    + simpl. destruct (buf_Reader be (chunk_buf c) (tick s)).
      * right. right. left. eexists. split; [apply list_lookup_insert_eq; exact Hlt |].
        reflexivity.
      * right. right. right. simpl. apply setErr_err_some.
  - right. left. exists i, fc.
    simpl.
    destruct (negb _ || _); [destruct (reupload be _);
        [destruct (getUploadPartURL be _) |] |];
      simpl; autorewrite with world; simpl;
      rewrite ?in_app_iff; simpl; auto 10.
Qed.

Lemma settled_grows tr tr' c :
  (exists evs, tr' = tr ++ evs) ->
  (skipped tr c -> skipped tr' c) /\ (uploaded tr c -> uploaded tr' c).
Proof.
  intros (evs & ->). split.
  - intros (i & H). exists i. apply in_or_app. now left.
  - intros (i & fc & H). exists i, fc. apply in_or_app. now left.
Qed.

Lemma mild_trace s s' : mild s s' -> exists evs, trace s' = trace s ++ evs.
Proof. intros (_ & _ & _ & _ & (evs & H & _) & _). eauto. Qed.

Lemma mild_sent s s' : mild s s' -> sent (trace s') = sent (trace s).
Proof.
  intros (_ & _ & _ & _ & (evs & Ht & Hev) & _).
  rewrite Ht, sent_app, (sent_writer_events _ Hev). apply app_nil_r.
Qed.

Lemma settled_kept be hz cl :
  invariant be hz cl (fun s => engine_inv s /\ settled_inv s).
Proof.
  intros s s' [HI HK] H. split; [eapply engine_inv_kept; eauto |].
  apply atom_kinds in H.
  destruct H as [(i & ->) | [Hm | [(Ho & e & Hp) | (i & fc & b & Hi & Hb & ->)]]].
  - intros c Hc. rewrite thread_step_sent in Hc.
    destruct (settled_grows (trace s) (trace (thread_step be i s)) c
                (thread_step_trace be i s)) as [G1 G2].
    destruct (HK c Hc) as [H | [H | [(j & t & Hj & Hh) | H]]]; [auto | auto | |].
    + destruct (decide (j = i)) as [-> | Hne].
      * destruct (thread_step_settles be i s t c Hj Hh)
          as [Hs | [Hs | [(t' & Ht' & Hh') | Hs]]]; eauto 10.
      * right. right. left. exists j, t. rewrite thread_step_other by exact Hne. auto.
    + right. right. right. apply thread_step_err. exact H.
  - intros c Hc. rewrite (mild_sent _ _ Hm) in Hc.
    destruct (settled_grows (trace s) (trace s') c (mild_trace _ _ Hm)) as [G1 G2].
    destruct Hm as (Hp & _ & _ & _ & _ & He).
    destruct (HK c Hc) as [H | [H | [(j & t & Hj & Hh) | H]]]; [auto | auto | |].
    + right. right. left. exists j, t. rewrite Hp. auto.
    + right. right. right. auto.
  - destruct HI as (A1 & _). destruct (A1 Ho) as (_ & B2 & _).
    assert (Hs : sent (trace s') = []).
    { apply promote_spec in Hp.
      destruct Hp as [(Ht & _) | (_ & s0 & x0 & Hq & _ & _ & He)]; [congruence |].
      apply quiet_sent in Hq. rewrite B2 in Hq.
      destruct e as [e|]; [subst; exact Hq |].
      destruct He as (f & conc & _ & ->). exact Hq. }
    intros c Hc. rewrite Hs in Hc. contradiction.
  - pose proof (lookup_lt_Some _ _ _ Hi) as Hlt.
    intros c Hc. simpl in Hc. rewrite sent_app in Hc. simpl in Hc.
    apply in_app_or in Hc. destruct Hc as [Hc | [<- | []]].
    + destruct (settled_grows (trace s)
                  (trace s ++ [EvSend (mkChunk (cidx (wr s) + 1) b)]) c) as [G1 G2];
        [eauto |].
      destruct (HK c Hc) as [H | [H | [(j & t & Hj & Hh) | H]]]; [auto | auto | |].
      * right. right. left. exists j, t. simpl.
        rewrite list_lookup_insert_ne; [auto |].
        intros <-. rewrite Hi in Hj. inversion Hj; subst. discriminate.
      * right. right. right. exact H.
    + right. right. left. eexists i, _. simpl.
      split; [apply list_lookup_insert_eq; exact Hlt | reflexivity].
Qed.

Lemma upload_ends be hz sc conc resume chunk usefile nm ps rs e s' :
  upload be hz ps (new_world (configure conc resume chunk usefile (NewWriter nm)) sc)
  = Ret (rs, e) s' ->
  e = None ->
  sent (trace s') = [] \/ (err s' = None /\ all_exited s' = true).
Proof.
  intros H He.
  pose proof (upload_engine_inv _ _ _ _ _ _ _ _ _ _ _ H) as (_ & A2 & _).
  unfold upload in H. mbind H rs0 s1 Hws. mbind H e0 s2 Hcl. mstep H.
  inversion H; subst rs0 e0; clear H.
  destruct ps as [|p ps].
  { simpl in Hws. mstep Hws.
    destruct (Close_new_world be hz sc conc resume chunk usefile nm)
      as (s3 & Hc & Ht & _).
    rewrite Hc in Hcl. inversion Hcl; subst. left. rewrite Ht. reflexivity. }
  apply Writes_started in Hws; [| discriminate | left; reflexivity].
  destruct Hws as [Hev Hd]. simpl in Hd.
  destruct (Close_settles _ _ _ _ _ Hev Hd Hcl) as [He' Hend].
  rewrite He in He'. symmetry in He'.
  destruct (Hend He') as [Hc0 | Hx].
  - left. rewrite Hc0 in A2. symmetry in A2. apply zlen_zero in A2. exact A2.
  - right. auto.
Qed.

(* a goroutine that receives a chunk whose id is among the parts the server
   holds *)
Lemma thread_step_seen be i s fc c sha :
  pool s !! i = Some (TRecv fc c) -> seen (wr s) !! chunk_id c = Some sha ->
  let s1 := thread_step be i s in
  if decide (sha = buf_Hash (chunk_buf c)) then
    pool s1 !! i = Some (TIdle fc) /\ smap s1 !! chunk_id c = Some None
    /\ trace s1 = trace s ++ [EvBufClose (buf_id (chunk_buf c)); EvSkip i (chunk_id c)]
    /\ tick s1 = tick s
  else
    pool s1 !! i = Some TExit /\ trace s1 = trace s /\ tick s1 = tick s
    /\ err s1 = Some (default ErrChunksDontMatch (err s))
    /\ (err s = None -> ctx s1 <> None).
Proof.
  intros Hi Hseen. pose proof (lookup_lt_Some _ _ _ Hi) as Hlt.
  unfold thread_step. rewrite Hi. simpl. rewrite Hseen.
  destruct (decide (sha = buf_Hash (chunk_buf c))) as [Heq | Hne]; simpl.
  - split; [apply list_lookup_insert_eq; exact Hlt |].
    split; [apply lookup_insert_eq |].
    split; [rewrite <- app_assoc; reflexivity | reflexivity].
  - split; [apply list_lookup_insert_eq; rewrite setErr_pool; exact Hlt |].
    autorewrite with world.
    split; [reflexivity |]. split; [reflexivity |].
    destruct (err s) as [e0|] eqn:E.
    + split; [exact (setErr_keeps _ _ _ E) | discriminate].
    + destruct (setErr_first ErrChunksDontMatch s E) as [H1 H2]. auto.
Qed.

(** C4: resuming against the parts the server holds (w.seen).  In an
    upload that returns, uploadPart was called only for chunks sent whose
    id is not in w.seen, with the hash and the length of the chunk, and
    only chunks whose id is in w.seen with a hash equal to the chunk's were
    skipped.  When the upload returns nil, every chunk sent whose id is in
    w.seen was skipped and every other chunk sent was passed to uploadPart.
    A chunk sent whose id is in w.seen with another hash makes Close return
    an error.  The goroutine that receives a chunk whose id is in w.seen
    either closes the chunk's buffer, stores nil in the progress map and
    waits for the next chunk, without a call to the backend, or, when the
    hashes differ, latches the mismatch (unless an error is latched
    already, which cancels the context) and returns. *)
Theorem resume_skips_held_parts be hz sc conc resume chunk usefile nm ps rs e s' :
  upload be hz ps (new_world (configure conc resume chunk usefile (NewWriter nm)) sc)
  = Ret (rs, e) s' ->
  (forall i fc id sha size, In (EvUploadPart i fc id sha size) (trace s') ->
     seen (wr s') !! id = None
     /\ exists c, In c (sent (trace s')) /\ chunk_id c = id
                  /\ sha = buf_Hash (chunk_buf c) /\ size = buf_Len (chunk_buf c))
  /\ (forall i id, In (EvSkip i id) (trace s') ->
        exists c, In c (sent (trace s')) /\ chunk_id c = id
                  /\ seen (wr s') !! id = Some (buf_Hash (chunk_buf c)))
  /\ (e = None -> forall c, In c (sent (trace s')) ->
        match seen (wr s') !! chunk_id c with
        | Some sha => sha = buf_Hash (chunk_buf c) /\ skipped (trace s') c
        | None => uploaded (trace s') c
        end)
  /\ ((exists c sha, In c (sent (trace s')) /\ seen (wr s') !! chunk_id c = Some sha
                     /\ sha <> buf_Hash (chunk_buf c)) -> e <> None)
  /\ (forall i s fc c sha,
        pool s !! i = Some (TRecv fc c) -> seen (wr s) !! chunk_id c = Some sha ->
        let s1 := thread_step be i s in
        if decide (sha = buf_Hash (chunk_buf c)) then
          pool s1 !! i = Some (TIdle fc) /\ smap s1 !! chunk_id c = Some None
          /\ trace s1
             = trace s ++ [EvBufClose (buf_id (chunk_buf c)); EvSkip i (chunk_id c)]
          /\ tick s1 = tick s
        else
          pool s1 !! i = Some TExit /\ trace s1 = trace s /\ tick s1 = tick s
          /\ err s1 = Some (default ErrChunksDontMatch (err s))
          /\ (err s = None -> ctx s1 <> None)).
Proof.
  intros H.
  assert (Hinv : engine_inv s' /\ settled_inv s').
  { pose proof (upload_steps _ _ _ _ _ _ H) as Hst.
    apply (steps_invariant be hz true _ _ _ (settled_kept be hz true) Hst).
    split; [apply engine_inv_new; reflexivity |]. intros c []. }
  destruct Hinv as [HI HK].
  pose proof HI as (A1 & A2 & A3 & A4 & A5 & A6 & A7 & A8).
  assert (Hdone : e = None -> forall c, In c (sent (trace s')) ->
            (skipped (trace s') c \/ uploaded (trace s') c)
            /\ forall sha, seen (wr s') !! chunk_id c = Some sha ->
                           sha = buf_Hash (chunk_buf c)).
  { intros He c Hc. destruct (upload_ends _ _ _ _ _ _ _ _ _ _ _ _ H He) as [Hs | [Hn Hx]].
    { rewrite Hs in Hc. contradiction. }
    assert (Hheld : forall i t c0, pool s' !! i = Some t -> handling t = Some c0 -> False).
    { intros i t c0 Hi Hh. unfold all_exited in Hx. rewrite forallb_forall in Hx.
      apply list_elem_of_lookup_2 in Hi. apply list_elem_of_In in Hi.
      specialize (Hx _ Hi). destruct t; discriminate. }
    split.
    - destruct (HK c Hc) as [Hk | [Hk | [(i & t & Hi & Hh) | Hk]]];
        [auto | auto | exfalso; eauto | contradiction].
    - intros sha Hsha. destruct (decide (sha = buf_Hash (chunk_buf c))) as [| Hne]; [auto |].
      destruct (A8 c sha Hc Hsha Hne) as [Hk | (i & fc & Hi)]; [contradiction |].
      exfalso. eapply Hheld; [exact Hi | reflexivity]. }
  split; [exact A6 |].
  split; [exact A7 |].
  split.
  { intros He c Hc. destruct (Hdone He c Hc) as [Hs Hh].
    destruct (seen (wr s') !! chunk_id c) as [sha|] eqn:Hseen.
    - split; [apply Hh; reflexivity |].
      destruct Hs as [Hs | (i & fc & Hs)]; [exact Hs |].
      apply A6 in Hs. destruct Hs as [Hs _]. congruence.
    - destruct Hs as [(i & Hs) | Hs]; [| exact Hs].
      apply A7 in Hs. destruct Hs as (c' & _ & _ & Hs).
      congruence. }
  split.
  { intros (c & sha & Hc & Hsha & Hne) He.
    destruct (Hdone He c Hc) as [_ Hh]. apply Hne. apply Hh. exact Hsha. }
  intros i s fc c sha. apply thread_step_seen.
Qed.

(* the server holds part 1 of two: chunk 1 is skipped, chunk 2 is uploaded *)
Lemma resume_skips_held_parts_witness :
  exists s',
    upload be_resume 9 [some_bytes 6]
      (new_world (configure 1 true 3 false (NewWriter "obj")) [])
    = Ret ([(6, None)], None) s'
    /\ chunk_ids (trace s') = [1; 2]
    /\ forall c, In c (sent (trace s')) ->
         match seen (wr s') !! chunk_id c with
         | Some sha => sha = buf_Hash (chunk_buf c) /\ skipped (trace s') c
         | None => uploaded (trace s') c
         end.
Proof.
  eexists. split; [vm_compute; reflexivity |].
  split; [vm_compute; reflexivity |].
  match goal with
  | |- forall c, In c (sent (trace ?s)) -> _ =>
      destruct (resume_skips_held_parts be_resume 9%nat [] 1 true 3 false "obj"%string
                  [some_bytes 6] [(6, None)] None s) as (_ & _ & H & _);
        [vm_compute; reflexivity | exact (H eq_refl)]
  end.
Defined.

(* the hash the server holds for part 2 is not that of chunk 2: the
   goroutine latches the mismatch while Close waits, Close goes on to call
   finishLargeFile and then returns the mismatch *)
Lemma mismatch_still_finishes :
  exists s',
    upload be_tampered_second 9 [some_bytes 6]
      (new_world (configure 1 true 3 false (NewWriter "obj")) [])
    = Ret ([(6, None)], Some ErrChunksDontMatch) s'
    /\ err s' = Some ErrChunksDontMatch
    /\ In EvFinishLargeFile (trace s').
Proof.
  eexists. split; [vm_compute; reflexivity |].
  split; [vm_compute; reflexivity |].
  vm_compute. auto 20.
Qed.
